(** * ai-image-fixer: the raster pipeline of [src/lib/imageOps.ts]

    A shallow embedding of the image operations (auto white balance, Gaussian
    noise, brightness/contrast, saturation, separable Gaussian blur and the
    pipeline that chains them) together with the properties the specification
    states about them.

    Conventions.
    - A JavaScript [number] is an IEEE-754 binary64 value: Rocq's primitive
      [float].  Integer-valued quantities that the source keeps exactly
      (indices, pixel counts, histogram sums, [lo]/[hi]) are kept in [Z] and
      injected with [Num] where the source does floating-point arithmetic on
      them.
    - A [Uint8ClampedArray] is a [list Z] of bytes; a store of a number goes
      through [ToUint8Clamp] (NaN to 0, clamping, round half to even).
    - [ImageData] is a record; the platform guarantees
      [length data = 4 * width * height], which is [wf_image].
    - Where a property is about the accuracy of the arithmetic (the weights
      of the blur kernel), a finite double is read as the real number it
      stands for, [fval], and the rounding of each operation is the one of
      [SpecFloat]. *)

From Stdlib Require Import Reals Lra.
From Stdlib Require Uint63.
From Stdlib Require Import ZArith List Bool Lia Floats.
From stdpp Require Import base list.
Import ListNotations.

Local Open Scope Z_scope.
Set Warnings "-inexact-float".

(** ** JavaScript numbers *)

Module JS.

(** The double nearest to an integer (exact below 2^53). *)
Definition Num (z : Z) : float :=
  SF2Prim (binary_normalize prec emax z 0 false).

(** [m * 2^e] rounded to the nearest integer, ties to the even one: for
    [e < 0] the quotient [q] drops the low [-e] bits of [m], of which [half]
    is the highest and [sticky] tells whether any other is set. *)
Definition round_half_even (m e : Z) : Z :=
  if 0 <=? e then Z.shiftl m e
  else
    let k := - e in
    let q := Z.shiftr m k in
    let half := Z.testbit m (k - 1) in
    let sticky := negb (Z.shiftl (Z.shiftr m (k - 1)) (k - 1) =? m) in
    if half && (sticky || Z.odd q) then q + 1 else q.

(** The conversion a [Uint8ClampedArray] applies on a store (ToUint8Clamp). *)
Definition ToUint8Clamp (x : float) : Z :=
  match Prim2SF x with
  | S754_nan => 0
  | S754_zero _ => 0
  | S754_infinity s => if s then 0 else 255
  | S754_finite s m e =>
      if s then 0 else Z.min 255 (round_half_even (Z.pos m) e)
  end.

(** [floor (m * 2^e)] and [ceil (m * 2^e)] for a signed mantissa. *)
Definition floor_scaled (m e : Z) : Z :=
  if 0 <=? e then m * 2 ^ e else m / 2 ^ (- e).

Definition ceil_scaled (m e : Z) : Z :=
  - floor_scaled (- m) e.

Definition neg_zero_if (s : bool) (x : float) : float :=
  if s && (x =? 0)%float then neg_zero else x.

(** [Math.ceil]: integral values, infinities and NaN are returned as they
    are; a negative argument in (-1, 0) gives -0. *)
Definition Math_ceil (x : float) : float :=
  match Prim2SF x with
  | S754_finite s m e =>
      if 0 <=? e then x
      else neg_zero_if s (Num (ceil_scaled (cond_Zopp s (Z.pos m)) e))
  | _ => x
  end.

(** [Math.round]: [floor (x + 1/2)] computed exactly. *)
Definition Math_round (x : float) : float :=
  match Prim2SF x with
  | S754_finite s m e =>
      if 0 <=? e then x
      else neg_zero_if s
             (Num (floor_scaled (2 * cond_Zopp s (Z.pos m) + 2 ^ (- e)) (e - 1)))
  | _ => x
  end.

(** [Math.max] and [Math.min] of two numbers: NaN is contagious and
    +0 is larger than -0. *)
Definition Math_max (x y : float) : float :=
  if is_nan x then x
  else if is_nan y then y
  else if (x <? y)%float then y
  else if (y <? x)%float then x
  else if get_sign x then y else x.

Definition Math_min (x y : float) : float :=
  if is_nan x then x
  else if is_nan y then y
  else if (x <? y)%float then x
  else if (y <? x)%float then y
  else if get_sign x then x else y.

(** [Math.fround]: the nearest binary32 value, as a double; it is what a
    store into a [Float32Array] keeps. *)
Definition Math_fround (x : float) : float :=
  match Prim2SF x with
  | S754_finite s m e =>
      SF2Prim (binary_normalize 24 128 (cond_Zopp s (Z.pos m)) e s)
  | _ => x
  end.

(** The integer an integral number stands for, when a loop counts with it. *)
Definition to_int (x : float) : option Z :=
  match Prim2SF x with
  | S754_zero _ => Some 0
  | S754_finite s m e =>
      if 0 <=? e then Some (cond_Zopp s (Z.pos m) * 2 ^ e)
      else if (Z.pos m mod 2 ^ (- e) =? 0)
           then Some (cond_Zopp s (Z.pos m) / 2 ^ (- e)) else None
  | _ => None
  end.

Definition Math_PI : float := 3.141592653589793%float.

End JS.
Import JS.

(** ** [clamp] *)

Definition clamp (v min max : float) : float :=
  if (v <? min)%float then min else if (max <? v)%float then max else v.

(** [clamp(v)] with the default bounds 0 and 255. *)
Definition clamp255 (v : float) : float := clamp v 0 255.


(** ** Image data *)

Record ImageData := mkImageData {
  data : list Z;      (* Uint8ClampedArray, RGBA, row-major *)
  width : Z;
  height : Z
}.

Definition byte (v : Z) : Prop := 0 <= v <= 255.

(** What the platform guarantees of every [ImageData]. *)
Definition wf_image (img : ImageData) : Prop :=
  0 <= width img /\ 0 <= height img /\
  Z.of_nat (length (data img)) = 4 * width img * height img /\
  Forall byte (data img).

(** ** Auto white balance *)

(** [hist[v]++] on a [Uint32Array]. *)
Definition bump (v : Z) (hist : list Z) : list Z :=
  alter (fun c => (c + 1) mod 2 ^ 32) (Z.to_nat v) hist.

Definition bin (hist : list Z) (v : Z) : Z :=
  default 0 (hist !! Z.to_nat v).

Fixpoint histograms (buf : list Z) (hr hg hb : list Z)
  : list Z * list Z * list Z :=
  match buf with
  | r :: g :: b :: _ :: rest =>
      histograms rest (bump r hr) (bump g hg) (bump b hb)
  | _ => (hr, hg, hb)
  end.

(** One of the two loops of [lowHigh]: walk the bins [vs], adding up
    counts, and stop at the first bin where the sum exceeds [clipN]. *)
Fixpoint scan (hist : list Z) (clipN : float) (vs : list Z) (acc dflt : Z)
  : Z :=
  match vs with
  | [] => dflt
  | v :: vs' =>
      let acc' := acc + bin hist v in
      if (clipN <? Num acc')%float then v
      else scan hist clipN vs' acc' dflt
  end.

Definition bins_up : list Z := seqZ 0 256.
Definition bins_down : list Z := reverse (seqZ 0 256).

Definition lowHigh (clipN : float) (hist : list Z) : Z * Z :=
  let lo := scan hist clipN bins_up 0 0 in
  let hi := scan hist clipN bins_down 0 255 in
  if hi <=? lo then (0, 255) else (lo, hi).

(** [hi - lo || 1] *)
Definition lut_range (lo hi : Z) : Z :=
  if hi - lo =? 0 then 1 else hi - lo.

Definition lut_entry (lo range v : Z) : Z :=
  let t := ((Num (v - lo) / Num range) * 255)%float in
  ToUint8Clamp (if (t <? 0)%float then 0%float
                else if (255 <? t)%float then 255%float else t).

Definition makeLut (lo hi : Z) : list Z :=
  let range := lut_range lo hi in
  map (lut_entry lo range) (seqZ 0 256).

Fixpoint awb_loop (lr lg lb : list Z) (buf : list Z) : list Z :=
  match buf with
  | r :: g :: b :: a :: rest =>
      bin lr r :: bin lg g :: bin lb b :: a :: awb_loop lr lg lb rest
  | _ => []
  end.

Definition zeros256 : list Z := replicate 256 0.

Definition clip_count (n : Z) (clipPct : float) : float :=
  Math_max 0 (Math_min (Num n - 1) (Math_round (Num n * clipPct)))%float.

Definition applyAutoWhiteBalance (img : ImageData) (clipPct : float)
  : ImageData :=
  let n := width img * height img in
  if n =? 0 then img
  else
    let '(hr, hg, hb) := histograms (data img) zeros256 zeros256 zeros256 in
    let clipN := clip_count n clipPct in
    let '(rLo, rHi) := lowHigh clipN hr in
    let '(gLo, gHi) := lowHigh clipN hg in
    let '(bLo, bHi) := lowHigh clipN hb in
    let lr := makeLut rLo rHi in
    let lg := makeLut gLo gHi in
    let lb := makeLut bLo bHi in
    mkImageData (awb_loop lr lg lb (data img)) (width img) (height img).

(** The default [clipPct = 0.005]. *)
Definition default_clipPct : float := 0.005%float.

(** ** Brightness and contrast *)

Definition contrast_factor (contrastPct : float) : float :=
  let c := (contrastPct / 100)%float in
  ((259 * (c + 1)) / (255 * (1 - c)))%float.

Definition bc_channel (f b : float) (v : Z) : Z :=
  ToUint8Clamp (clamp255 (f * (Num v - 128) + 128 + b)%float).

Fixpoint bc_loop (f b : float) (src : list Z) : list Z :=
  match src with
  | r :: g :: bl :: a :: rest =>
      bc_channel f b r :: bc_channel f b g :: bc_channel f b bl :: a
        :: bc_loop f b rest
  | _ => []
  end.

Definition applyBrightnessContrast (img : ImageData)
  (brightnessPct contrastPct : float) : ImageData :=
  let b := ((brightnessPct / 100) * 255)%float in
  let f := contrast_factor contrastPct in
  mkImageData (bc_loop f b (data img)) (width img) (height img).

(** ** Saturation *)

Definition rgbToHsl (r g b : float) : float * float * float :=
  let r := (r / 255)%float in
  let g := (g / 255)%float in
  let b := (b / 255)%float in
  let max := Math_max (Math_max r g) b in
  let min := Math_min (Math_min r g) b in
  let l := ((max + min) / 2)%float in
  if negb (max =? min)%float then
    let d := (max - min)%float in
    let s := if (0.5 <? l)%float then (d / (2 - max - min))%float
             else (d / (max - min))%float in
    let h :=
      if (max =? r)%float then
        ((g - b) / d + (if (g <? b)%float then 6 else 0))%float
      else if (max =? g)%float then ((b - r) / d + 2)%float
      else if (max =? b)%float then ((r - g) / d + 4)%float
      else 0%float in
    ((h / 6)%float, s, l)
  else (0%float, 0%float, l).

Definition hue2rgb (p q t : float) : float :=
  let t := if (t <? 0)%float then (t + 1)%float else t in
  let t := if (1 <? t)%float then (t - 1)%float else t in
  if (t <? 1 / 6)%float then (p + (q - p) * 6 * t)%float
  else if (t <? 1 / 2)%float then q
  else if (t <? 2 / 3)%float then (p + (q - p) * (2 / 3 - t) * 6)%float
  else p.

Definition hslToRgb (h s l : float) : float * float * float :=
  let '(r, g, b) :=
    if (s =? 0)%float then (l, l, l)
    else
      let q := if (l <? 0.5)%float then (l * (1 + s))%float
               else (l + s - l * s)%float in
      let p := (2 * l - q)%float in
      (hue2rgb p q (h + 1 / 3)%float,
       hue2rgb p q h,
       hue2rgb p q (h - 1 / 3)%float) in
  ((r * 255)%float, (g * 255)%float, (b * 255)%float).

Definition sat_pixel (factor : float) (r g b : Z) : Z * Z * Z :=
  let '(h, s, l) := rgbToHsl (Num r) (Num g) (Num b) in
  let s := Math_max 0 (Math_min 1 (s * factor)%float) in
  let '(nr, ng, nb) := hslToRgb h s l in
  (ToUint8Clamp (clamp255 nr), ToUint8Clamp (clamp255 ng),
   ToUint8Clamp (clamp255 nb)).

Fixpoint sat_loop (factor : float) (src : list Z) : list Z :=
  match src with
  | r :: g :: b :: a :: rest =>
      let '(nr, ng, nb) := sat_pixel factor r g b in
      nr :: ng :: nb :: a :: sat_loop factor rest
  | _ => []
  end.

Definition saturation_factor (saturationPct : float) : float :=
  (1 + saturationPct / 100)%float.

Definition applySaturation (img : ImageData) (saturationPct : float)
  : ImageData :=
  if (saturationPct =? 0)%float then img
  else
    mkImageData (sat_loop (saturation_factor saturationPct) (data img))
                (width img) (height img).

(** ** Gaussian blur *)

(** [Math.exp] is the platform's: the kernel is stated over any such
    function. *)
Section Blur.

Variable Math_exp : float -> float.

(** The values [-radius, ..., radius] a loop counter takes; no iteration
    when [radius] is NaN. *)
Definition offsets (radius : float) : list Z :=
  match to_int radius with
  | Some r => seqZ (- r) (2 * r + 1)
  | None => []
  end.

Definition kernel_radius (sigma : float) : float :=
  Math_max 1 (Math_min 20 (Math_ceil (sigma * 3)%float)).

(** The kernel is a [Float32Array]: every store rounds to binary32, while
    [sum] accumulates the unrounded doubles. *)
Definition makeGaussianKernel (sigma : float) : list float * float :=
  if (sigma <=? 0.1)%float then ([1%float], 0%float)
  else
    let radius := kernel_radius sigma in
    let sigma2 := (sigma * sigma)%float in
    let vs := map (fun i => Math_exp (- (Num i * Num i) / (2 * sigma2))%float)
                  (offsets radius) in
    let sum := fold_left (fun s v => (s + v)%float) vs 0%float in
    (map (fun v => Math_fround (Math_fround v / sum)%float) vs, radius).

(** [buf[idx]] as a number; a read outside the array is [undefined], which
    arithmetic turns into NaN. *)
Definition rd (buf : list Z) (idx : Z) : float :=
  if idx <? 0 then nan
  else match buf !! Z.to_nat idx with
       | Some v => Num v
       | None => nan
       end.

Definition kv (kernel : list float) (radius k : Z) : float :=
  if k + radius <? 0 then nan
  else default nan (kernel !! Z.to_nat (k + radius)).

(** The inner loop over [k], for the channel at offset [c] of the pixel:
    [at_k k] is the index of the pixel the tap [k] reads. *)
Definition convolve (kernel : list float) (radius : Z) (ks : list Z)
  (buf : list Z) (at_k : Z -> Z) (c : Z) : Z :=
  ToUint8Clamp
    (fold_left (fun acc k => (acc + rd buf (at_k k + c) * kv kernel radius k)%float)
               ks 0%float).

Definition conv_pixel (kernel : list float) (radius : Z) (ks : list Z)
  (buf : list Z) (at_k : Z -> Z) : list Z :=
  [convolve kernel radius ks buf at_k 0; convolve kernel radius ks buf at_k 1;
   convolve kernel radius ks buf at_k 2; convolve kernel radius ks buf at_k 3].

(** The two passes write the pixels of [tmp] and [out] in row-major order,
    so each buffer is the concatenation of the pixels computed; both have
    the length of [src], which is [4 * w * h]. *)
Definition horizontal_pass (kernel : list float) (radius : Z) (ks : list Z)
  (w h : Z) (src : list Z) : list Z :=
  flat_map (fun y =>
    flat_map (fun x =>
      conv_pixel kernel radius ks src
        (fun k => (y * w + Z.min (w - 1) (Z.max 0 (x + k))) * 4))
      (seqZ 0 w))
    (seqZ 0 h).

Definition vertical_pass (kernel : list float) (radius : Z) (ks : list Z)
  (w h : Z) (tmp : list Z) : list Z :=
  flat_map (fun y =>
    flat_map (fun x =>
      conv_pixel kernel radius ks tmp
        (fun k => (Z.min (h - 1) (Z.max 0 (y + k)) * w + x) * 4))
      (seqZ 0 w))
    (seqZ 0 h).

Definition applyGaussianBlur (img : ImageData) (sigmaPx : float) : ImageData :=
  if (sigmaPx <=? 0.1)%float then img
  else
    let '(kernel, radius) := makeGaussianKernel sigmaPx in
    let w := width img in
    let h := height img in
    let ks := offsets radius in
    let r := default 0 (to_int radius) in
    let tmp := horizontal_pass kernel r ks w h (data img) in
    let out := vertical_pass kernel r ks w h tmp in
    mkImageData out w h.

End Blur.

(** ** Gaussian noise and the pipeline

    [Math.random] is a source of numbers with a state of its own; code that
    draws from it threads that state.  The two [while] loops of
    [gaussianRandom] have no bound in the source: here each gets [fuel]
    draws, and runs out of them ([None]) when every one of them is 0. *)

Section Pipeline.

Context {RS : Type}.
Variable random : RS -> float * RS.
Variables Math_log Math_cos Math_exp : float -> float.
Variable fuel : nat.

Definition Rand (A : Type) : Type := RS -> option (A * RS).

Definition ret {A} (a : A) : Rand A := fun s => Some (a, s).

Definition bind {A B} (m : Rand A) (k : A -> Rand B) : Rand B :=
  fun s => match m s with
           | Some (a, s') => k a s'
           | None => None
           end.

Notation "x <- m ;; k" := (bind m (fun x => k))
  (at level 60, m at next level, right associativity).

(** [while (u === 0) u = Math.random();] starting from [u = 0]. *)
Fixpoint draw_nonzero (n : nat) : Rand float :=
  fun s =>
    match n with
    | O => None
    | S n' =>
        let '(u, s') := random s in
        if (u =? 0)%float then draw_nonzero n' s' else Some (u, s')
    end.

Definition gaussianRandom (mean stdDev : float) : Rand float :=
  u <- draw_nonzero fuel ;;
  v <- draw_nonzero fuel ;;
  let mag := sqrt (-2.0 * Math_log u)%float in
  let z0 := (mag * Math_cos (2.0 * Math_PI * v))%float in
  ret (z0 * stdDev + mean)%float.

Definition noisy (sigma : float) (v : Z) : Rand Z :=
  z <- gaussianRandom 0 sigma ;;
  ret (ToUint8Clamp (clamp255 (Num v + z)%float)).

Fixpoint noise_loop (sigma : float) (src : list Z) : Rand (list Z) :=
  match src with
  | r :: g :: b :: a :: rest =>
      nr <- noisy sigma r ;;
      ng <- noisy sigma g ;;
      nb <- noisy sigma b ;;
      out <- noise_loop sigma rest ;;
      ret (nr :: ng :: nb :: a :: out)
  | _ => ret []
  end.

Definition applyGaussianNoise (img : ImageData) (sigma : float)
  : Rand ImageData :=
  if (sigma <=? 0)%float then ret img
  else
    out <- noise_loop sigma (data img) ;;
    ret (mkImageData out (width img) (height img)).

Record Adjustments := mkAdjustments {
  autoWhiteBalance : bool;
  noiseSigma : float;
  blurPx : float;
  brightness : float;
  contrast : float;
  saturation : float
}.

(** The third line of [applyPipeline]: the guard of the brightness/contrast
    stage lives here, not in [applyBrightnessContrast]. *)
Definition bc_step (adj : Adjustments) (img : ImageData) : ImageData :=
  if negb (brightness adj =? 0)%float || negb (contrast adj =? 0)%float
  then applyBrightnessContrast img (brightness adj) (contrast adj)
  else img.

Definition applyPipeline (input : ImageData) (adj : Adjustments)
  : Rand ImageData :=
  let img := input in
  let img := if autoWhiteBalance adj
             then applyAutoWhiteBalance img default_clipPct else img in
  img <- (if (0 <? noiseSigma adj)%float
          then applyGaussianNoise img (noiseSigma adj) else ret img) ;;
  let img := bc_step adj img in
  let img := if negb (saturation adj =? 0)%float
             then applySaturation img (saturation adj) else img in
  let img := if (0 <? blurPx adj)%float
             then applyGaussianBlur Math_exp img (blurPx adj) else img in
  ret img.

(** The random source is _fair_ for [fuel] when, from every state, one of the
    next [fuel] draws is not 0. *)
Definition fair : Prop := forall s, draw_nonzero fuel s <> None.

End Pipeline.

(** ** The editor, [src/components/ImageEditor.tsx]

    The component that calls [applyPipeline] keeps two numbers in range
    itself: the zoom of the preview and the number typed into the box of a
    slider. *)

(** [clampZoom]: [Math.min(8, Math.max(0.1, z))]. *)
Definition clampZoom (z : float) : float := Math_min 8 (Math_max 0.1 z).

(** [commit] of a [Slider], from the number [n] that [parseFloat] read: the
    number handed to [onChange], or [None] when [n] is NaN and the box goes
    back to the value it showed. *)
Definition commit (min max n : float) : option float :=
  if is_nan n then None
  else
    let v := n in
    let v := if (v <? min)%float then min else v in
    let v := if (max <? v)%float then max else v in
    Some v.

(** ** Vocabulary of the properties *)

(** The buffer of [n] pixels that all have the colour [(r, g, b, a)]. *)
Fixpoint uniform (n : nat) (r g b a : Z) : list Z :=
  match n with
  | O => []
  | S n' => r :: g :: b :: a :: uniform n' r g b a
  end.

(** The alpha channel of pixel [i] is at index [4 * i + 3]: the two buffers
    have as many bytes and the same alpha at every pixel. *)
Definition same_alpha (out src : list Z) : Prop :=
  length out = length src /\
  forall i : nat, out !! (4 * i + 3)%nat = src !! (4 * i + 3)%nat.

(** Every stage is at its "off" value. *)
Definition all_off (adj : Adjustments) : Prop :=
  autoWhiteBalance adj = false /\
  (noiseSigma adj <=? 0)%float = true /\
  (brightness adj =? 0)%float = true /\
  (contrast adj =? 0)%float = true /\
  (saturation adj =? 0)%float = true /\
  (blurPx adj <=? 0.1)%float = true.

(** A histogram whose bins other than [v] are empty. *)
Definition only_bin (v : Z) (hist : list Z) : Prop :=
  forall u, 0 <= u -> u <> v -> bin hist u = 0.

(** Bins that are all different from [v]. *)
Definition apart (v : Z) (vs : list Z) : Prop :=
  Forall (fun u => 0 <= u /\ u <> v) vs.

(** A buffer made of whole pixels. *)
Definition whole_pixels (l : list Z) : Prop := (length l mod 4 = 0)%nat.

Definition same_dims (out src : ImageData) : Prop :=
  width out = width src /\ height out = height src.

(** The nearest integer to a number (ties to even). *)
Definition round_nearest (x : float) : Z :=
  match Prim2SF x with
  | S754_finite s m e => cond_Zopp s (round_half_even (Z.pos m) e)
  | _ => 0
  end.

(** The HSL lightness of a pixel, as [rgbToHsl] computes it. *)
Definition lightness (r g b : Z) : float :=
  snd (rgbToHsl (Num r) (Num g) (Num b)).

(** The grey image of the lightness of every pixel. *)
Fixpoint desaturated (src : list Z) : list Z :=
  match src with
  | r :: g :: b :: a :: rest =>
      let v := round_nearest (lightness r g b * 255)%float in
      v :: v :: v :: a :: desaturated rest
  | _ => []
  end.

(** A byte as the colour component [rgbToHsl] works with. *)
Definition unit_of (x : Z) : float := (Num x / 255)%float.

(** The saturation and the lightness [rgbToHsl] derives from the largest
    and the smallest component. *)
Definition hsl_l (mx mn : float) : float := ((mx + mn) / 2)%float.

Definition hsl_s (mx mn : float) : float :=
  if negb (mx =? mn)%float then
    let d := (mx - mn)%float in
    if (0.5 <? hsl_l mx mn)%float then (d / (2 - mx - mn))%float
    else (d / (mx - mn))%float
  else 0%float.

(** The 256 values of [unit_of], computed once. *)
Definition unit_table : list float :=
  Eval vm_compute in map unit_of (seqZ 0 256).

(** A number that is stored as the integer nearest to it: it is +0, -0 or
    positive, and that integer is a byte. *)
Definition stored_exactly (x : float) : bool :=
  match Prim2SF x with
  | S754_zero _ => true
  | S754_finite false m e => round_half_even (Z.pos m) e <=? 255
  | _ => false
  end.

(** What makes a pixel whose largest and smallest components are [mx] and
    [mn] grey at [saturationPct = -100]: the scaled saturation is 0, and
    [l * 255] passes [clamp] and the store unchanged but for the rounding. *)
Definition grey_ok (mx mn : float) : bool :=
  let x := (hsl_l mx mn * 255)%float in
  (Math_max 0 (Math_min 1 (hsl_s mx mn * saturation_factor (-100))%float)
   =? 0)%float
  && negb (x <? 0)%float && negb (255 <? x)%float && stored_exactly x.

(** An infinity or NaN. *)
Definition not_finite (x : float) : bool :=
  match Prim2SF x with
  | S754_infinity _ | S754_nan => true
  | _ => false
  end.

(** A random source that always answers 1/2, and stand-ins for the
    platform's functions, to run the definitions on examples. *)
Definition half_source (s : nat) : float * nat := (0.5%float, S s).
Definition Math_id (x : float) : float := x.

(** Two images to run them on: four pixels of different colours, and six
    pixels of one colour. *)
Definition sample_image : ImageData :=
  mkImageData [10; 200; 10; 255; 100; 100; 100; 255;
               30; 30; 30; 255; 128; 128; 128; 7] 2 2.

Definition green_image : ImageData :=
  mkImageData (uniform 6 10 200 10 255) 3 2.





(** An image with a channel below, at and above 128. *)
Definition mid_image : ImageData := mkImageData [127; 128; 129; 255] 1 1.


(** ** Further vocabulary *)

(** The number of pixels of a buffer whose channel [sel] is [v]. *)
Fixpoint count_px (sel : Z -> Z -> Z -> Z) (v : Z) (buf : list Z) : Z :=
  match buf with
  | r :: g :: b :: _ :: rest =>
      (if sel r g b =? v then 1 else 0) + count_px sel v rest
  | _ => 0
  end.

Definition red (r g b : Z) : Z := r.
Definition green (r g b : Z) : Z := g.
Definition blue (r g b : Z) : Z := b.

(** A [Uint32Array] of 256 counters. *)
Definition counters (hist : list Z) : Prop :=
  length hist = 256%nat /\ forall v, 0 <= bin hist v < 2 ^ 32.

(** The fraction [n / r] rounded to the nearest integer, ties to even. *)
Definition round_fraction (n r : Z) : Z :=
  let q := n / r in
  match 2 * (n mod r) ?= r with
  | Lt => q
  | Gt => q + 1
  | Eq => if Z.even q then q else q + 1
  end.

(** The sum of the bins [a], ..., [b] of a histogram, and the test
    [acc > clipN] of [lowHigh]. *)
Definition sum_bins (hist : list Z) (a b : Z) : Z :=
  fold_right Z.add 0 (map (bin hist) (seqZ a (b - a + 1))).

Definition exceeds (clipN : float) (acc : Z) : bool :=
  (clipN <? Num acc)%float.

(** The sign bit of a number, read off its representation. *)
Definition get_sign_of (x : float) : bool :=
  match Prim2SF x with
  | S754_zero s | S754_infinity s | S754_finite s _ _ => s
  | S754_nan => false
  end.

(** Checks of [rgbToHsl] over pairs of bytes with their numbers: that
    [Math.max] and [Math.min] of two components are the components of the
    larger and the smaller byte, and the ranges of what is derived from the
    largest and the smallest component. *)
Definition extremes_ok (x y : Z * float) : bool :=
  Leibniz.eqb (Math_max (x.2 / 255) (y.2 / 255))
              (if x.1 <=? y.1 then (y.2 / 255)%float else (x.2 / 255)%float)
  && Leibniz.eqb (Math_min (x.2 / 255) (y.2 / 255))
                 (if x.1 <=? y.1 then (x.2 / 255)%float else (y.2 / 255)%float).

Definition hsl_ok (M m : Z * float) : bool :=
  if m.1 <=? M.1 then
    let l := hsl_l (M.2 / 255) (m.2 / 255) in
    let s := hsl_s (M.2 / 255) (m.2 / 255) in
    (0 <=? l)%float && (l <=? 1)%float && (0 <=? s)%float && (s <=? 1)%float
    && (if (m.1 <? M.1) && negb (0.5 <? l)%float
        then Leibniz.eqb s 1 else true)
  else true.

(** The buffer whose colour channels are all [v], with the alpha of
    [src]. *)
Fixpoint flattened (v : Z) (src : list Z) : list Z :=
  match src with
  | _ :: _ :: _ :: a :: rest => v :: v :: v :: a :: flattened v rest
  | _ => []
  end.

(** Every pixel has [r = g = b]. *)
Fixpoint grey_pixels (src : list Z) : Prop :=
  match src with
  | r :: g :: b :: _ :: rest => r = g /\ g = b /\ grey_pixels rest
  | _ => True
  end.

(** The bytes with the numbers they stand for, computed once. *)
Definition byte_numbers : list (Z * float) :=
  Eval vm_compute in map (fun z => (z, Num z)) (seqZ 0 256).

(** The value [makeLut] stores for [(v - lo) / range], before the store. *)
Definition lut_value (fd fr : float) : float :=
  let t := ((fd / fr) * 255)%float in
  if (t <? 0)%float then 0%float
  else if (255 <? t)%float then 255%float else t.

(** Checks of the table of [makeLut] over pairs of bytes with their
    numbers: below [lo], from [hi] on, and in between. *)
Definition lut_below_ok (k r : Z * float) : bool :=
  if (1 <=? k.1) && (1 <=? r.1)
  then Leibniz.eqb (lut_value (- k.2) r.2) 0 else true.

Definition lut_above_ok (d r : Z * float) : bool :=
  if (1 <=? r.1) && (r.1 <=? d.1)
  then Leibniz.eqb (lut_value d.2 r.2) 255 else true.

Definition lut_inside_ok (d r : Z * float) : bool :=
  if (1 <=? r.1) && (d.1 <=? r.1)
  then ToUint8Clamp (lut_value d.2 r.2) =? round_fraction (255 * d.1) r.1
  else true.

(** A run of the whole pipeline on [sample_image], and a grey image. *)
Definition sample_adjustments : Adjustments :=
  mkAdjustments true 5 0 50 10 (-30).

Definition sample_output : ImageData :=
  Eval vm_compute in
    match applyPipeline half_source Math_id Math_id Math_id 1 sample_image
            sample_adjustments 0%nat with
    | Some (out, _) => out
    | None => sample_image
    end.

Definition grey_image : ImageData :=
  mkImageData [30; 30; 30; 255; 128; 128; 128; 7] 2 1.

(** ** Vocabulary of the rounding analysis

    The blur is the one stage whose claim is about the accuracy of the
    arithmetic, so its numbers are read as real numbers: [fval x] is the
    real number a finite double [x] stands for. *)

Definition pow2 (e : Z) : R := powerRZ 2 e.

(** The real number of a finite float; 0 for the others. *)
Definition SFval (x : spec_float) : R :=
  match x with
  | S754_finite s m e =>
      ((if s then -1 else 1) * IZR (Z.pos m) * pow2 e)%R
  | _ => 0%R
  end.

Definition SFfin (x : spec_float) : bool :=
  match x with
  | S754_zero _ | S754_finite _ _ _ => true
  | _ => false
  end.

Definition SFsign (x : spec_float) : bool :=
  match x with
  | S754_zero s | S754_infinity s | S754_finite s _ _ => s
  | S754_nan => false
  end.

Definition sgn (s : bool) : R := if s then (-1)%R else 1%R.

(** A finite float whose exponent is at least [emin]. *)
Definition SFwf (prec emax : Z) (x : spec_float) : Prop :=
  match x with
  | S754_finite _ _ e => SpecFloat.emin prec emax <= e
  | _ => True
  end.

(** The result [z] of an operation whose exact result is [X]: finite and
    within the relative error [2^(1-prec)] and the absolute error [t] of
    [X], or an infinity when [X] is too large. *)
Definition rounds_to (prec emax : Z) (t : R) (z : spec_float) (X : R) : Prop :=
  (SFfin z = true
   /\ (Rabs (SFval z - X) <= Rabs X * pow2 (1 - prec) + t)%R)
  \/ ((exists s, z = S754_infinity s)
      /\ (pow2 (emax - prec) < Rabs X * (1 + pow2 (1 - prec)) + t)%R).

Definition fval (x : float) : R := SFval (Prim2SF x).
Definition ffin (x : float) : bool := SFfin (Prim2SF x).

(** The relative error of one operation on doubles, and the absolute error
    of one that underflows; the same for the stores of a [Float32Array]. *)
Definition u64 : R := pow2 (-52).
Definition t64 : R := pow2 (-1074).
Definition u32 : R := pow2 (-23).
Definition t32 : R := pow2 (-149).

(** The exact sum of the numbers of a list, and the sum the code computes
    from left to right. *)
Fixpoint rsum (l : list float) : R :=
  match l with
  | [] => 0%R
  | v :: l => (fval v + rsum l)%R
  end.

Definition fsum (l : list float) (acc : float) : float :=
  fold_left (fun s v => (s + v)%float) l acc.

(** A number between 0 and 1. *)
Definition unitf (v : float) : Prop :=
  ffin v = true /\ (0 <= fval v <= 1)%R.

(** The weight [makeGaussianKernel] stores for the value [v], [S] being the
    sum of the values. *)
Definition weigh (S v : float) : float :=
  Math_fround (Math_fround v / S).

(** What the kernel needs of [Math.exp]: 1 at -0, as ECMAScript prescribes,
    and a number between 0 and 1 for every argument that is not above 0. *)
Definition exp_like (Math_exp : float -> float) : Prop :=
  Math_exp neg_zero = 1%float
  /\ forall x, (x <=? 0)%float = true ->
       (0 <=? Math_exp x)%float = true /\ (Math_exp x <=? 1)%float = true.

(** A positive number or +Infinity. *)
Definition pos_or_inf (x : float) : Prop :=
  Prim2SF x = S754_infinity false \/ (ffin x = true /\ (0 < fval x)%R).

(** A negative number, -0 or -Infinity. *)
Definition neg_or_zero (x : float) : Prop :=
  match Prim2SF x with
  | S754_zero true | S754_finite true _ _ | S754_infinity true => True
  | _ => False
  end.

(** [-(i * i)] is -0 for the offset 0 and a negative number for the
    others. *)
Definition square_ok (i : Z) : bool :=
  match Prim2SF (- (Num i * Num i)) with
  | S754_zero true => i =? 0
  | S754_finite true _ _ => negb (i =? 0)
  | _ => false
  end.

(** The sum of the weights of a kernel, added up as numbers. *)
Definition kernel_sum (kernel : list float) : float :=
  fold_left (fun s w => (s + w)%float) kernel 0%float.

(** The taps of a convolution that reads the same number [c] at every
    offset. *)
Definition taps (c : float) (kernel : list float) : list float :=
  map (fun w => (c * w)%float) kernel.

(** The channel at offset [c] of the colour [(r, g, b, a)]. *)
Definition channel (r g b a : Z) (c : Z) : Z :=
  if c =? 0 then r else if c =? 1 then g else if c =? 2 then b else a.

(** A kernel that keeps constants. *)
Definition keeps_constants (kernel : list float) : Prop :=
  forall c, 0 <= c <= 255 -> ToUint8Clamp (fsum (taps (Num c) kernel) 0) = c.

(** A [Math.exp] that is only right at zero: 1 there and one half below. *)
Definition exp_step (x : float) : float :=
  if (x <? 0)%float then 0.5%float else 1%float.

(** * Properties *)

(** ** Numbers and bytes *)

Lemma round_half_even_nonneg m e : 0 <= m -> 0 <= round_half_even m e.
Proof.
  intros Hm. unfold round_half_even.
  destruct (0 <=? e).
  - apply Z.shiftl_nonneg, Hm.
  - assert (Hq : 0 <= Z.shiftr m (- e)) by (apply Z.shiftr_nonneg, Hm).
    destruct (_ && _); lia.
Qed.

Lemma ToUint8Clamp_byte x : byte (ToUint8Clamp x).
Proof.
  unfold ToUint8Clamp, byte.
  destruct (Prim2SF x) as [s|s| |s m e]; [lia | destruct s; lia | lia |].
  destruct s; [lia|].
  pose proof (round_half_even_nonneg (Z.pos m) e ltac:(lia)). lia.
Qed.

(** A property of all bytes is checked on the 256 of them. *)
Lemma forall_bytes (P : Z -> bool) :
  forallb P (seqZ 0 256) = true -> forall v, byte v -> P v = true.
Proof.
  intros H v Hv. rewrite forallb_forall in H. apply H.
  apply list_elem_of_In, elem_of_seqZ. unfold byte in Hv. lia.
Qed.

(** Induction over a buffer, four bytes at a time, as the pixel loops walk
    it. *)
Lemma pixel_ind (P : list Z -> Prop) :
  (forall l, (length l < 4)%nat -> P l) ->
  (forall r g b a rest, P rest -> P (r :: g :: b :: a :: rest)) ->
  forall l, P l.
Proof.
  intros Hshort Hpix. fix IH 1.
  intros [|r [|g [|b [|a rest]]]]; try (apply Hshort; simpl; lia).
  apply Hpix, IH.
Qed.

(** ** Brightness and contrast *)

Lemma bc_loop_bytes f b src : Forall byte src -> Forall byte (bc_loop f b src).
Proof.
  induction src as [l Hl | r g bl a rest IH] using pixel_ind; intros Hsrc.
  - destruct l as [|? [|? [|? [|? ?]]]]; simpl in *; try lia; constructor.
  - simpl. inversion_clear Hsrc as [|? ? _ H1]. inversion_clear H1 as [|? ? _ H2].
    inversion_clear H2 as [|? ? _ H3]. inversion_clear H3 as [|? ? Ha H4].
    do 3 (constructor; [apply ToUint8Clamp_byte|]).
    constructor; [exact Ha | exact (IH H4)].
Qed.

(** At [contrastPct = 100] the factor is not special-cased: it is
    +Infinity, and the value computed for a channel equal to 128 is NaN,
    which [clamp] hands on and the store turns into 0. *)
Lemma contrast_factor_100 : contrast_factor 100 = infinity.
Proof. reflexivity. Qed.

Lemma full_contrast_channels :
  forall v, byte v ->
    bc_channel (contrast_factor 100) 0 v = if 128 <? v then 255 else 0.
Proof.
  intros v Hv.
  apply Z.eqb_eq.
  apply (forall_bytes
           (fun v => bc_channel (contrast_factor 100) 0 v
                     =? (if 128 <? v then 255 else 0))); [|exact Hv].
  vm_compute. reflexivity.
Qed.

(** Whatever is added to an infinity or to NaN, the sum is one of them. *)
Lemma add_not_finite t b : not_finite t = true -> not_finite (t + b) = true.
Proof.
  unfold not_finite. rewrite add_spec.
  destruct (Prim2SF t) as [| st | |]; try discriminate; intros _;
    destruct (Prim2SF b) as [| sb | |]; try reflexivity.
  destruct st, sb; reflexivity.
Qed.

Lemma store_not_finite x :
  not_finite x = true ->
  ToUint8Clamp (clamp255 x) = 0 \/ ToUint8Clamp (clamp255 x) = 255.
Proof.
  intros Hx. unfold clamp255, clamp.
  destruct (x <? 0)%float; [left; reflexivity|].
  destruct (255 <? x)%float; [right; reflexivity|].
  unfold not_finite in Hx. unfold ToUint8Clamp.
  destruct (Prim2SF x) as [| s | |]; try discriminate; [destruct s|]; auto.
Qed.

(** At [contrastPct = 100] every colour channel comes out as 0 or 255, for
    every brightness, NaN and the infinities included. *)
Lemma full_contrast_is_extreme (b : float) (v : Z) :
  byte v ->
  bc_channel (contrast_factor 100) b v = 0
  \/ bc_channel (contrast_factor 100) b v = 255.
Proof.
  intros Hv. unfold bc_channel. apply store_not_finite, add_not_finite.
  apply (forall_bytes
           (fun v => not_finite (contrast_factor 100 * (Num v - 128) + 128)%float));
    [vm_compute; reflexivity | exact Hv].
Qed.

(** C6: the 2x2 image of (100, 100, 100, 255) at brightness 50 and contrast 0
    becomes the 2x2 image of (227, 227, 227, 255). *)
Theorem brightness_50_scenario :
  applyBrightnessContrast (mkImageData (uniform 4 100 100 100 255) 2 2) 50 0
  = mkImageData (uniform 4 227 227 227 255) 2 2.
Proof. vm_compute. reflexivity. Qed.

(** The stage has no guard of its own: at brightness 0 and contrast 0 it
    still scales by 259/255 about 128. *)
Lemma bc_zero_zero_example :
  applyBrightnessContrast (mkImageData [30; 30; 30; 255] 1 1) 0 0
  = mkImageData [28; 28; 28; 255] 1 1.
Proof. vm_compute. reflexivity. Qed.

(** C1, as stated, fails: [applyBrightnessContrast] at brightness 0 and
    contrast 0 is not the identity. *)
Lemma bc_zero_zero_not_identity :
  ~ (forall img, wf_image img -> applyBrightnessContrast img 0 0 = img).
Proof.
  intros H.
  specialize (H (mkImageData [30; 30; 30; 255] 1 1)).
  rewrite bc_zero_zero_example in H.
  assert (Hwf : wf_image (mkImageData [30; 30; 30; 255] 1 1)).
  { unfold wf_image, byte; simpl. repeat split; try lia.
    repeat constructor; lia. }
  specialize (H Hwf). discriminate H.
Qed.

(** ** Auto white balance: the bounds of [lowHigh] *)

(** C10: the bounds [lowHigh] returns are at least 1 apart, so the divisor
    [makeLut] uses is [hi - lo] itself and its [|| 1] never applies. *)
Theorem lowHigh_bounds_apart (clipN : float) (hist : list Z) :
  1 <= snd (lowHigh clipN hist) - fst (lowHigh clipN hist) /\
  lut_range (fst (lowHigh clipN hist)) (snd (lowHigh clipN hist))
  = snd (lowHigh clipN hist) - fst (lowHigh clipN hist).
Proof.
  unfold lowHigh.
  generalize (scan hist clipN bins_up 0 0) as lo.
  generalize (scan hist clipN bins_down 0 255) as hi.
  intros hi lo. unfold lut_range.
  destruct (hi <=? lo) eqn:Hcmp; cbn [fst snd].
  - split; [lia | reflexivity].
  - apply Z.leb_gt in Hcmp.
    destruct (hi - lo =? 0) eqn:Hz; [apply Z.eqb_eq in Hz; lia|].
    split; [lia | reflexivity].
Qed.

(** ** The alpha channel through the pixel loops *)

Lemma wf_whole_pixels img : wf_image img -> whole_pixels (data img).
Proof.
  intros (Hw & Hh & Hlen & _). unfold whole_pixels.
  assert (Hn : length (data img) = (4 * Z.to_nat (width img * height img))%nat) by lia.
  rewrite Hn, Nat.mul_comm. apply Nat.Div0.mod_mul.
Qed.

Lemma whole_pixels_short l : whole_pixels l -> (length l < 4)%nat -> l = [].
Proof.
  unfold whole_pixels. intros Hm Hlt.
  rewrite Nat.mod_small in Hm by exact Hlt.
  destruct l; [reflexivity | discriminate Hm].
Qed.

Lemma whole_pixels_tail r g b a rest :
  whole_pixels (r :: g :: b :: a :: rest) -> whole_pixels rest.
Proof.
  unfold whole_pixels. cbn [length]. intros H.
  replace (S (S (S (S (length rest))))) with (length rest + 1 * 4)%nat in H by lia.
  rewrite Nat.Div0.mod_add in H. exact H.
Qed.

Lemma same_alpha_nil : same_alpha [] [].
Proof. split; [reflexivity | intros i; reflexivity]. Qed.

Lemma same_alpha_pixel r g b r' g' b' a out src :
  same_alpha out src ->
  same_alpha (r' :: g' :: b' :: a :: out) (r :: g :: b :: a :: src).
Proof.
  intros [Hlen Ha]. split; [simpl; congruence|].
  intros [|i]; [reflexivity|].
  replace (4 * S i + 3)%nat with (S (S (S (S (4 * i + 3))))) by lia.
  simpl. apply Ha.
Qed.

(** The three deterministic loops copy [src[i + 3]] to [dst[i + 3]]. *)
Ltac alpha_by_pixels src :=
  induction src as [l Hl | r g b a rest IH] using pixel_ind; intros Hpix;
  [ rewrite (whole_pixels_short l Hpix Hl); apply same_alpha_nil
  | apply whole_pixels_tail in Hpix; specialize (IH Hpix) ].

Lemma awb_loop_alpha lr lg lb src :
  whole_pixels src -> same_alpha (awb_loop lr lg lb src) src.
Proof. alpha_by_pixels src. simpl. apply same_alpha_pixel, IH. Qed.

Lemma bc_loop_alpha f b0 src :
  whole_pixels src -> same_alpha (bc_loop f b0 src) src.
Proof. alpha_by_pixels src. simpl. apply same_alpha_pixel, IH. Qed.

Lemma sat_loop_alpha factor src :
  whole_pixels src -> same_alpha (sat_loop factor src) src.
Proof.
  alpha_by_pixels src. simpl.
  destruct (sat_pixel factor r g b) as [[nr ng] nb].
  apply same_alpha_pixel, IH.
Qed.

Lemma same_alpha_refl l : same_alpha l l.
Proof. split; reflexivity. Qed.

Lemma awb_alpha img clipPct :
  wf_image img -> same_alpha (data (applyAutoWhiteBalance img clipPct)) (data img).
Proof.
  intros Hwf. unfold applyAutoWhiteBalance.
  destruct (width img * height img =? 0); [apply same_alpha_refl|].
  destruct (histograms _ _ _ _) as [[hr hg] hb].
  destruct (lowHigh _ hr), (lowHigh _ hg), (lowHigh _ hb). simpl.
  apply awb_loop_alpha, wf_whole_pixels, Hwf.
Qed.

Lemma awb_dims img clipPct : same_dims (applyAutoWhiteBalance img clipPct) img.
Proof.
  unfold applyAutoWhiteBalance, same_dims.
  destruct (width img * height img =? 0); [split; reflexivity|].
  destruct (histograms _ _ _ _) as [[hr hg] hb].
  destruct (lowHigh _ hr), (lowHigh _ hg), (lowHigh _ hb). split; reflexivity.
Qed.

Lemma bc_dims img b c : same_dims (applyBrightnessContrast img b c) img.
Proof. split; reflexivity. Qed.

Lemma sat_dims img pct : same_dims (applySaturation img pct) img.
Proof.
  unfold applySaturation, same_dims.
  destruct (pct =? 0)%float; split; reflexivity.
Qed.

Lemma sat_alpha img pct :
  wf_image img -> same_alpha (data (applySaturation img pct)) (data img).
Proof.
  intros Hwf. unfold applySaturation.
  destruct (pct =? 0)%float; [apply same_alpha_refl|]. simpl.
  apply sat_loop_alpha, wf_whole_pixels, Hwf.
Qed.

Lemma blur_dims Math_exp img sigmaPx :
  same_dims (applyGaussianBlur Math_exp img sigmaPx) img.
Proof.
  unfold applyGaussianBlur, same_dims.
  destruct (sigmaPx <=? 0.1)%float; [split; reflexivity|].
  destruct (makeGaussianKernel Math_exp sigmaPx). split; reflexivity.
Qed.

Lemma same_dims_refl img : same_dims img img.
Proof. split; reflexivity. Qed.

Lemma same_dims_trans a b c : same_dims a b -> same_dims b c -> same_dims a c.
Proof. unfold same_dims. intros [? ?] [? ?]. split; congruence. Qed.

(** ** Contrast 100 *)





(** What the stage makes of [mid_image] at contrast 100, and just below:
    only at 100 does the channel equal to 128 turn black. *)
Lemma full_contrast_example :
  applyBrightnessContrast mid_image 0 100 = mkImageData [0; 0; 255; 255] 1 1
  /\ applyBrightnessContrast mid_image 0 99.99
     = mkImageData [0; 128; 255; 255] 1 1.
Proof. split; vm_compute; reflexivity. Qed.





(** ** The noise stage and the pipeline *)

Section PipelineFacts.

Context {RS : Type}.
Variable random : RS -> float * RS.
Variables Math_log Math_cos Math_exp : float -> float.
Variable fuel : nat.

Local Abbreviation gaussianRandom' := (gaussianRandom random Math_log Math_cos fuel).
Local Abbreviation noise_loop' := (noise_loop random Math_log Math_cos fuel).
Local Abbreviation applyGaussianNoise' := (applyGaussianNoise random Math_log Math_cos fuel).
Local Abbreviation applyPipeline' := (applyPipeline random Math_log Math_cos Math_exp fuel).

Hypothesis Hfair : fair random fuel.

Lemma draw_nonzero_returns s : exists u s', draw_nonzero random fuel s = Some (u, s').
Proof.
  specialize (Hfair s).
  destruct (draw_nonzero random fuel s) as [[u s']|]; [eauto | contradiction].
Qed.

Lemma gaussianRandom_returns mean stdDev s :
  exists z s', gaussianRandom' mean stdDev s = Some (z, s').
Proof.
  unfold gaussianRandom, bind, ret.
  destruct (draw_nonzero_returns s) as (u & s1 & ->).
  destruct (draw_nonzero_returns s1) as (v & s2 & ->).
  eauto.
Qed.

Lemma noisy_returns sigma v s :
  exists x s', noisy random Math_log Math_cos fuel sigma v s = Some (x, s').
Proof.
  unfold noisy, bind, ret.
  destruct (gaussianRandom_returns 0 sigma s) as (z & s1 & ->). eauto.
Qed.

(** The loop of [applyGaussianNoise] returns, and copies every alpha. *)
Lemma noise_loop_returns sigma src :
  whole_pixels src ->
  forall s, exists out s',
    noise_loop' sigma src s = Some (out, s') /\ same_alpha out src.
Proof.
  induction src as [l Hl | r g b a rest IH] using pixel_ind; intros Hpix s.
  - rewrite (whole_pixels_short l Hpix Hl). simpl. unfold ret.
    eauto using same_alpha_nil.
  - apply whole_pixels_tail in Hpix. specialize (IH Hpix).
    cbn [noise_loop]. unfold bind, ret.
    destruct (noisy_returns sigma r s) as (nr & s1 & ->).
    destruct (noisy_returns sigma g s1) as (ng & s2 & ->).
    destruct (noisy_returns sigma b s2) as (nb & s3 & ->).
    destruct (IH s3) as (out & s4 & -> & Halpha).
    eauto using same_alpha_pixel.
Qed.

Lemma noise_returns img sigma s :
  wf_image img ->
  exists out s',
    applyGaussianNoise' img sigma s = Some (out, s')
    /\ same_dims out img /\ same_alpha (data out) (data img).
Proof.
  intros Hwf. unfold applyGaussianNoise.
  destruct (sigma <=? 0)%float.
  - unfold ret. eauto using same_dims_refl, same_alpha_refl.
  - unfold bind, ret.
    destruct (noise_loop_returns sigma (data img) (wf_whole_pixels _ Hwf) s)
      as (out & s' & -> & Halpha).
    exists (mkImageData out (width img) (height img)), s'.
    split; [reflexivity | split; [split; reflexivity | exact Halpha]].
Qed.

(** C2: no stage changes the width or the height, and neither does
    [applyPipeline], which returns for every buffer and every parameter
    set. *)
Theorem pipeline_keeps_dimensions (img : ImageData) :
  wf_image img ->
  (forall clipPct, same_dims (applyAutoWhiteBalance img clipPct) img) /\
  (forall sigma s, exists out s',
      applyGaussianNoise' img sigma s = Some (out, s') /\ same_dims out img) /\
  (forall b c, same_dims (applyBrightnessContrast img b c) img) /\
  (forall pct, same_dims (applySaturation img pct) img) /\
  (forall sigmaPx, same_dims (applyGaussianBlur Math_exp img sigmaPx) img) /\
  (forall adj s, exists out s',
      applyPipeline' img adj s = Some (out, s') /\ same_dims out img).
Proof.
  intros Hwf.
  split; [intros; apply awb_dims|].
  split; [intros sigma s;
          destruct (noise_returns img sigma s Hwf) as (o & s' & ? & ? & _); eauto|].
  split; [intros; apply bc_dims|].
  split; [intros; apply sat_dims|].
  split; [intros; apply blur_dims|].
  intros adj s. unfold applyPipeline, bind, ret.
  set (img1 := if autoWhiteBalance adj
               then applyAutoWhiteBalance img default_clipPct else img).
  assert (Hd1 : same_dims img1 img).
  { subst img1. destruct (autoWhiteBalance adj);
      [apply awb_dims | apply same_dims_refl]. }
  assert (H2 : exists img2 s',
             (if (0 <? noiseSigma adj)%float
              then applyGaussianNoise' img1 (noiseSigma adj)
              else fun s0 => Some (img1, s0)) s = Some (img2, s')
             /\ same_dims img2 img).
  { destruct (0 <? noiseSigma adj)%float; [|eauto].
    unfold applyGaussianNoise.
    destruct (noiseSigma adj <=? 0)%float; [unfold ret; eauto|].
    unfold bind, ret.
    destruct (noise_loop' (noiseSigma adj) (data img1) s) as [[o s']|] eqn:Hloop.
    - exists (mkImageData o (width img1) (height img1)), s'.
      split; [reflexivity | exact Hd1].
    - exfalso.
      assert (Hp : whole_pixels (data img1)).
      { subst img1. destruct (autoWhiteBalance adj);
          [|apply wf_whole_pixels, Hwf].
        pose proof (awb_alpha img default_clipPct Hwf) as [Hlen _].
        unfold whole_pixels. rewrite Hlen. apply wf_whole_pixels, Hwf. }
      destruct (noise_loop_returns (noiseSigma adj) _ Hp s) as (? & ? & Hs & _).
      congruence. }
  destruct H2 as (img2 & s' & -> & Hd2).
  eexists _, s'. split; [reflexivity|].
  eapply same_dims_trans; [|exact Hd2].
  assert (Hd3 : same_dims (bc_step adj img2) img2).
  { unfold bc_step. destruct (_ || _); [apply bc_dims | apply same_dims_refl]. }
  set (img3 := bc_step adj img2) in *.
  set (img4 := if negb (saturation adj =? 0)%float
               then applySaturation img3 (saturation adj) else img3).
  assert (Hd4 : same_dims img4 img3).
  { subst img4. destruct (negb _); [apply sat_dims | apply same_dims_refl]. }
  eapply same_dims_trans; [|exact Hd3].
  eapply same_dims_trans; [|exact Hd4].
  destruct (0 <? blurPx adj)%float; [apply blur_dims | apply same_dims_refl].
Qed.

(** C4: auto white balance, noise (for any sigma), brightness/contrast and
    saturation leave the alpha of every pixel as it was. *)
Theorem stages_keep_alpha (img : ImageData) :
  wf_image img ->
  (forall clipPct,
      same_alpha (data (applyAutoWhiteBalance img clipPct)) (data img)) /\
  (forall sigma s, exists out s',
      applyGaussianNoise' img sigma s = Some (out, s')
      /\ same_alpha (data out) (data img)) /\
  (forall b c,
      same_alpha (data (applyBrightnessContrast img b c)) (data img)) /\
  (forall pct, same_alpha (data (applySaturation img pct)) (data img)).
Proof.
  intros Hwf.
  split; [intros; apply awb_alpha, Hwf|].
  split; [intros sigma s;
          destruct (noise_returns img sigma s Hwf) as (o & s' & ? & _ & ?); eauto|].
  split; [intros; simpl; apply bc_loop_alpha, wf_whole_pixels, Hwf|].
  intros; apply sat_alpha, Hwf.
Qed.

(** C1, amended: the noise, blur and saturation stages return their input
    when their parameter is at its disabled value; for brightness and
    contrast it is the pipeline's step that returns the input when both
    are 0. *)
Theorem disabled_stage_is_identity (img : ImageData) :
  (forall sigma s, (sigma <=? 0)%float = true ->
      applyGaussianNoise' img sigma s = Some (img, s)) /\
  (forall sigmaPx, (sigmaPx <=? 0.1)%float = true ->
      applyGaussianBlur Math_exp img sigmaPx = img) /\
  (forall pct, (pct =? 0)%float = true -> applySaturation img pct = img) /\
  (forall adj, (brightness adj =? 0)%float = true ->
      (contrast adj =? 0)%float = true -> bc_step adj img = img).
Proof.
  repeat split.
  - intros sigma s H. unfold applyGaussianNoise. rewrite H. reflexivity.
  - intros sigmaPx H. unfold applyGaussianBlur. rewrite H. reflexivity.
  - intros pct H. unfold applySaturation. rewrite H. reflexivity.
  - intros adj Hb Hc. unfold bc_step. rewrite Hb, Hc. reflexivity.
Qed.

(** C9: with every stage off, [applyPipeline] returns the very buffer it
    was given, and draws nothing from the random source. *)
Theorem pipeline_all_off_is_identity (input : ImageData) (adj : Adjustments)
  (s : RS) :
  all_off adj -> applyPipeline' input adj s = Some (input, s).
Proof.
  intros (Hawb & Hnoise & Hb & Hc & Hsat & Hblur).
  unfold applyPipeline, bind, ret, bc_step.
  rewrite Hawb, Hb, Hc, Hsat. simpl.
  assert (Hn : (if (0 <? noiseSigma adj)%float
                then applyGaussianNoise' input (noiseSigma adj)
                else fun s0 => Some (input, s0)) s = Some (input, s)).
  { destruct (0 <? noiseSigma adj)%float; [|reflexivity].
    unfold applyGaussianNoise. rewrite Hnoise. reflexivity. }
  rewrite Hn.
  destruct (0 <? blurPx adj)%float; [|reflexivity].
  unfold applyGaussianBlur. rewrite Hblur. reflexivity.
Qed.

End PipelineFacts.

(** *** The theorems above at concrete inputs *)

Lemma sample_image_wf : wf_image sample_image.
Proof.
  unfold wf_image, byte; simpl. repeat split; try lia.
  repeat constructor; lia.
Qed.

Lemma half_source_fair : fair half_source 1.
Proof. intros s. simpl. discriminate. Qed.

Lemma pipeline_keeps_dimensions_witness :
  wf_image sample_image /\ fair half_source 1 /\
  exists out s',
    applyPipeline half_source Math_id Math_id Math_id 1 sample_image
      (mkAdjustments true 5 2 50 10 (-30)) 0%nat = Some (out, s')
    /\ same_dims out sample_image.
Proof.
  split; [exact sample_image_wf | split; [exact half_source_fair|]].
  exact (proj2 (proj2 (proj2 (proj2 (proj2
    (pipeline_keeps_dimensions half_source Math_id Math_id Math_id 1
       half_source_fair sample_image sample_image_wf)))))
    (mkAdjustments true 5 2 50 10 (-30)) 0%nat).
Defined.

Lemma stages_keep_alpha_witness :
  wf_image sample_image /\ fair half_source 1 /\
  exists out s',
    applyGaussianNoise half_source Math_id Math_id 1 sample_image 5 0%nat
    = Some (out, s')
    /\ same_alpha (data out) (data sample_image).
Proof.
  split; [exact sample_image_wf | split; [exact half_source_fair|]].
  exact (proj1 (proj2
    (stages_keep_alpha half_source Math_id Math_id 1 half_source_fair
       sample_image sample_image_wf)) 5%float 0%nat).
Defined.

Lemma disabled_stage_is_identity_witness :
  ((0 <=? 0)%float = true /\
   applyGaussianNoise half_source Math_id Math_id 1 sample_image 0 0%nat
   = Some (sample_image, 0%nat)) /\
  ((0.1 <=? 0.1)%float = true /\
   applyGaussianBlur Math_id sample_image 0.1 = sample_image) /\
  ((0 =? 0)%float = true /\ applySaturation sample_image 0 = sample_image) /\
  ((0 =? 0)%float = true /\
   bc_step (mkAdjustments true 5 2 0 0 (-30)) sample_image = sample_image).
Proof.
  pose proof (disabled_stage_is_identity half_source Math_id Math_id Math_id 1
                sample_image) as (Hnoise & Hblur & Hsat & Hbc).
  split; [split; [reflexivity | exact (Hnoise 0%float 0%nat eq_refl)]|].
  split; [split; [reflexivity | exact (Hblur 0.1%float eq_refl)]|].
  split; [split; [reflexivity | exact (Hsat 0%float eq_refl)]|].
  split; [reflexivity|].
  exact (Hbc (mkAdjustments true 5 2 0 0 (-30)) eq_refl eq_refl).
Defined.

Lemma pipeline_all_off_is_identity_witness :
  all_off (mkAdjustments false 0 0.05 0 0 0) /\
  applyPipeline half_source Math_id Math_id Math_id 1 sample_image
    (mkAdjustments false 0 0.05 0 0 0) 0%nat = Some (sample_image, 0%nat).
Proof.
  assert (Hoff : all_off (mkAdjustments false 0 0.05 0 0 0)).
  { unfold all_off; simpl. repeat split; reflexivity. }
  split; [exact Hoff|].
  exact (pipeline_all_off_is_identity half_source Math_id Math_id Math_id 1
           sample_image _ 0%nat Hoff).
Defined.

(** ** Auto white balance on a single-colour image *)

Lemma only_bin_zeros v : only_bin v zeros256.
Proof.
  intros u _ _. unfold bin, zeros256.
  destruct (replicate 256 0 !! Z.to_nat u) as [c|] eqn:Hc; [|reflexivity].
  apply lookup_replicate in Hc as [-> _]. reflexivity.
Qed.

Lemma only_bin_bump v hist : 0 <= v -> only_bin v hist -> only_bin v (bump v hist).
Proof.
  intros Hv H u Hu Hne. unfold bin, bump.
  rewrite list_lookup_alter_ne by lia. apply H; assumption.
Qed.

Lemma histograms_uniform n r g b a :
  0 <= r -> 0 <= g -> 0 <= b ->
  forall hr hg hb,
    only_bin r hr -> only_bin g hg -> only_bin b hb ->
    only_bin r (histograms (uniform n r g b a) hr hg hb).1.1 /\
    only_bin g (histograms (uniform n r g b a) hr hg hb).1.2 /\
    only_bin b (histograms (uniform n r g b a) hr hg hb).2.
Proof.
  intros Hr Hg Hb. induction n as [|n IH]; intros hr hg hb Hhr Hhg Hhb.
  - simpl. auto.
  - simpl. apply IH; apply only_bin_bump; assumption.
Qed.

Section Scan.

Variables (hist : list Z) (clipN : float) (v : Z).
Hypothesis Hv : 0 <= v.
Hypothesis Hhist : only_bin v hist.

Local Abbreviation apart := (apart v).

(** Once the sum does not exceed [clipN], empty bins do not change that. *)
Lemma scan_empty_bins vs acc dflt :
  apart vs -> (clipN <? Num acc)%float = false ->
  scan hist clipN vs acc dflt = dflt.
Proof.
  intros Hvs Hacc. induction Hvs as [|u vs [Hu Hne] _ IH]; [reflexivity|].
  cbn [scan]. rewrite (Hhist u Hu Hne), Z.add_0_r, Hacc. exact IH.
Qed.

(** When 0 already exceeds [clipN], the scan stops at its first bin, which
    is also its default. *)
Lemma scan_stops_at_first v0 vs :
  0 <= v0 -> apart vs -> (clipN <? Num 0)%float = true ->
  scan hist clipN (v0 :: vs) 0 v0 = v0.
Proof.
  intros Hv0 Hvs Hzero. cbn [scan]. rewrite Z.add_0_l.
  destruct (clipN <? Num (bin hist v0))%float eqn:Hc; [reflexivity|].
  apply scan_empty_bins; assumption.
Qed.

(** Otherwise the scan passes the empty bins and stops at [v], if at all. *)
Lemma scan_finds_bin vs1 vs2 dflt :
  apart vs1 -> apart vs2 -> (clipN <? Num 0)%float = false ->
  scan hist clipN (vs1 ++ v :: vs2) 0 dflt
  = if (clipN <? Num (bin hist v))%float then v else dflt.
Proof.
  intros Hvs1 Hvs2 Hzero. induction Hvs1 as [|u vs [Hu Hne] _ IH].
  - cbn [app scan]. rewrite Z.add_0_l.
    destruct (clipN <? Num (bin hist v))%float eqn:Hc; [reflexivity|].
    apply scan_empty_bins; assumption.
  - cbn [app scan]. rewrite (Hhist u Hu Hne), Z.add_0_l, Hzero. exact IH.
Qed.

Lemma apart_below : apart (seqZ 0 v).
Proof.
  apply Forall_forall. intros u Hu. apply elem_of_seqZ in Hu. lia.
Qed.

Lemma apart_above n : apart (seqZ (v + 1) n).
Proof.
  apply Forall_forall. intros u Hu. apply elem_of_seqZ in Hu. lia.
Qed.

Lemma apart_reverse vs : apart vs -> apart (reverse vs).
Proof.
  unfold apart. rewrite !Forall_forall. intros H u Hu.
  apply H, elem_of_reverse, Hu.
Qed.

Hypothesis Hv255 : v <= 255.

Lemma bins_up_split : bins_up = seqZ 0 v ++ v :: seqZ (v + 1) (255 - v).
Proof.
  unfold bins_up.
  replace 256 with (v + (256 - v)) at 1 by lia.
  rewrite seqZ_app by lia.
  rewrite (seqZ_cons (0 + v)) by lia.
  repeat f_equal; lia.
Qed.

Lemma bins_down_split :
  bins_down = reverse (seqZ (v + 1) (255 - v)) ++ v :: reverse (seqZ 0 v).
Proof.
  unfold bins_down. fold bins_up. rewrite bins_up_split.
  rewrite reverse_app, reverse_cons, <- app_assoc. reflexivity.
Qed.

(** A histogram with a single occupied bin has the bounds (0, 255): either
    both scans stop at the first bin they look at, or both find [v] and the
    guard [hi <= lo] resets them, or neither finds anything. *)
Lemma lowHigh_only_bin : lowHigh clipN hist = (0, 255).
Proof.
  unfold lowHigh.
  destruct (clipN <? Num 0)%float eqn:Hzero.
  - assert (Hlo : scan hist clipN bins_up 0 0 = 0).
    { change bins_up with (0 :: seqZ 1 255).
      destruct (Z.eq_dec v 0) as [Heq|Hne].
      - apply scan_stops_at_first; [lia | | exact Hzero].
        apply Forall_forall. intros u Hu. apply elem_of_seqZ in Hu. lia.
      - cbn [scan]. rewrite (Hhist 0), Z.add_0_l, Hzero by lia. reflexivity. }
    assert (Hhi : scan hist clipN bins_down 0 255 = 255).
    { change bins_down with (255 :: reverse (seqZ 0 255)).
      destruct (Z.eq_dec v 255) as [Heq|Hne].
      - apply scan_stops_at_first; [lia | | exact Hzero].
        apply Forall_forall. intros u Hu.
        apply elem_of_reverse, elem_of_seqZ in Hu. lia.
      - cbn [scan]. rewrite (Hhist 255), Z.add_0_l, Hzero by lia. reflexivity. }
    rewrite Hlo, Hhi. reflexivity.
  - rewrite bins_up_split, bins_down_split.
    rewrite !scan_finds_bin
      by (try apply apart_reverse;
          first [apply apart_below | apply apart_above | exact Hzero]).
    destruct (clipN <? Num (bin hist v))%float.
    + rewrite Z.leb_refl. reflexivity.
    + reflexivity.
Qed.

End Scan.

Lemma makeLut_full_range : makeLut 0 255 = seqZ 0 256.
Proof. vm_compute. reflexivity. Qed.

Lemma bin_identity_lut v : byte v -> bin (seqZ 0 256) v = v.
Proof.
  intros [Hlo Hhi]. unfold bin.
  rewrite lookup_seqZ_lt by lia. simpl. lia.
Qed.

Lemma awb_loop_identity_uniform n r g b a :
  byte r -> byte g -> byte b ->
  awb_loop (seqZ 0 256) (seqZ 0 256) (seqZ 0 256) (uniform n r g b a)
  = uniform n r g b a.
Proof.
  intros Hr Hg Hb. induction n as [|n IH]; [reflexivity|].
  cbn [uniform awb_loop]. rewrite IH, !bin_identity_lut by assumption.
  reflexivity.
Qed.

Lemma uniform_bytes n r g b a :
  Forall byte (uniform (S n) r g b a) -> byte r /\ byte g /\ byte b.
Proof.
  cbn [uniform]. intros H.
  inversion_clear H as [|? ? Hr H1]. inversion_clear H1 as [|? ? Hg H2].
  inversion_clear H2 as [|? ? Hb _]. auto.
Qed.

(** C5: auto white balance returns a single-colour image as it is, whatever
    its dimensions and whatever the clip fraction. *)
Theorem awb_single_colour_is_identity (img : ImageData) (clipPct : float)
  (n : nat) (r g b a : Z) :
  wf_image img ->
  data img = uniform n r g b a ->
  applyAutoWhiteBalance img clipPct = img.
Proof.
  intros (_ & _ & Hlen & Hbytes) Hdata. unfold applyAutoWhiteBalance.
  destruct (width img * height img =? 0) eqn:Hn; [reflexivity|].
  destruct img as [buf w h]. cbn [data width height] in *. subst buf.
  destruct n as [|n]; [apply Z.eqb_neq in Hn; simpl in Hlen; lia|].
  destruct (uniform_bytes n r g b a Hbytes) as (Hr & Hg & Hb).
  pose proof (histograms_uniform (S n) r g b a (proj1 Hr) (proj1 Hg) (proj1 Hb)
                zeros256 zeros256 zeros256
                (only_bin_zeros r) (only_bin_zeros g) (only_bin_zeros b))
    as (Hhr & Hhg & Hhb).
  destruct (histograms _ _ _ _) as [[hr hg] hb]. cbn [fst snd] in *.
  rewrite (lowHigh_only_bin hr _ r (proj1 Hr) Hhr (proj2 Hr)).
  rewrite (lowHigh_only_bin hg _ g (proj1 Hg) Hhg (proj2 Hg)).
  rewrite (lowHigh_only_bin hb _ b (proj1 Hb) Hhb (proj2 Hb)).
  rewrite makeLut_full_range, awb_loop_identity_uniform by assumption.
  reflexivity.
Qed.

Lemma awb_single_colour_is_identity_witness :
  wf_image green_image /\
  data green_image = uniform 6 10 200 10 255 /\
  applyAutoWhiteBalance green_image default_clipPct = green_image.
Proof.
  assert (Hwf : wf_image green_image).
  { unfold wf_image, byte; simpl. repeat split; try lia.
    repeat constructor; lia. }
  split; [exact Hwf | split; [reflexivity|]].
  exact (awb_single_colour_is_identity green_image default_clipPct
           6 10 200 10 255 Hwf eq_refl).
Defined.

(** ** Saturation at -100 *)

Lemma saturation_factor_minus_100 : saturation_factor (-100) = 0%float.
Proof. reflexivity. Qed.

(** [Math.max] and [Math.min] return one of their arguments. *)
Lemma Math_max_cases x y : Math_max x y = x \/ Math_max x y = y.
Proof.
  unfold Math_max.
  destruct (is_nan x), (is_nan y), (x <? y)%float, (y <? x)%float, (get_sign x);
    auto.
Qed.

Lemma Math_min_cases x y : Math_min x y = x \/ Math_min x y = y.
Proof.
  unfold Math_min.
  destruct (is_nan x), (is_nan y), (x <? y)%float, (y <? x)%float, (get_sign x);
    auto.
Qed.

Lemma unit_table_spec : unit_table = map unit_of (seqZ 0 256).
Proof. vm_compute. reflexivity. Qed.

Lemma unit_of_in_table x : byte x -> In (unit_of x) unit_table.
Proof.
  intros [Hlo Hhi]. rewrite unit_table_spec. apply in_map.
  apply list_elem_of_In, elem_of_seqZ. lia.
Qed.

(** A property of two colour components is checked on the table. *)
Lemma forall_unit_pairs (P : float -> float -> bool) :
  forallb (fun x => forallb (P x) unit_table) unit_table = true ->
  forall x y, byte x -> byte y -> P (unit_of x) (unit_of y) = true.
Proof.
  intros H x y Hx Hy. rewrite forallb_forall in H.
  specialize (H _ (unit_of_in_table x Hx)). rewrite forallb_forall in H.
  exact (H _ (unit_of_in_table y Hy)).
Qed.

Lemma grey_of_bytes M m :
  byte M -> byte m -> grey_ok (unit_of M) (unit_of m) = true.
Proof. apply forall_unit_pairs. vm_compute. reflexivity. Qed.

Lemma store_rounds x : stored_exactly x = true -> ToUint8Clamp x = round_nearest x.
Proof.
  unfold stored_exactly, ToUint8Clamp, round_nearest.
  destruct (Prim2SF x) as [s|s| |s m e]; try discriminate; [reflexivity|].
  destruct s; [discriminate|]. intros H. apply Z.leb_le in H.
  simpl. lia.
Qed.

Lemma clamp255_inside x :
  (x <? 0)%float = false -> (255 <? x)%float = false -> clamp255 x = x.
Proof. intros H0 H255. unfold clamp255, clamp. rewrite H0, H255. reflexivity. Qed.

(** The saturation and lightness of [rgbToHsl] depend on the components
    through their maximum and minimum only. *)
Lemma rgbToHsl_sl r g b :
  let mx := Math_max (Math_max (r / 255) (g / 255)) (b / 255)%float in
  let mn := Math_min (Math_min (r / 255) (g / 255)) (b / 255)%float in
  (rgbToHsl r g b).1.2 = hsl_s mx mn /\ (rgbToHsl r g b).2 = hsl_l mx mn.
Proof.
  unfold rgbToHsl, hsl_s, hsl_l. cbv zeta.
  destruct (negb _); split; reflexivity.
Qed.

(** The largest and the smallest component of a pixel are components. *)
Lemma extremes_of_pixel r g b :
  byte r -> byte g -> byte b ->
  exists M m, byte M /\ byte m /\
    Math_max (Math_max (unit_of r) (unit_of g)) (unit_of b) = unit_of M /\
    Math_min (Math_min (unit_of r) (unit_of g)) (unit_of b) = unit_of m.
Proof.
  intros Hr Hg Hb.
  assert (HM : exists M, byte M /\
            Math_max (Math_max (unit_of r) (unit_of g)) (unit_of b) = unit_of M).
  { destruct (Math_max_cases (Math_max (unit_of r) (unit_of g)) (unit_of b))
      as [-> | ->]; [|eauto].
    destruct (Math_max_cases (unit_of r) (unit_of g)) as [-> | ->]; eauto. }
  assert (Hm : exists m, byte m /\
            Math_min (Math_min (unit_of r) (unit_of g)) (unit_of b) = unit_of m).
  { destruct (Math_min_cases (Math_min (unit_of r) (unit_of g)) (unit_of b))
      as [-> | ->]; [|eauto].
    destruct (Math_min_cases (unit_of r) (unit_of g)) as [-> | ->]; eauto. }
  destruct HM as (M & HM & ->), Hm as (m & Hm & ->). eauto 6.
Qed.

Lemma sat_pixel_grey r g b :
  byte r -> byte g -> byte b ->
  let v := round_nearest (lightness r g b * 255)%float in
  sat_pixel (saturation_factor (-100)) r g b = (v, v, v).
Proof.
  intros Hr Hg Hb. unfold sat_pixel, lightness.
  destruct (rgbToHsl_sl (Num r) (Num g) (Num b)) as [Hs Hl].
  fold (unit_of r) (unit_of g) (unit_of b) in Hs, Hl.
  destruct (extremes_of_pixel r g b Hr Hg Hb) as (M & m & HM & Hm & Hmax & Hmin).
  rewrite Hmax, Hmin in Hs, Hl.
  pose proof (grey_of_bytes M m HM Hm) as Hgrey.
  unfold grey_ok in Hgrey. cbv zeta in Hgrey.
  apply andb_true_iff in Hgrey as [Hgrey Hstored].
  apply andb_true_iff in Hgrey as [Hgrey H255].
  apply andb_true_iff in Hgrey as [Hzero H0].
  apply negb_true_iff in H0, H255.
  destruct (rgbToHsl (Num r) (Num g) (Num b)) as [[h s] l].
  cbn [fst snd] in *. subst s l.
  unfold hslToRgb. rewrite Hzero. cbv zeta.
  rewrite (clamp255_inside _ H0 H255), (store_rounds _ Hstored). reflexivity.
Qed.

Lemma sat_loop_grey src :
  Forall byte src -> sat_loop (saturation_factor (-100)) src = desaturated src.
Proof.
  induction src as [l Hl | r g b a rest IH] using pixel_ind; intros Hsrc.
  - destruct l as [|? [|? [|? [|? ?]]]]; simpl in Hl; try lia; reflexivity.
  - inversion_clear Hsrc as [|? ? Hr H1]. inversion_clear H1 as [|? ? Hg H2].
    inversion_clear H2 as [|? ? Hb H3]. inversion_clear H3 as [|? ? _ H4].
    cbn [sat_loop desaturated].
    rewrite (sat_pixel_grey r g b Hr Hg Hb), (IH H4). reflexivity.
Qed.

(** C8: at [saturationPct = -100] every pixel becomes the grey of its HSL
    lightness, [r = g = b = round (l * 255)], with its alpha kept; the 1x1
    image (10, 200, 10, 255) becomes (105, 105, 105, 255). *)
Theorem full_desaturation_is_grey (img : ImageData) :
  Forall byte (data img) ->
  applySaturation img (-100)
  = mkImageData (desaturated (data img)) (width img) (height img)
  /\ applySaturation (mkImageData [10; 200; 10; 255] 1 1) (-100)
     = mkImageData [105; 105; 105; 255] 1 1.
Proof.
  intros Hbytes. split; [|vm_compute; reflexivity].
  unfold applySaturation.
  change (-100 =? 0)%float with false. cbv iota.
  rewrite (sat_loop_grey (data img) Hbytes). reflexivity.
Qed.

Lemma full_desaturation_is_grey_witness :
  Forall byte (data sample_image) /\
  applySaturation sample_image (-100)
  = mkImageData [105; 105; 105; 255; 100; 100; 100; 255;
                 30; 30; 30; 255; 128; 128; 128; 7] 2 2.
Proof.
  split; [exact (proj2 (proj2 (proj2 sample_image_wf)))|].
  exact (proj1 (full_desaturation_is_grey sample_image
                  (proj2 (proj2 (proj2 sample_image_wf))))).
Defined.

(** * Further properties of the code *)

(** ** The order of numbers

    [<], [<=] and [===] on numbers are the IEEE comparisons; what follows
    relates them to each other through their specification on
    [spec_float]. *)

Lemma SFcompare_antisym x y :
  SFcompare y x = option_map CompOpp (SFcompare x y).
Proof.
  destruct x as [sx|sx| |sx mx ex], y as [sy|sy| |sy my ey]; simpl;
    try reflexivity; try (destruct sx; reflexivity);
    try (destruct sy; reflexivity); try (destruct sx, sy; reflexivity).
  destruct sx, sy; simpl; try reflexivity;
    rewrite (Z.compare_antisym ex ey); destruct (ex ?= ey); simpl;
    try reflexivity;
    first [ rewrite (Pos.compare_cont_antisym mx my Eq); reflexivity
          | rewrite <- (Pos.compare_cont_antisym mx my Eq);
            destruct (Pos.compare_cont Eq mx my); reflexivity ].
Qed.

Lemma SFcompare_refl x : x <> S754_nan -> SFcompare x x = Some Eq.
Proof.
  destruct x as [s|s| |s m e]; simpl; intros H;
    try reflexivity; try congruence.
  - destruct s; reflexivity.
  - rewrite Z.compare_refl.
    pose proof (Pos.compare_cont_refl m Eq) as Hm.
    destruct s; rewrite Hm; reflexivity.
Qed.

Lemma SFcompare_nan_l y : SFcompare S754_nan y = None.
Proof. destruct y; reflexivity. Qed.

Lemma SFcompare_nan_r x : SFcompare x S754_nan = None.
Proof. destruct x; reflexivity. Qed.

Lemma SFcompare_some x y :
  x <> S754_nan -> y <> S754_nan -> exists c, SFcompare x y = Some c.
Proof.
  destruct x, y; simpl; intros Hx Hy; try congruence; eauto.
Qed.

Lemma is_nan_false x : is_nan x = false <-> Prim2SF x <> S754_nan.
Proof.
  unfold is_nan. rewrite FloatAxioms.eqb_spec. unfold SFeqb. split.
  - intros H Hn. rewrite Hn in H. discriminate H.
  - intros H. rewrite (SFcompare_refl _ H). reflexivity.
Qed.

Lemma is_nan_true x : is_nan x = true -> x = nan.
Proof.
  intros H. apply Prim2SF_inj. change (Prim2SF nan) with S754_nan.
  destruct (Prim2SF x) eqn:Hx; try reflexivity;
    assert (Hne : Prim2SF x <> S754_nan) by (rewrite Hx; discriminate);
    apply is_nan_false in Hne; congruence.
Qed.

Lemma leb_not_nan x y :
  (x <=? y)%float = true -> is_nan x = false /\ is_nan y = false.
Proof.
  rewrite leb_spec. unfold SFleb. intros H.
  split; apply is_nan_false; intros Hn; rewrite Hn in H.
  - rewrite SFcompare_nan_l in H. discriminate H.
  - rewrite SFcompare_nan_r in H. discriminate H.
Qed.

Lemma leb_refl x : is_nan x = false -> (x <=? x)%float = true.
Proof.
  intros H. apply is_nan_false in H.
  rewrite leb_spec. unfold SFleb. rewrite (SFcompare_refl _ H). reflexivity.
Qed.

Lemma ltb_irrefl x : (x <? x)%float = false.
Proof.
  rewrite ltb_spec. unfold SFltb.
  destruct (Prim2SF x) eqn:Hx; try reflexivity;
    rewrite SFcompare_refl by discriminate; reflexivity.
Qed.

(** Not [x < y], for two numbers that are not NaN, is [y <= x]. *)
Lemma ltb_false_leb x y :
  is_nan x = false -> is_nan y = false ->
  (x <? y)%float = false -> (y <=? x)%float = true.
Proof.
  intros Hx Hy. apply is_nan_false in Hx, Hy.
  rewrite ltb_spec, leb_spec. unfold SFltb, SFleb.
  rewrite (SFcompare_antisym (Prim2SF x) (Prim2SF y)).
  destruct (SFcompare_some _ _ Hx Hy) as [c ->].
  destruct c; simpl; intros H; try reflexivity; discriminate H.
Qed.

Lemma leb_ltb_false x y : (x <=? y)%float = true -> (y <? x)%float = false.
Proof.
  rewrite ltb_spec, leb_spec. unfold SFltb, SFleb.
  rewrite (SFcompare_antisym (Prim2SF x) (Prim2SF y)).
  destruct (SFcompare (Prim2SF x) (Prim2SF y)) as [[| |]|]; simpl;
    intros H; try reflexivity; discriminate H.
Qed.

Lemma ltb_leb x y : (x <? y)%float = true -> (x <=? y)%float = true.
Proof.
  rewrite ltb_spec, leb_spec. unfold SFltb, SFleb.
  destruct (SFcompare (Prim2SF x) (Prim2SF y)) as [[| |]|];
    intros H; try reflexivity; discriminate H.
Qed.

(** ** [clamp] *)

(** Between bounds [min <= max], [clamp] returns a number in [[min, max]]
    for every number that is not NaN, and returns a number that already is
    in the range as it is. *)
Theorem clamp_within (v mn mx : float) :
  (mn <=? mx)%float = true -> is_nan v = false ->
  ((mn <=? clamp v mn mx)%float = true /\ (clamp v mn mx <=? mx)%float = true)
  /\ ((mn <=? v)%float = true -> (v <=? mx)%float = true -> clamp v mn mx = v).
Proof.
  intros Hb Hv. destruct (leb_not_nan _ _ Hb) as [Hmn Hmx].
  unfold clamp. split.
  - destruct (v <? mn)%float eqn:H1; [auto using leb_refl|].
    destruct (mx <? v)%float eqn:H2; [auto using leb_refl|].
    auto using ltb_false_leb.
  - intros Hlo Hhi.
    rewrite (leb_ltb_false _ _ Hlo), (leb_ltb_false _ _ Hhi). reflexivity.
Qed.

Lemma clamp_within_witness :
  (0 <=? 255)%float = true /\ is_nan 300 = false /\
  (0 <=? clamp 300 0 255)%float = true /\ (clamp 300 0 255 <=? 255)%float = true.
Proof.
  split; [reflexivity | split; [reflexivity|]].
  exact (proj1 (clamp_within 300 0 255 eq_refl eq_refl)).
Defined.

(** Clamping twice is clamping once, also for NaN, which [clamp] hands
    on. *)
Theorem clamp_idempotent (v mn mx : float) :
  (mn <=? mx)%float = true ->
  clamp (clamp v mn mx) mn mx = clamp v mn mx.
Proof.
  intros Hb. unfold clamp.
  destruct (v <? mn)%float eqn:H1.
  - rewrite ltb_irrefl, (leb_ltb_false _ _ Hb). reflexivity.
  - destruct (mx <? v)%float eqn:H2.
    + rewrite (leb_ltb_false _ _ Hb), ltb_irrefl. reflexivity.
    + rewrite H1, H2. reflexivity.
Qed.

Lemma clamp_idempotent_witness :
  (0 <=? 255)%float = true /\
  clamp (clamp (-7) 0 255) 0 255 = clamp (-7) 0 255.
Proof.
  split; [reflexivity|]. exact (clamp_idempotent (-7) 0 255 eq_refl).
Defined.

(** ** Auto white balance: histograms, bounds and tables *)

Lemma bin_bump r hist v :
  byte r -> length hist = 256%nat -> 0 <= v ->
  bin (bump r hist) v
  = if v =? r then (bin hist r + 1) mod 2 ^ 32 else bin hist v.
Proof.
  intros [Hr0 Hr1] Hlen Hv. unfold bin, bump.
  destruct (v =? r) eqn:Hvr.
  - apply Z.eqb_eq in Hvr. subst v. rewrite list_lookup_alter_eq.
    destruct (lookup_lt_is_Some_2 hist (Z.to_nat r)) as [c ->]; [lia|].
    reflexivity.
  - apply Z.eqb_neq in Hvr. rewrite list_lookup_alter_ne by lia. reflexivity.
Qed.

Lemma bump_length r hist : length (bump r hist) = length hist.
Proof. unfold bump. apply length_alter. Qed.

Lemma counters_zeros : counters zeros256.
Proof.
  split; [reflexivity|]. intros v. unfold bin, zeros256.
  destruct (replicate 256 0 !! Z.to_nat v) as [c|] eqn:Hc; simpl; [|lia].
  apply lookup_replicate in Hc as [-> _]. lia.
Qed.

Lemma counters_bump r hist : counters hist -> counters (bump r hist).
Proof.
  intros [Hlen Hbin]. split; [rewrite bump_length; exact Hlen|].
  intros v. unfold bin, bump.
  destruct (decide (Z.to_nat r = Z.to_nat v)) as [Heq|Hne].
  - rewrite Heq, list_lookup_alter_eq.
    destruct (hist !! Z.to_nat v) as [c|]; simpl; [|lia].
    apply Z.mod_pos_bound. lia.
  - rewrite list_lookup_alter_ne by exact Hne. apply Hbin.
Qed.

Lemma bin_zeros v : bin zeros256 v = 0.
Proof.
  unfold bin, zeros256.
  destruct (replicate 256 0 !! Z.to_nat v) as [c|] eqn:Hc; [|reflexivity].
  apply lookup_replicate in Hc as [-> _]. reflexivity.
Qed.

(** The invariant of the histogram loop, for one channel. *)
Lemma histograms_count_from buf :
  Forall byte buf ->
  forall hr hg hb v,
    counters hr -> counters hg -> counters hb -> byte v ->
    bin (histograms buf hr hg hb).1.1 v
    = (bin hr v + count_px red v buf) mod 2 ^ 32
    /\ bin (histograms buf hr hg hb).1.2 v
       = (bin hg v + count_px green v buf) mod 2 ^ 32
    /\ bin (histograms buf hr hg hb).2 v
       = (bin hb v + count_px blue v buf) mod 2 ^ 32.
Proof.
  induction buf as [l Hl | r g b a rest IH] using pixel_ind;
    intros Hbytes hr hg hb v Hhr Hhg Hhb Hv.
  - assert (Hh : histograms l hr hg hb = (hr, hg, hb)).
    { destruct l as [|? [|? [|? [|? ?]]]]; simpl in Hl; try lia; reflexivity. }
    assert (Hc : forall sel, count_px sel v l = 0).
    { intros sel.
      destruct l as [|? [|? [|? [|? ?]]]]; simpl in Hl; try lia; reflexivity. }
    rewrite Hh, !Hc, !Z.add_0_r. cbn [fst snd].
    rewrite !Z.mod_small by (apply Hhr || apply Hhg || apply Hhb).
    auto.
  - inversion_clear Hbytes as [|? ? Hr H1]. inversion_clear H1 as [|? ? Hg H2].
    inversion_clear H2 as [|? ? Hb H3]. inversion_clear H3 as [|? ? _ H4].
    cbn [histograms count_px].
    destruct (IH H4 (bump r hr) (bump g hg) (bump b hb) v
                (counters_bump r _ Hhr) (counters_bump g _ Hhg)
                (counters_bump b _ Hhb) Hv) as (-> & -> & ->).
    rewrite !bin_bump by (first [assumption | apply Hhr | apply Hhg
                                | apply Hhb | apply Hv]).
    unfold red, green, blue.
    rewrite (Z.eqb_sym r v), (Z.eqb_sym g v), (Z.eqb_sym b v).
    repeat split.
    + destruct (v =? r) eqn:E; [apply Z.eqb_eq in E; subst r|].
      * rewrite Zplus_mod_idemp_l. f_equal. lia.
      * f_equal.
    + destruct (v =? g) eqn:E; [apply Z.eqb_eq in E; subst g|].
      * rewrite Zplus_mod_idemp_l. f_equal. lia.
      * f_equal.
    + destruct (v =? b) eqn:E; [apply Z.eqb_eq in E; subst b|].
      * rewrite Zplus_mod_idemp_l. f_equal. lia.
      * f_equal.
Qed.

(** The histograms [applyAutoWhiteBalance] builds count, for each channel
    and each value, the pixels that have it (modulo 2^32, the wrap-around
    of a [Uint32Array]); alpha is not counted. *)
Theorem histograms_count (buf : list Z) (v : Z) :
  Forall byte buf -> byte v ->
  bin (histograms buf zeros256 zeros256 zeros256).1.1 v
  = count_px red v buf mod 2 ^ 32
  /\ bin (histograms buf zeros256 zeros256 zeros256).1.2 v
     = count_px green v buf mod 2 ^ 32
  /\ bin (histograms buf zeros256 zeros256 zeros256).2 v
     = count_px blue v buf mod 2 ^ 32.
Proof.
  intros Hbuf Hv.
  pose proof (histograms_count_from buf Hbuf zeros256 zeros256 zeros256 v
                counters_zeros counters_zeros counters_zeros Hv) as H.
  rewrite bin_zeros in H. exact H.
Qed.

Lemma histograms_count_witness :
  Forall byte (data sample_image) /\ byte 100 /\
  bin (histograms (data sample_image) zeros256 zeros256 zeros256).1.1 100
  = count_px red 100 (data sample_image) mod 2 ^ 32.
Proof.
  assert (H100 : byte 100) by (unfold byte; lia).
  split; [exact (proj2 (proj2 (proj2 sample_image_wf)))|].
  split; [exact H100|].
  exact (proj1 (histograms_count (data sample_image) 100
                  (proj2 (proj2 (proj2 sample_image_wf))) H100)).
Defined.

Lemma scan_between hist clipN vs acc dflt lo hi :
  Forall (fun u => lo <= u <= hi) vs -> lo <= dflt <= hi ->
  lo <= scan hist clipN vs acc dflt <= hi.
Proof.
  intros Hvs Hd. revert acc.
  induction Hvs as [|u vs Hu _ IH]; intros acc; cbn [scan]; [exact Hd|].
  destruct (clipN <? Num (acc + bin hist u))%float; [exact Hu | apply IH].
Qed.

Lemma bins_up_bytes : Forall (fun u => 0 <= u <= 255) bins_up.
Proof.
  apply Forall_forall. intros u Hu. apply elem_of_seqZ in Hu. lia.
Qed.

Lemma bins_down_bytes : Forall (fun u => 0 <= u <= 255) bins_down.
Proof.
  apply Forall_forall. intros u Hu.
  apply elem_of_reverse, elem_of_seqZ in Hu. lia.
Qed.

(** The bounds of [lowHigh] are two bytes with [lo < hi], for every
    histogram and every [clipN], NaN included. *)
Theorem lowHigh_bytes (clipN : float) (hist : list Z) :
  0 <= (lowHigh clipN hist).1
  /\ (lowHigh clipN hist).1 < (lowHigh clipN hist).2
  /\ (lowHigh clipN hist).2 <= 255.
Proof.
  unfold lowHigh.
  pose proof (scan_between hist clipN bins_up 0 0 0 255 bins_up_bytes
                ltac:(lia)) as Hlo.
  pose proof (scan_between hist clipN bins_down 0 255 0 255 bins_down_bytes
                ltac:(lia)) as Hhi.
  revert Hlo Hhi.
  generalize (scan hist clipN bins_up 0 0) as lo.
  generalize (scan hist clipN bins_down 0 255) as hi.
  intros hi lo Hlo Hhi.
  destruct (hi <=? lo) eqn:Hcmp; cbn [fst snd]; [lia|].
  apply Z.leb_gt in Hcmp. lia.
Qed.

(** *** The table of [makeLut] *)

Lemma byte_numbers_spec :
  byte_numbers = map (fun z => (z, Num z)) (seqZ 0 256).
Proof. vm_compute. reflexivity. Qed.

Lemma byte_number_in_table z : byte z -> In (z, Num z) byte_numbers.
Proof.
  intros [Hlo Hhi]. rewrite byte_numbers_spec.
  apply (in_map (fun z => (z, Num z))).
  apply list_elem_of_In, elem_of_seqZ. lia.
Qed.

Lemma forall_number_pairs (P : Z * float -> Z * float -> bool) :
  forallb (fun x => forallb (P x) byte_numbers) byte_numbers = true ->
  forall x y, byte x -> byte y -> P (x, Num x) (y, Num y) = true.
Proof.
  intros H x y Hx Hy. rewrite forallb_forall in H.
  specialize (H _ (byte_number_in_table x Hx)). rewrite forallb_forall in H.
  exact (H _ (byte_number_in_table y Hy)).
Qed.

Lemma Num_opp_byte k : byte k -> 1 <= k -> Num (- k) = (- Num k)%float.
Proof.
  intros Hk H1.
  pose proof (forall_bytes
                (fun k => if 1 <=? k
                          then Leibniz.eqb (Num (- k)) (- Num k)%float
                          else true)
                ltac:(vm_compute; reflexivity) k Hk) as H.
  cbv beta in H.
  replace (1 <=? k) with true in H by (symmetry; apply Z.leb_le; lia).
  apply FloatAxioms.Leibniz.eqb_spec, H.
Qed.

Lemma lut_entry_value lo range v :
  lut_entry lo range v = ToUint8Clamp (lut_value (Num (v - lo)) (Num range)).
Proof. reflexivity. Qed.

Lemma lut_below lo range v :
  byte lo -> byte v -> 1 <= range <= 255 -> v < lo ->
  lut_entry lo range v = 0.
Proof.
  intros Hlo Hv Hr Hlt. rewrite lut_entry_value.
  replace (v - lo) with (- (lo - v)) by lia.
  assert (Hk : byte (lo - v)) by (unfold byte in *; lia).
  assert (Hrb : byte range) by (unfold byte; lia).
  rewrite (Num_opp_byte _ Hk) by lia.
  pose proof (forall_number_pairs lut_below_ok ltac:(vm_compute; reflexivity)
                _ _ Hk Hrb) as H.
  unfold lut_below_ok in H. cbn [fst snd] in H.
  replace (1 <=? lo - v) with true in H by (symmetry; apply Z.leb_le; lia).
  replace (1 <=? range) with true in H by (symmetry; apply Z.leb_le; lia).
  cbn [andb] in H. apply FloatAxioms.Leibniz.eqb_spec in H. rewrite H.
  reflexivity.
Qed.

Lemma lut_above lo range v :
  byte lo -> byte v -> 1 <= range <= 255 -> lo + range <= v ->
  lut_entry lo range v = 255.
Proof.
  intros Hlo Hv Hr Hge. rewrite lut_entry_value.
  assert (Hd : byte (v - lo)) by (unfold byte in *; lia).
  assert (Hrb : byte range) by (unfold byte; lia).
  pose proof (forall_number_pairs lut_above_ok ltac:(vm_compute; reflexivity)
                _ _ Hd Hrb) as H.
  unfold lut_above_ok in H. cbn [fst snd] in H.
  replace (1 <=? range) with true in H by (symmetry; apply Z.leb_le; lia).
  replace (range <=? v - lo) with true in H by (symmetry; apply Z.leb_le; lia).
  cbn [andb] in H. apply FloatAxioms.Leibniz.eqb_spec in H. rewrite H.
  reflexivity.
Qed.

Lemma lut_inside lo range v :
  byte lo -> byte v -> 1 <= range <= 255 -> lo <= v <= lo + range ->
  lut_entry lo range v = round_fraction (255 * (v - lo)) range.
Proof.
  intros Hlo Hv Hr Hin. rewrite lut_entry_value.
  assert (Hd : byte (v - lo)) by (unfold byte in *; lia).
  assert (Hrb : byte range) by (unfold byte; lia).
  pose proof (forall_number_pairs lut_inside_ok ltac:(vm_compute; reflexivity)
                _ _ Hd Hrb) as H.
  unfold lut_inside_ok in H. cbn [fst snd] in H.
  replace (1 <=? range) with true in H by (symmetry; apply Z.leb_le; lia).
  replace (v - lo <=? range) with true in H by (symmetry; apply Z.leb_le; lia).
  cbn [andb] in H. apply Z.eqb_eq in H. exact H.
Qed.

Lemma makeLut_bin lo hi v :
  byte v -> bin (makeLut lo hi) v = lut_entry lo (lut_range lo hi) v.
Proof.
  intros [Hv0 Hv1]. unfold bin, makeLut.
  rewrite list_lookup_fmap, lookup_seqZ_lt by lia. simpl. f_equal. lia.
Qed.

(** Between two bounds [lo < hi], the table of [makeLut] is the linear
    stretch of [[lo, hi]] onto [[0, 255]], rounded to the nearest integer
    (ties to even) with no floating-point deviation; below [lo] it is 0 and
    above [hi] it is 255. *)
Theorem makeLut_stretch (lo hi v : Z) :
  byte lo -> byte hi -> lo < hi -> byte v ->
  bin (makeLut lo hi) v
  = if v <? lo then 0
    else if hi <? v then 255
    else round_fraction (255 * (v - lo)) (hi - lo).
Proof.
  intros Hlo Hhi Hlt Hv. rewrite (makeLut_bin lo hi v Hv).
  assert (Hrange : lut_range lo hi = hi - lo).
  { unfold lut_range. destruct (hi - lo =? 0) eqn:E; [|reflexivity].
    apply Z.eqb_eq in E. lia. }
  rewrite Hrange.
  assert (Hr : 1 <= hi - lo <= 255) by (unfold byte in *; lia).
  destruct (v <? lo) eqn:E1; [apply Z.ltb_lt in E1; apply lut_below; assumption|].
  apply Z.ltb_ge in E1.
  destruct (hi <? v) eqn:E2.
  - apply Z.ltb_lt in E2. apply lut_above; try assumption. lia.
  - apply Z.ltb_ge in E2. apply lut_inside; try assumption. lia.
Qed.

Lemma makeLut_stretch_witness :
  byte 10 /\ byte 128 /\ 10 < 128 /\ byte 100 /\
  bin (makeLut 10 128) 100 = round_fraction (255 * (100 - 10)) (128 - 10).
Proof.
  assert (H10 : byte 10) by (unfold byte; lia).
  assert (H128 : byte 128) by (unfold byte; lia).
  assert (H100 : byte 100) by (unfold byte; lia).
  assert (Hlt : 10 < 128) by lia.
  repeat (split; [assumption|]).
  exact (makeLut_stretch 10 128 100 H10 H128 Hlt H100).
Defined.

(** *** [lowHigh] finds the first bin past the clip count *)

Lemma sum_bins_first hist a b :
  a <= b -> sum_bins hist a b = bin hist a + sum_bins hist (a + 1) b.
Proof.
  intros Hab. unfold sum_bins.
  rewrite (seqZ_cons a) by lia. cbn [map fold_right].
  repeat f_equal; lia.
Qed.

Lemma sum_bins_last hist a b :
  a <= b -> sum_bins hist a b = sum_bins hist a (b - 1) + bin hist b.
Proof.
  intros Hab. unfold sum_bins.
  replace (b - a + 1) with ((b - 1 - a + 1) + 1) by lia.
  rewrite seqZ_app by lia. rewrite map_app, fold_right_app.
  rewrite (seqZ_cons _ 1) by lia. rewrite (seqZ_nil _ (Z.pred 1)) by lia.
  cbn [map fold_right].
  replace (a + (b - 1 - a + 1)) with b by lia.
  generalize (map (bin hist) (seqZ a (b - 1 - a + 1))) as l.
  intros l. induction l as [|x l IH]; cbn [fold_right]; [lia|].
  rewrite IH. lia.
Qed.

Lemma sum_bins_empty hist a b : b < a -> sum_bins hist a b = 0.
Proof. intros H. unfold sum_bins. rewrite seqZ_nil by lia. reflexivity. Qed.

(** The ascending loop over the bins [a], ..., [a + n - 1], entered with
    the sum [acc]. *)
Lemma scan_up_spec hist clipN dflt (n : nat) :
  forall a acc,
    let r := scan hist clipN (seqZ a (Z.of_nat n)) acc dflt in
    (a <= r < a + Z.of_nat n
     /\ exceeds clipN (acc + sum_bins hist a r) = true
     /\ forall u, a <= u < r -> exceeds clipN (acc + sum_bins hist a u) = false)
    \/ (r = dflt
        /\ forall u, a <= u < a + Z.of_nat n ->
             exceeds clipN (acc + sum_bins hist a u) = false).
Proof.
  induction n as [|n IH]; intros a acc r; subst r.
  - right. split; [reflexivity | intros u Hu; lia].
  - rewrite (seqZ_cons a) by lia.
    replace (Z.pred (Z.of_nat (S n))) with (Z.of_nat n) by lia.
    cbn [scan]. fold (exceeds clipN (acc + bin hist a)).
    destruct (exceeds clipN (acc + bin hist a)) eqn:Ha.
    + left. split; [lia|]. split; [|intros u Hu; lia].
      rewrite sum_bins_first, sum_bins_empty, Z.add_0_r by lia. exact Ha.
    + assert (Hshift : forall u, a < u ->
                acc + sum_bins hist a u
                = acc + bin hist a + sum_bins hist (Z.succ a) u).
      { intros u Hu. rewrite (sum_bins_first hist a u) by lia.
        replace (a + 1) with (Z.succ a) by lia. lia. }
      destruct (IH (Z.succ a) (acc + bin hist a))
        as [(Hr & Hex & Hbefore) | (Hr & Hnone)].
      * left. split; [lia|]. split.
        -- rewrite Hshift by lia. exact Hex.
        -- intros u Hu. destruct (Z.eq_dec u a) as [->|Hne].
           ++ rewrite sum_bins_first, sum_bins_empty, Z.add_0_r by lia.
              exact Ha.
           ++ rewrite Hshift by lia. apply Hbefore. lia.
      * right. split; [exact Hr|].
        intros u Hu. destruct (Z.eq_dec u a) as [->|Hne].
        -- rewrite sum_bins_first, sum_bins_empty, Z.add_0_r by lia.
           exact Ha.
        -- rewrite Hshift by lia. apply Hnone. lia.
Qed.

(** The descending loop over the bins [b], ..., [b - n + 1]. *)
Lemma scan_down_spec hist clipN dflt (n : nat) :
  forall b acc,
    let r := scan hist clipN (reverse (seqZ (b - Z.of_nat n + 1) (Z.of_nat n)))
               acc dflt in
    (b - Z.of_nat n < r <= b
     /\ exceeds clipN (acc + sum_bins hist r b) = true
     /\ forall u, r < u <= b -> exceeds clipN (acc + sum_bins hist u b) = false)
    \/ (r = dflt
        /\ forall u, b - Z.of_nat n < u <= b ->
             exceeds clipN (acc + sum_bins hist u b) = false).
Proof.
  induction n as [|n IH]; intros b acc r; subst r.
  - right. split; [reflexivity | intros u Hu; lia].
  - rewrite seqZ_S, reverse_snoc.
    replace (b - Z.of_nat (S n) + 1 + Z.of_nat n) with b by lia.
    replace (b - Z.of_nat (S n) + 1) with (b - 1 - Z.of_nat n + 1) by lia.
    cbn [scan]. fold (exceeds clipN (acc + bin hist b)).
    destruct (exceeds clipN (acc + bin hist b)) eqn:Hb.
    + left. split; [lia|]. split; [|intros u Hu; lia].
      rewrite sum_bins_last, sum_bins_empty, Z.add_0_l by lia. exact Hb.
    + assert (Hshift : forall u, u < b ->
                acc + sum_bins hist u b
                = acc + bin hist b + sum_bins hist u (b - 1)).
      { intros u Hu. rewrite (sum_bins_last hist u b) by lia. lia. }
      destruct (IH (b - 1) (acc + bin hist b))
        as [(Hr & Hex & Hafter) | (Hr & Hnone)].
      * left. split; [lia|]. split.
        -- rewrite Hshift by lia. exact Hex.
        -- intros u Hu. destruct (Z.eq_dec u b) as [->|Hne].
           ++ rewrite sum_bins_last, sum_bins_empty, Z.add_0_l by lia.
              exact Hb.
           ++ rewrite Hshift by lia. apply Hafter. lia.
      * right. split; [exact Hr|].
        intros u Hu. destruct (Z.eq_dec u b) as [->|Hne].
        -- rewrite sum_bins_last, sum_bins_empty, Z.add_0_l by lia.
           exact Hb.
        -- rewrite Hshift by lia. apply Hnone. lia.
Qed.

(** [lowHigh] clips by cumulative count: no bin below [lo] brings the
    running sum of the bins from 0 past [clipN], and unless [lo] is 0 the
    bin [lo] does; likewise for [hi] and the sums taken from 255 down.
    This also holds when the guard [hi <= lo] has reset the bounds to
    (0, 255). *)
Theorem lowHigh_clips_by_count (clipN : float) (hist : list Z) :
  (forall u, 0 <= u < (lowHigh clipN hist).1 ->
     exceeds clipN (sum_bins hist 0 u) = false)
  /\ ((lowHigh clipN hist).1 <> 0 ->
        exceeds clipN (sum_bins hist 0 (lowHigh clipN hist).1) = true)
  /\ (forall u, (lowHigh clipN hist).2 < u <= 255 ->
        exceeds clipN (sum_bins hist u 255) = false)
  /\ ((lowHigh clipN hist).2 <> 255 ->
        exceeds clipN (sum_bins hist (lowHigh clipN hist).2 255) = true).
Proof.
  unfold lowHigh.
  pose proof (scan_up_spec hist clipN 0 256 0 0) as Hup.
  pose proof (scan_down_spec hist clipN 255 256 255 0) as Hdown.
  cbv zeta in Hup, Hdown.
  change (seqZ 0 (Z.of_nat 256)) with bins_up in Hup.
  change (reverse (seqZ (255 - Z.of_nat 256 + 1) (Z.of_nat 256)))
    with bins_down in Hdown.
  revert Hup Hdown.
  generalize (scan hist clipN bins_up 0 0) as lo.
  generalize (scan hist clipN bins_down 0 255) as hi.
  intros hi lo Hup Hdown.
  destruct (hi <=? lo); cbn [fst snd].
  - repeat split; intros; lia.
  - split; [|split; [|split]].
    + intros u Hu. destruct Hup as [(_ & _ & H) | (-> & _)]; [|lia].
      apply (H u). lia.
    + intros Hne. destruct Hup as [(_ & H & _) | (-> & _)]; [|lia]. exact H.
    + intros u Hu. destruct Hdown as [(_ & _ & H) | (-> & _)]; [|lia].
      apply (H u). lia.
    + intros Hne. destruct Hdown as [(_ & H & _) | (-> & _)]; [|lia]. exact H.
Qed.

(** ** Every stage returns a well-formed image *)

Lemma makeLut_entry_byte lo hi v : byte (bin (makeLut lo hi) v).
Proof.
  unfold bin, makeLut. rewrite list_lookup_fmap.
  destruct (seqZ 0 256 !! Z.to_nat v) as [u|]; simpl;
    [apply ToUint8Clamp_byte | unfold byte; lia].
Qed.

Lemma awb_loop_bytes lr lg lb src :
  (forall v, byte (bin lr v)) -> (forall v, byte (bin lg v)) ->
  (forall v, byte (bin lb v)) ->
  Forall byte src -> Forall byte (awb_loop lr lg lb src).
Proof.
  intros Hr Hg Hb.
  induction src as [l Hl | r g b a rest IH] using pixel_ind; intros Hsrc.
  - destruct l as [|? [|? [|? [|? ?]]]]; simpl in *; try lia; constructor.
  - simpl. inversion_clear Hsrc as [|? ? _ H1]. inversion_clear H1 as [|? ? _ H2].
    inversion_clear H2 as [|? ? _ H3]. inversion_clear H3 as [|? ? Ha H4].
    constructor; [apply Hr|]. constructor; [apply Hg|].
    constructor; [apply Hb|]. constructor; [exact Ha | exact (IH H4)].
Qed.

Lemma sat_loop_bytes factor src :
  Forall byte src -> Forall byte (sat_loop factor src).
Proof.
  induction src as [l Hl | r g b a rest IH] using pixel_ind; intros Hsrc.
  - destruct l as [|? [|? [|? [|? ?]]]]; simpl in *; try lia; constructor.
  - cbn [sat_loop]. unfold sat_pixel.
    destruct (rgbToHsl (Num r) (Num g) (Num b)) as [[h s] l].
    destruct (hslToRgb h _ l) as [[nr ng] nb].
    inversion_clear Hsrc as [|? ? _ H1]. inversion_clear H1 as [|? ? _ H2].
    inversion_clear H2 as [|? ? _ H3]. inversion_clear H3 as [|? ? Ha H4].
    do 3 (constructor; [apply ToUint8Clamp_byte|]).
    constructor; [exact Ha | exact (IH H4)].
Qed.

(** A stage that keeps the dimensions, the length of the buffer and its
    bytes keeps the image well formed. *)
Lemma wf_image_from img out :
  wf_image img -> same_dims out img ->
  length (data out) = length (data img) -> Forall byte (data out) ->
  wf_image out.
Proof.
  intros (Hw & Hh & Hlen & _) [Hdw Hdh] Hl Hb.
  unfold wf_image. rewrite Hdw, Hdh, Hl. auto.
Qed.

Lemma awb_wf img clipPct :
  wf_image img -> wf_image (applyAutoWhiteBalance img clipPct).
Proof.
  intros Hwf.
  apply (wf_image_from img); [exact Hwf | apply awb_dims | |].
  - apply (awb_alpha img clipPct Hwf).
  - destruct Hwf as (_ & _ & _ & Hbytes). unfold applyAutoWhiteBalance.
    destruct (width img * height img =? 0); [exact Hbytes|].
    destruct (histograms _ _ _ _) as [[hr hg] hb].
    destruct (lowHigh _ hr), (lowHigh _ hg), (lowHigh _ hb). simpl.
    apply awb_loop_bytes; try exact Hbytes; intros v; apply makeLut_entry_byte.
Qed.

Lemma bc_wf img b c :
  wf_image img -> wf_image (applyBrightnessContrast img b c).
Proof.
  intros Hwf.
  apply (wf_image_from img); [exact Hwf | apply bc_dims | |].
  - simpl. apply bc_loop_alpha, wf_whole_pixels, Hwf.
  - simpl. apply bc_loop_bytes, Hwf.
Qed.

Lemma sat_wf img pct : wf_image img -> wf_image (applySaturation img pct).
Proof.
  intros Hwf.
  apply (wf_image_from img); [exact Hwf | apply sat_dims | |].
  - apply (sat_alpha img pct Hwf).
  - unfold applySaturation. destruct (pct =? 0)%float; [apply Hwf|].
    simpl. apply sat_loop_bytes, Hwf.
Qed.

(** *** The two passes of the blur *)

Lemma length_flat_map_const {A B} (f : A -> list B) (k : nat) (l : list A) :
  (forall x, length (f x) = k) -> length (flat_map f l) = (k * length l)%nat.
Proof.
  intros Hf. induction l as [|x l IH]; simpl; [lia|].
  rewrite length_app, Hf, IH. lia.
Qed.

Lemma Forall_flat_map_intro {A B} (P : B -> Prop) (f : A -> list B) l :
  (forall x, Forall P (f x)) -> Forall P (flat_map f l).
Proof.
  intros Hf. induction l as [|x l IH]; simpl; [constructor|].
  apply Forall_app. split; [apply Hf | exact IH].
Qed.

Lemma conv_pixel_bytes kernel radius ks buf at_k :
  Forall byte (conv_pixel kernel radius ks buf at_k).
Proof.
  unfold conv_pixel, convolve. repeat constructor; apply ToUint8Clamp_byte.
Qed.

Lemma length_seqZ_nat m n : 0 <= n -> Z.of_nat (length (seqZ m n)) = n.
Proof. intros Hn. rewrite length_seqZ. lia. Qed.

Lemma pass_length (f : Z -> Z -> list Z) w h :
  0 <= w -> 0 <= h -> (forall y x, length (f y x) = 4%nat) ->
  Z.of_nat (length (flat_map (fun y => flat_map (f y) (seqZ 0 w)) (seqZ 0 h)))
  = 4 * w * h.
Proof.
  intros Hw Hh Hf.
  rewrite (length_flat_map_const _ (4 * length (seqZ 0 w))).
  - rewrite !Nat2Z.inj_mul, !length_seqZ_nat by assumption. lia.
  - intros y. apply length_flat_map_const. apply Hf.
Qed.

Lemma blur_wf Math_exp img sigmaPx :
  wf_image img -> wf_image (applyGaussianBlur Math_exp img sigmaPx).
Proof.
  intros Hwf. unfold applyGaussianBlur.
  destruct (sigmaPx <=? 0.1)%float; [exact Hwf|].
  destruct (makeGaussianKernel Math_exp sigmaPx) as [kernel radius].
  destruct Hwf as (Hw & Hh & _ & _).
  unfold wf_image. cbn [data width height].
  split; [exact Hw|]. split; [exact Hh|]. split.
  - unfold vertical_pass. apply pass_length; try assumption. reflexivity.
  - unfold vertical_pass.
    apply Forall_flat_map_intro. intros y.
    apply Forall_flat_map_intro. intros x. apply conv_pixel_bytes.
Qed.

(** Auto white balance, brightness/contrast, saturation and blur each
    return a well-formed image (same dimensions, [4 * width * height]
    bytes) for a well-formed one, whatever their parameters. *)
Theorem stages_keep_well_formed (img : ImageData) :
  wf_image img ->
  (forall clipPct, wf_image (applyAutoWhiteBalance img clipPct))
  /\ (forall b c, wf_image (applyBrightnessContrast img b c))
  /\ (forall pct, wf_image (applySaturation img pct))
  /\ (forall Math_exp sigmaPx,
        wf_image (applyGaussianBlur Math_exp img sigmaPx)).
Proof.
  intros Hwf.
  split; [intros; apply awb_wf, Hwf|].
  split; [intros; apply bc_wf, Hwf|].
  split; [intros; apply sat_wf, Hwf|].
  intros; apply blur_wf, Hwf.
Qed.

Lemma stages_keep_well_formed_witness :
  wf_image sample_image /\
  wf_image (applyGaussianBlur Math_id sample_image 2).
Proof.
  split; [exact sample_image_wf|].
  exact (proj2 (proj2 (proj2 (stages_keep_well_formed sample_image
                                sample_image_wf))) Math_id 2%float).
Defined.

(** ** Noise and the pipeline, continued *)

Section MorePipelineFacts.

Context {RS : Type}.
Variable random : RS -> float * RS.
Variables Math_log Math_cos Math_exp : float -> float.
Variable fuel : nat.

Local Abbreviation gaussianRandom' := (gaussianRandom random Math_log Math_cos fuel).
Local Abbreviation noise_loop' := (noise_loop random Math_log Math_cos fuel).
Local Abbreviation applyGaussianNoise' := (applyGaussianNoise random Math_log Math_cos fuel).
Local Abbreviation applyPipeline' := (applyPipeline random Math_log Math_cos Math_exp fuel).

(** The loop [while (u === 0) u = Math.random()] never hands on a zero,
    +0 or -0: what [gaussianRandom] passes to [Math.log] is not 0. *)
Theorem draw_nonzero_is_not_zero (n : nat) (s s' : RS) (u : float) :
  draw_nonzero random n s = Some (u, s') -> (u =? 0)%float = false.
Proof.
  revert s. induction n as [|n IH]; intros s; cbn [draw_nonzero];
    [discriminate|].
  destruct (random s) as [u0 s0].
  destruct (u0 =? 0)%float eqn:Hu0; [apply IH|].
  intros [= <- <-]. exact Hu0.
Qed.

Lemma noisy_byte sigma v s x s' :
  noisy random Math_log Math_cos fuel sigma v s = Some (x, s') -> byte x.
Proof.
  unfold noisy, bind, ret.
  destruct (gaussianRandom' 0 sigma s) as [[z s1]|]; cbn beta iota;
    [|discriminate].
  intros H. inversion H. apply ToUint8Clamp_byte.
Qed.

(** What the loop of [applyGaussianNoise] returns, when it returns. *)
Lemma noise_loop_result sigma src :
  whole_pixels src -> Forall byte src ->
  forall s out s',
    noise_loop' sigma src s = Some (out, s') ->
    Forall byte out /\ same_alpha out src.
Proof.
  induction src as [l Hl | r g b a rest IH] using pixel_ind;
    intros Hpix Hsrc s out s'.
  - rewrite (whole_pixels_short l Hpix Hl). cbn [noise_loop]. unfold ret.
    intros H. inversion H. split; [constructor | apply same_alpha_nil].
  - cbn [noise_loop]. unfold bind, ret.
    destruct (noisy _ _ _ _ sigma r s) as [[nr t1]|] eqn:E1; cbn beta iota;
      [|discriminate].
    destruct (noisy _ _ _ _ sigma g t1) as [[ng t2]|] eqn:E2; cbn beta iota;
      [|discriminate].
    destruct (noisy _ _ _ _ sigma b t2) as [[nb t3]|] eqn:E3; cbn beta iota;
      [|discriminate].
    destruct (noise_loop' sigma rest t3) as [[o t4]|] eqn:Hrest; cbn beta iota;
      [|discriminate].
    intros H. inversion H. subst out s'.
    inversion_clear Hsrc as [|? ? _ H1]. inversion_clear H1 as [|? ? _ H2].
    inversion_clear H2 as [|? ? _ H3]. inversion_clear H3 as [|? ? Ha H4].
    destruct (IH (whole_pixels_tail _ _ _ _ _ Hpix) H4 _ _ _ Hrest) as [Hb Hal].
    split; [|apply same_alpha_pixel, Hal].
    constructor; [exact (noisy_byte _ _ _ _ _ E1)|].
    constructor; [exact (noisy_byte _ _ _ _ _ E2)|].
    constructor; [exact (noisy_byte _ _ _ _ _ E3)|].
    constructor; [exact Ha | exact Hb].
Qed.

(** Whatever [applyGaussianNoise] returns for a well-formed image is well
    formed with the same alpha channel; this needs nothing of the random
    source. *)
Lemma noise_result img sigma s out s' :
  wf_image img ->
  applyGaussianNoise' img sigma s = Some (out, s') ->
  wf_image out /\ same_alpha (data out) (data img).
Proof.
  intros Hwf. unfold applyGaussianNoise.
  destruct (sigma <=? 0)%float.
  - unfold ret. intros H. inversion H. subst out s'.
    split; [exact Hwf | apply same_alpha_refl].
  - unfold bind, ret.
    destruct (noise_loop' sigma (data img) s) as [[o s1]|] eqn:Hloop;
      cbn beta iota; [|discriminate].
    intros H. inversion H. subst out s'.
    destruct (noise_loop_result sigma (data img) (wf_whole_pixels _ Hwf)
                (proj2 (proj2 (proj2 Hwf))) _ _ _ Hloop) as [Hb Halpha].
    split; [|exact Halpha].
    apply (wf_image_from img); [exact Hwf | split; reflexivity | |].
    + apply Halpha.
    + exact Hb.
Qed.

(** The stages of [applyPipeline] after the noise. *)
Lemma after_noise_wf adj img :
  wf_image img ->
  wf_image
    (let img := bc_step adj img in
     let img := if negb (saturation adj =? 0)%float
                then applySaturation img (saturation adj) else img in
     if (0 <? blurPx adj)%float
     then applyGaussianBlur Math_exp img (blurPx adj) else img).
Proof.
  intros Hwf. cbv zeta.
  assert (H1 : wf_image (bc_step adj img)).
  { unfold bc_step. destruct (_ || _); [apply bc_wf, Hwf | exact Hwf]. }
  assert (H2 : wf_image (if negb (saturation adj =? 0)%float
                         then applySaturation (bc_step adj img) (saturation adj)
                         else bc_step adj img)).
  { destruct (negb _); [apply sat_wf, H1 | exact H1]. }
  destruct (0 <? blurPx adj)%float; [apply blur_wf, H2 | exact H2].
Qed.

(** With a fair random source [applyPipeline] returns. *)
Lemma pipeline_returns (input : ImageData) (adj : Adjustments) (s : RS) :
  fair random fuel -> wf_image input ->
  exists out s', applyPipeline' input adj s = Some (out, s').
Proof.
  intros Hfair Hwf. unfold applyPipeline, bind, ret.
  set (img1 := if autoWhiteBalance adj
               then applyAutoWhiteBalance input default_clipPct else input).
  assert (H1 : wf_image img1).
  { subst img1. destruct (autoWhiteBalance adj); [apply awb_wf, Hwf | exact Hwf]. }
  destruct (0 <? noiseSigma adj)%float; [|eauto].
  destruct (noise_returns random Math_log Math_cos fuel Hfair img1
              (noiseSigma adj) s H1) as (o & s1 & -> & _).
  eauto.
Qed.

Lemma pipeline_result_wf (input : ImageData) (adj : Adjustments)
  (s s' : RS) (out : ImageData) :
  wf_image input ->
  applyPipeline' input adj s = Some (out, s') ->
  wf_image out.
Proof.
  intros Hwf. unfold applyPipeline, bind, ret.
  set (img1 := if autoWhiteBalance adj
               then applyAutoWhiteBalance input default_clipPct else input).
  assert (H1 : wf_image img1).
  { subst img1. destruct (autoWhiteBalance adj); [apply awb_wf, Hwf | exact Hwf]. }
  destruct ((if (0 <? noiseSigma adj)%float
             then applyGaussianNoise' img1 (noiseSigma adj)
             else fun s0 => Some (img1, s0)) s) as [[img2 s2]|] eqn:Hnoise;
    cbn beta iota; [|discriminate].
  assert (H2 : wf_image img2).
  { destruct (0 <? noiseSigma adj)%float.
    - apply (noise_result _ _ _ _ _ H1 Hnoise).
    - inversion Hnoise. subst img2. exact H1. }
  intros H. inversion H. subst out s'. apply (after_noise_wf adj img2 H2).
Qed.

Lemma pipeline_result_alpha (input : ImageData)
  (adj : Adjustments) (s s' : RS) (out : ImageData) :
  wf_image input ->
  (0 <? blurPx adj)%float = false \/ (blurPx adj <=? 0.1)%float = true ->
  applyPipeline' input adj s = Some (out, s') ->
  same_alpha (data out) (data input).
Proof.
  intros Hwf Hblur. unfold applyPipeline, bind, ret.
  set (img1 := if autoWhiteBalance adj
               then applyAutoWhiteBalance input default_clipPct else input).
  assert (H1 : wf_image img1 /\ same_alpha (data img1) (data input)).
  { subst img1. destruct (autoWhiteBalance adj).
    - split; [apply awb_wf, Hwf | apply awb_alpha, Hwf].
    - split; [exact Hwf | apply same_alpha_refl]. }
  destruct H1 as [Hwf1 Ha1].
  destruct ((if (0 <? noiseSigma adj)%float
             then applyGaussianNoise' img1 (noiseSigma adj)
             else fun s0 => Some (img1, s0)) s) as [[img2 s2]|] eqn:Hnoise;
    cbn beta iota; [|discriminate].
  assert (H2 : wf_image img2 /\ same_alpha (data img2) (data img1)).
  { destruct (0 <? noiseSigma adj)%float.
    - apply (noise_result _ _ _ _ _ Hwf1 Hnoise).
    - inversion Hnoise. subst img2.
      split; [exact Hwf1 | apply same_alpha_refl]. }
  destruct H2 as [Hwf2 Ha2].
  intros H. inversion H. subst out s'. clear H.
  assert (H3 : wf_image (bc_step adj img2)
               /\ same_alpha (data (bc_step adj img2)) (data img2)).
  { unfold bc_step. destruct (_ || _).
    - split; [apply bc_wf, Hwf2|].
      simpl. apply bc_loop_alpha, wf_whole_pixels, Hwf2.
    - split; [exact Hwf2 | apply same_alpha_refl]. }
  destruct H3 as [Hwf3 Ha3].
  set (img3 := bc_step adj img2) in *.
  assert (H4 : same_alpha
                 (data (if negb (saturation adj =? 0)%float
                        then applySaturation img3 (saturation adj) else img3))
                 (data img3)).
  { destruct (negb _); [apply sat_alpha, Hwf3 | apply same_alpha_refl]. }
  assert (Hskip : (if (0 <? blurPx adj)%float
                   then applyGaussianBlur Math_exp
                          (if negb (saturation adj =? 0)%float
                           then applySaturation img3 (saturation adj) else img3)
                          (blurPx adj)
                   else if negb (saturation adj =? 0)%float
                        then applySaturation img3 (saturation adj) else img3)
                  = if negb (saturation adj =? 0)%float
                    then applySaturation img3 (saturation adj) else img3).
  { destruct (0 <? blurPx adj)%float eqn:Hpos; [|reflexivity].
    destruct Hblur as [Hb|Hb]; [discriminate Hb|].
    unfold applyGaussianBlur. rewrite Hb. reflexivity. }
  rewrite Hskip.
  destruct H4 as [L4 A4], Ha3 as [L3 A3], Ha2 as [L2 A2], Ha1 as [L1 A1].
  split; [congruence|].
  intros i. rewrite A4, A3, A2, A1. reflexivity.
Qed.

(** Whatever [applyPipeline] returns for a well-formed image is a
    well-formed image, for every parameter set and every random source; and
    with a fair source it does return one. *)
Theorem pipeline_keeps_well_formed (input : ImageData) (adj : Adjustments)
  (s : RS) :
  wf_image input ->
  (forall out s', applyPipeline' input adj s = Some (out, s') -> wf_image out)
  /\ (fair random fuel ->
      exists out s',
        applyPipeline' input adj s = Some (out, s') /\ wf_image out).
Proof.
  intros Hwf. split.
  - intros out s'. apply pipeline_result_wf, Hwf.
  - intros Hfair.
    destruct (pipeline_returns input adj s Hfair Hwf) as (out & s' & Hrun).
    exists out, s'. split; [exact Hrun|].
    exact (pipeline_result_wf _ _ _ _ _ Hwf Hrun).
Qed.

(** With the blur not applied ([blurPx] not above 0.1, or NaN), whatever
    [applyPipeline] returns has the alpha channel of its input: only the
    blur touches alpha.  With a fair source it does return an image. *)
Theorem pipeline_without_blur_keeps_alpha (input : ImageData)
  (adj : Adjustments) (s : RS) :
  wf_image input ->
  (0 <? blurPx adj)%float = false \/ (blurPx adj <=? 0.1)%float = true ->
  (forall out s', applyPipeline' input adj s = Some (out, s') ->
     same_alpha (data out) (data input))
  /\ (fair random fuel ->
      exists out s',
        applyPipeline' input adj s = Some (out, s')
        /\ same_alpha (data out) (data input)).
Proof.
  intros Hwf Hblur. split.
  - intros out s'. apply pipeline_result_alpha; assumption.
  - intros Hfair.
    destruct (pipeline_returns input adj s Hfair Hwf) as (out & s' & Hrun).
    exists out, s'. split; [exact Hrun|].
    exact (pipeline_result_alpha _ _ _ _ _ Hwf Hblur Hrun).
Qed.

End MorePipelineFacts.

Lemma draw_nonzero_is_not_zero_witness :
  draw_nonzero half_source 3 0%nat = Some (0.5%float, 1%nat)
  /\ (0.5 =? 0)%float = false.
Proof.
  split; [reflexivity|].
  exact (draw_nonzero_is_not_zero half_source 3 0%nat 1%nat 0.5%float eq_refl).
Defined.

Lemma sample_pipeline_run :
  applyPipeline half_source Math_id Math_id Math_id 1 sample_image
    sample_adjustments 0%nat = Some (sample_output, 24%nat).
Proof. vm_compute. reflexivity. Qed.

Lemma pipeline_keeps_well_formed_witness :
  wf_image sample_image /\ fair half_source 1 /\ wf_image sample_output.
Proof.
  split; [exact sample_image_wf|]. split; [exact half_source_fair|].
  exact (proj1 (pipeline_keeps_well_formed half_source Math_id Math_id Math_id 1
                  sample_image sample_adjustments 0%nat sample_image_wf)
           sample_output 24%nat sample_pipeline_run).
Defined.

Lemma pipeline_without_blur_keeps_alpha_witness :
  wf_image sample_image /\ (0 <? blurPx sample_adjustments)%float = false
  /\ fair half_source 1
  /\ same_alpha (data sample_output) (data sample_image).
Proof.
  split; [exact sample_image_wf|]. split; [reflexivity|].
  split; [exact half_source_fair|].
  exact (proj1 (pipeline_without_blur_keeps_alpha half_source Math_id Math_id
                  Math_id 1 sample_image sample_adjustments 0%nat
                  sample_image_wf (or_introl eq_refl))
           sample_output 24%nat sample_pipeline_run).
Defined.

(** ** NaN through the arithmetic *)

Lemma add_nan_r x : (x + nan)%float = nan.
Proof.
  apply Prim2SF_inj. rewrite add_spec. change (Prim2SF nan) with S754_nan.
  destruct (Prim2SF x); reflexivity.
Qed.

Lemma add_nan_l x : (nan + x)%float = nan.
Proof.
  apply Prim2SF_inj. rewrite add_spec. change (Prim2SF nan) with S754_nan.
  destruct (Prim2SF x); reflexivity.
Qed.

Lemma sub_nan_r x : (x - nan)%float = nan.
Proof.
  apply Prim2SF_inj. rewrite sub_spec. change (Prim2SF nan) with S754_nan.
  destruct (Prim2SF x); reflexivity.
Qed.

Lemma mul_nan_r x : (x * nan)%float = nan.
Proof.
  apply Prim2SF_inj. rewrite mul_spec. change (Prim2SF nan) with S754_nan.
  destruct (Prim2SF x); reflexivity.
Qed.

Lemma mul_nan_l x : (nan * x)%float = nan.
Proof.
  apply Prim2SF_inj. rewrite mul_spec. change (Prim2SF nan) with S754_nan.
  destruct (Prim2SF x); reflexivity.
Qed.

(** 0 times a number is a zero when the number is finite, NaN otherwise. *)
Lemma zero_mul x :
  (0 * x)%float = (if not_finite x then nan
                   else if get_sign_of x then neg_zero else zero).
Proof.
  apply Prim2SF_inj. rewrite mul_spec. unfold not_finite, get_sign_of.
  change (Prim2SF 0) with (S754_zero false).
  destruct (Prim2SF x) as [s|s| |s m e]; try reflexivity;
    destruct s; reflexivity.
Qed.

(** ** Brightness and contrast at the ends of the range *)

Lemma flat_contrast_term v :
  byte v -> (contrast_factor (-100) * (Num v - 128) + 128)%float = 128%float.
Proof.
  intros Hv. apply FloatAxioms.Leibniz.eqb_spec.
  apply (forall_bytes
           (fun v => Leibniz.eqb
                       (contrast_factor (-100) * (Num v - 128) + 128)%float 128));
    [vm_compute; reflexivity | exact Hv].
Qed.

Lemma bc_loop_flat b v0 src :
  Forall byte src ->
  (forall v, byte v -> bc_channel (contrast_factor (-100)) b v = v0) ->
  bc_loop (contrast_factor (-100)) b src = flattened v0 src.
Proof.
  intros Hsrc Hch.
  induction src as [l Hl | r g bl a rest IH] using pixel_ind.
  - destruct l as [|? [|? [|? [|? ?]]]]; simpl in Hl; try lia; reflexivity.
  - inversion_clear Hsrc as [|? ? Hr H1]. inversion_clear H1 as [|? ? Hg H2].
    inversion_clear H2 as [|? ? Hb H3]. inversion_clear H3 as [|? ? _ H4].
    cbn [bc_loop flattened]. rewrite !Hch, (IH H4) by assumption. reflexivity.
Qed.

(** At [contrastPct = -100] the factor is 0 and the image is flattened:
    every colour channel of every pixel becomes the one grey
    [clamp (128 + b)], whatever it was; alpha is kept. *)
Theorem contrast_minus_100_flattens (img : ImageData) (brightnessPct : float) :
  Forall byte (data img) ->
  data (applyBrightnessContrast img brightnessPct (-100))
  = flattened
      (ToUint8Clamp (clamp255 (128 + (brightnessPct / 100) * 255)%float))
      (data img).
Proof.
  intros Hbytes. cbn [applyBrightnessContrast data].
  apply bc_loop_flat; [exact Hbytes|].
  intros v Hv. unfold bc_channel. rewrite (flat_contrast_term v Hv).
  reflexivity.
Qed.

Lemma contrast_minus_100_flattens_witness :
  Forall byte (data sample_image) /\
  data (applyBrightnessContrast sample_image 0 (-100))
  = flattened (ToUint8Clamp (clamp255 (128 + (0 / 100) * 255)%float))
      (data sample_image).
Proof.
  split; [exact (proj2 (proj2 (proj2 sample_image_wf)))|].
  exact (contrast_minus_100_flattens sample_image 0
           (proj2 (proj2 (proj2 sample_image_wf)))).
Defined.

(** ** A NaN parameter *)

Lemma bc_loop_const f b src :
  (forall v, bc_channel f b v = 0) -> bc_loop f b src = flattened 0 src.
Proof.
  intros Hch. induction src as [l Hl | r g bl a rest IH] using pixel_ind.
  - destruct l as [|? [|? [|? [|? ?]]]]; simpl in Hl; try lia; reflexivity.
  - cbn [bc_loop flattened]. rewrite !Hch, IH. reflexivity.
Qed.

Lemma hue2rgb_nan t : hue2rgb nan nan t = nan.
Proof.
  unfold hue2rgb.
  repeat match goal with |- context [if ?c then _ else _] => destruct c end;
    rewrite ?sub_nan_r, ?mul_nan_l, ?add_nan_l; reflexivity.
Qed.

Lemma hslToRgb_nan h l : hslToRgb h nan l = (nan, nan, nan).
Proof.
  unfold hslToRgb. change (nan =? 0)%float with false. cbv iota.
  assert (Hq : (if (l <? 0.5)%float then (l * (1 + nan))%float
                else (l + nan - l * nan)%float) = nan).
  { destruct (l <? 0.5)%float.
    - rewrite add_nan_r, mul_nan_r. reflexivity.
    - rewrite mul_nan_r, sub_nan_r. reflexivity. }
  rewrite Hq. cbv zeta. rewrite sub_nan_r, !hue2rgb_nan, mul_nan_l.
  reflexivity.
Qed.

Lemma sat_pixel_nan_saturation factor r g b :
  (forall s, Math_max 0 (Math_min 1 (s * factor)%float) = nan) ->
  sat_pixel factor r g b = (0, 0, 0).
Proof.
  intros Hs. unfold sat_pixel.
  destruct (rgbToHsl (Num r) (Num g) (Num b)) as [[h s] l].
  rewrite Hs, hslToRgb_nan. reflexivity.
Qed.

Lemma sat_loop_const factor src :
  (forall r g b, sat_pixel factor r g b = (0, 0, 0)) ->
  sat_loop factor src = flattened 0 src.
Proof.
  intros Hpx. induction src as [l Hl | r g b a rest IH] using pixel_ind.
  - destruct l as [|? [|? [|? [|? ?]]]]; simpl in Hl; try lia; reflexivity.
  - cbn [sat_loop flattened]. rewrite Hpx, IH. reflexivity.
Qed.

(** Neither stage validates its parameter: called with a NaN brightness, a
    NaN contrast or a NaN saturation, it sets the colour channels of every
    pixel to 0 and keeps the alpha. *)
Theorem nan_parameter_blacks_out (img : ImageData) (p q : float) :
  is_nan p = true ->
  data (applyBrightnessContrast img p q) = flattened 0 (data img)
  /\ data (applyBrightnessContrast img q p) = flattened 0 (data img)
  /\ data (applySaturation img p) = flattened 0 (data img).
Proof.
  intros Hp. apply is_nan_true in Hp. subst p.
  split; [|split].
  - cbn [applyBrightnessContrast data]. apply bc_loop_const.
    intros v. unfold bc_channel.
    change ((nan / 100) * 255)%float with nan. rewrite add_nan_r. reflexivity.
  - cbn [applyBrightnessContrast data]. apply bc_loop_const.
    intros v. unfold bc_channel.
    change (contrast_factor nan) with nan.
    rewrite mul_nan_l, !add_nan_l. reflexivity.
  - unfold applySaturation. change (nan =? 0)%float with false. cbv iota.
    cbn [data]. apply sat_loop_const. intros r g b.
    apply sat_pixel_nan_saturation. intros s.
    change (saturation_factor nan) with nan. rewrite mul_nan_r. reflexivity.
Qed.

Lemma nan_parameter_blacks_out_witness :
  is_nan nan = true /\
  data (applySaturation sample_image nan) = flattened 0 (data sample_image).
Proof.
  split; [reflexivity|].
  exact (proj2 (proj2 (nan_parameter_blacks_out sample_image nan 0 eq_refl))).
Defined.

(** ** Saturation of a grey image *)

Lemma Math_max_same x : Math_max x x = x.
Proof. destruct (Math_max_cases x x); assumption. Qed.

Lemma Math_min_same x : Math_min x x = x.
Proof. destruct (Math_min_cases x x); assumption. Qed.

Lemma grey_component v :
  byte v ->
  (unit_of v =? unit_of v)%float = true
  /\ ToUint8Clamp (clamp255 ((unit_of v + unit_of v) / 2 * 255)%float) = v.
Proof.
  intros Hv.
  pose proof (forall_bytes
                (fun v => (unit_of v =? unit_of v)%float
                          && (ToUint8Clamp
                                (clamp255 ((unit_of v + unit_of v) / 2 * 255)%float)
                              =? v))
                ltac:(vm_compute; reflexivity) v Hv) as H.
  apply andb_true_iff in H as [H1 H2]. apply Z.eqb_eq in H2. auto.
Qed.

Lemma rgbToHsl_grey v :
  byte v ->
  rgbToHsl (Num v) (Num v) (Num v)
  = (0%float, 0%float, ((unit_of v + unit_of v) / 2)%float).
Proof.
  intros Hv. unfold rgbToHsl. fold (unit_of v). cbv zeta.
  rewrite !Math_max_same, !Math_min_same.
  rewrite (proj1 (grey_component v Hv)). reflexivity.
Qed.

Lemma sat_pixel_grey_fixed factor v :
  byte v -> not_finite factor = false -> sat_pixel factor v v v = (v, v, v).
Proof.
  intros Hv Hf. unfold sat_pixel. rewrite (rgbToHsl_grey v Hv).
  rewrite zero_mul, Hf.
  assert (Hs : Math_max 0 (Math_min 1 (if get_sign_of factor
                                       then neg_zero else zero)) = 0%float)
    by (destruct (get_sign_of factor); reflexivity).
  rewrite Hs. unfold hslToRgb. change (0 =? 0)%float with true. cbv iota.
  rewrite (proj2 (grey_component v Hv)). reflexivity.
Qed.

Lemma sat_loop_grey_fixed factor src :
  whole_pixels src -> Forall byte src -> grey_pixels src ->
  not_finite factor = false -> sat_loop factor src = src.
Proof.
  intros Hpix Hsrc Hgrey Hf.
  induction src as [l Hl | r g b a rest IH] using pixel_ind.
  - rewrite (whole_pixels_short l Hpix Hl). reflexivity.
  - inversion_clear Hsrc as [|? ? Hr H1]. inversion_clear H1 as [|? ? _ H2].
    inversion_clear H2 as [|? ? _ H3]. inversion_clear H3 as [|? ? _ H4].
    cbn [grey_pixels] in Hgrey. destruct Hgrey as (-> & -> & Hgrey).
    cbn [sat_loop]. rewrite (sat_pixel_grey_fixed factor b) by assumption.
    rewrite (IH (whole_pixels_tail _ _ _ _ _ Hpix) H4 Hgrey). reflexivity.
Qed.

(** A grey image (every pixel with [r = g = b]) is returned unchanged by
    [applySaturation], for every setting whose factor is finite. *)
Theorem saturation_keeps_grey (img : ImageData) (saturationPct : float) :
  wf_image img -> grey_pixels (data img) ->
  not_finite (saturation_factor saturationPct) = false ->
  applySaturation img saturationPct = img.
Proof.
  intros Hwf Hgrey Hf. unfold applySaturation.
  destruct (saturationPct =? 0)%float; [reflexivity|].
  rewrite (sat_loop_grey_fixed _ _ (wf_whole_pixels _ Hwf)
             (proj2 (proj2 (proj2 Hwf))) Hgrey Hf).
  destruct img; reflexivity.
Qed.

Lemma saturation_keeps_grey_witness :
  wf_image grey_image /\ grey_pixels (data grey_image) /\
  not_finite (saturation_factor 80) = false /\
  applySaturation grey_image 80 = grey_image.
Proof.
  assert (Hwf : wf_image grey_image).
  { unfold wf_image, byte; simpl. repeat split; try lia.
    repeat constructor; lia. }
  assert (Hgrey : grey_pixels (data grey_image)) by (simpl; auto).
  split; [exact Hwf|]. split; [exact Hgrey|]. split; [reflexivity|].
  exact (saturation_keeps_grey grey_image 80 Hwf Hgrey eq_refl).
Defined.

(** ** What [rgbToHsl] returns *)

Lemma byte_max x y : byte x -> byte y -> byte (Z.max x y).
Proof. unfold byte. lia. Qed.

Lemma byte_min x y : byte x -> byte y -> byte (Z.min x y).
Proof. unfold byte. lia. Qed.

Lemma extremes_exact x y :
  byte x -> byte y ->
  Math_max (unit_of x) (unit_of y) = unit_of (Z.max x y)
  /\ Math_min (unit_of x) (unit_of y) = unit_of (Z.min x y).
Proof.
  intros Hx Hy.
  pose proof (forall_number_pairs extremes_ok ltac:(vm_compute; reflexivity)
                x y Hx Hy) as H.
  unfold extremes_ok in H. cbn [fst snd] in H.
  apply andb_true_iff in H as [H1 H2].
  apply FloatAxioms.Leibniz.eqb_spec in H1, H2.
  fold (unit_of x) (unit_of y) in H1, H2.
  destruct (x <=? y) eqn:E; [apply Z.leb_le in E | apply Z.leb_gt in E].
  - rewrite Z.max_r, Z.min_l by lia. auto.
  - rewrite Z.max_l, Z.min_r by lia. auto.
Qed.

Lemma hsl_of_extremes M m :
  byte M -> byte m -> m <= M ->
  let l := hsl_l (unit_of M) (unit_of m) in
  let s := hsl_s (unit_of M) (unit_of m) in
  ((0 <=? l)%float = true /\ (l <=? 1)%float = true)
  /\ ((0 <=? s)%float = true /\ (s <=? 1)%float = true)
  /\ (m < M -> (0.5 <? l)%float = false -> s = 1%float).
Proof.
  intros HM Hm Hle.
  pose proof (forall_number_pairs hsl_ok ltac:(vm_compute; reflexivity)
                M m HM Hm) as H.
  unfold hsl_ok in H. cbn [fst snd] in H.
  fold (unit_of M) (unit_of m) in H.
  replace (m <=? M) with true in H by (symmetry; apply Z.leb_le; lia).
  cbv zeta in H |- *.
  apply andb_true_iff in H as [H H5]. apply andb_true_iff in H as [H H4].
  apply andb_true_iff in H as [H H3]. apply andb_true_iff in H as [H1 H2].
  repeat split; try assumption.
  intros Hlt Hdark.
  replace (m <? M) with true in H5 by (symmetry; apply Z.ltb_lt; lia).
  rewrite Hdark in H5. cbn [negb andb] in H5.
  apply FloatAxioms.Leibniz.eqb_spec, H5.
Qed.

(** For every pixel, [rgbToHsl] returns a lightness and a saturation in
    [[0, 1]]; for a grey pixel the saturation and the hue are 0; and for
    every other pixel whose lightness is not above 0.5 the saturation is
    exactly 1, since the code divides [d] by [max - min] there. *)
Theorem rgbToHsl_ranges (r g b : Z) :
  byte r -> byte g -> byte b ->
  let h := (rgbToHsl (Num r) (Num g) (Num b)).1.1 in
  let s := (rgbToHsl (Num r) (Num g) (Num b)).1.2 in
  let l := (rgbToHsl (Num r) (Num g) (Num b)).2 in
  ((0 <=? l)%float = true /\ (l <=? 1)%float = true)
  /\ ((0 <=? s)%float = true /\ (s <=? 1)%float = true)
  /\ (r = g /\ g = b -> s = 0%float /\ h = 0%float)
  /\ (~ (r = g /\ g = b) -> (0.5 <? l)%float = false -> s = 1%float).
Proof.
  intros Hr Hg Hb. cbv zeta.
  destruct (rgbToHsl_sl (Num r) (Num g) (Num b)) as [Hs Hl].
  fold (unit_of r) (unit_of g) (unit_of b) in Hs, Hl.
  destruct (extremes_exact r g Hr Hg) as [Hmax1 Hmin1].
  rewrite Hmax1, Hmin1 in Hs, Hl.
  destruct (extremes_exact _ b (byte_max r g Hr Hg) Hb) as [Hmax2 _].
  destruct (extremes_exact _ b (byte_min r g Hr Hg) Hb) as [_ Hmin2].
  rewrite Hmax2, Hmin2 in Hs, Hl.
  set (M := Z.max (Z.max r g) b) in *. set (m := Z.min (Z.min r g) b) in *.
  assert (HM : byte M) by (subst M; unfold byte in *; lia).
  assert (Hm : byte m) by (subst m; unfold byte in *; lia).
  assert (Hle : m <= M) by (subst M m; lia).
  destruct (hsl_of_extremes M m HM Hm Hle) as (Hlr & Hsr & Hdark).
  rewrite Hs, Hl.
  split; [exact Hlr|]. split; [exact Hsr|]. split.
  - intros [-> ->]. rewrite <- Hs.
    rewrite (rgbToHsl_grey b Hb). auto.
  - intros Hne. apply Hdark. subst M m. lia.
Qed.

Lemma rgbToHsl_ranges_witness :
  byte 10 /\ byte 200 /\
  (rgbToHsl (Num 10) (Num 200) (Num 10)).1.2 = 1%float.
Proof.
  assert (H10 : byte 10) by (unfold byte; lia).
  assert (H200 : byte 200) by (unfold byte; lia).
  split; [exact H10|]. split; [exact H200|].
  refine (proj2 (proj2 (proj2 (rgbToHsl_ranges 10 200 10 H10 H200 H10))) _ _).
  - lia.
  - reflexivity.
Defined.

(** ** The blur kernel and a NaN sigma *)

Lemma pos_lt_pow_digits p : Z.pos p < 2 ^ Z.pos (digits2_pos p).
Proof.
  induction p as [p IH | p IH |]; cbn [digits2_pos];
    rewrite ?Pos2Z.inj_succ, ?Z.pow_succ_r by lia; lia.
Qed.

(** The mantissa of a number has at most 53 bits. *)
Lemma mantissa_bound x s m e :
  Prim2SF x = S754_finite s m e -> Z.pos m < 2 ^ 53.
Proof.
  intros Hx. pose proof (Prim2SF_valid x) as Hv. rewrite Hx in Hv.
  unfold SpecFloat.valid_binary, bounded, canonical_mantissa in Hv.
  apply andb_true_iff in Hv as [Hc _]. apply Z.eqb_eq in Hc.
  unfold fexp, FloatOps.prec in Hc.
  assert (Hd : Z.pos (digits2_pos m) <= 53) by lia.
  pose proof (pos_lt_pow_digits m) as Hm.
  assert (Hp : 2 ^ Z.pos (digits2_pos m) <= 2 ^ 53)
    by (apply Z.pow_le_mono_r; lia).
  lia.
Qed.

(** A number that is not above 20 and stands for an integer stands for one
    that is at most 20. *)
Lemma to_int_at_most_20 c z :
  (20 <? c)%float = false -> to_int c = Some z -> z <= 20.
Proof.
  rewrite ltb_spec. unfold to_int.
  destruct (Prim2SF c) as [s|s| |s m e] eqn:Hc; try discriminate.
  - intros _ [= <-]. lia.
  - pose proof (mantissa_bound c s m e Hc) as Hm.
    change (Prim2SF 20) with (S754_finite false 5629499534213120 (-48)).
    unfold SFltb, SFcompare.
    destruct s.
    + (* a negative number *)
      intros _. cbn [cond_Zopp].
      destruct (0 <=? e) eqn:He.
      * intros [= <-]. apply Z.leb_le in He.
        assert (0 < 2 ^ e) by (apply Z.pow_pos_nonneg; lia). nia.
      * destruct (_ =? 0); [|discriminate]. intros [= <-].
        apply Z.leb_gt in He.
        assert (0 < 2 ^ (- e)) by (apply Z.pow_pos_nonneg; lia).
        assert (Z.neg m / 2 ^ (- e) < 0)
          by (apply Z.div_lt_upper_bound; lia).
        lia.
    + cbn [cond_Zopp].
      destruct (-48 ?= e) eqn:Hcmp; try discriminate.
      * (* the exponent of 20 *)
        apply Z.compare_eq in Hcmp. subst e.
        rewrite Pos.compare_cont_spec. cbn [Pos.switch_Eq].
        destruct (5629499534213120 ?= m)%positive eqn:Hm20; try discriminate;
          intros _; change (0 <=? -48) with false; cbv iota;
          (destruct (_ =? 0); [|discriminate]); intros [= <-];
          [apply Pos.compare_eq in Hm20; subst m; vm_compute; discriminate|].
        apply Pos.compare_gt_iff in Hm20.
        change 20 with (Z.pos 5629499534213120 / 2 ^ (- -48)).
        apply Z.div_le_mono; [reflexivity|].
        apply Pos2Z.pos_le_pos, Pos.lt_le_incl, Hm20.
      * (* a smaller exponent *)
        apply Z.compare_gt_iff in Hcmp. intros _.
        replace (0 <=? e) with false by (symmetry; apply Z.leb_gt; lia).
        destruct (_ =? 0); [|discriminate]. intros [= <-].
        assert (H49 : 2 ^ 49 <= 2 ^ (- e)) by (apply Z.pow_le_mono_r; lia).
        assert (Hq : Z.pos m / 2 ^ (- e) <= Z.pos m / 2 ^ 49)
          by (apply Z.div_le_compat_l; lia).
        assert (Hq2 : Z.pos m / 2 ^ 49 < 2 ^ 4).
        { apply Z.div_lt_upper_bound; [lia|].
          change (2 ^ 49 * 2 ^ 4) with (2 ^ 53). exact Hm. }
        change (2 ^ 4) with 16 in Hq2. lia.
Qed.

Lemma kernel_radius_at_most_20 sigma z :
  to_int (kernel_radius sigma) = Some z -> z <= 20.
Proof.
  unfold kernel_radius. generalize (Math_ceil (sigma * 3)%float) as c.
  intros c.
  assert (Hmin : forall z, to_int (Math_min 20 c) = Some z -> z <= 20).
  { intros z'. unfold Math_min. change (is_nan 20) with false. cbv iota.
    destruct (is_nan c) eqn:Hn.
    - apply is_nan_true in Hn. subst c. discriminate.
    - destruct (20 <? c)%float eqn:H20;
        [change (to_int 20) with (Some 20); intros [= <-]; lia|].
      destruct (c <? 20)%float; [apply to_int_at_most_20, H20|].
      change (get_sign 20) with false. cbv iota.
      apply to_int_at_most_20, H20. }
  revert Hmin. generalize (Math_min 20 c) as y. intros y Hmin.
  unfold Math_max. change (is_nan 1) with false. cbv iota.
  destruct (is_nan y); [apply Hmin|].
  destruct (1 <? y)%float; [apply Hmin|].
  destruct (y <? 1)%float;
    [change (to_int 1) with (Some 1); intros [= <-]; lia|].
  change (get_sign 1) with false. cbv iota.
  change (to_int 1) with (Some 1). intros [= <-]. lia.
Qed.

(** The kernel has at most 41 weights, whatever [sigma] is: the radius is
    capped at 20. *)
Theorem kernel_at_most_41_taps (Math_exp : float -> float) (sigma : float) :
  (length (makeGaussianKernel Math_exp sigma).1 <= 41)%nat.
Proof.
  unfold makeGaussianKernel.
  destruct (sigma <=? 0.1)%float; [simpl; lia|].
  cbn [fst]. rewrite !length_map. unfold offsets.
  destruct (to_int (kernel_radius sigma)) as [r|] eqn:Hr; [|simpl; lia].
  apply kernel_radius_at_most_20 in Hr. rewrite length_seqZ. lia.
Qed.

Lemma flat_map_replicate {A B} (l : list A) (k : nat) (b : B) :
  flat_map (fun _ => replicate k b) l = replicate (k * length l) b.
Proof.
  induction l as [|x l IH]; simpl.
  - rewrite Nat.mul_0_r. reflexivity.
  - rewrite IH, <- replicate_add. f_equal. lia.
Qed.

Lemma zero_pass kernel radius buf (at_k : Z -> Z -> Z -> Z) w h :
  flat_map (fun y =>
    flat_map (fun x => conv_pixel kernel radius [] buf (at_k y x)) (seqZ 0 w))
    (seqZ 0 h)
  = replicate (4 * Z.to_nat w * Z.to_nat h) 0.
Proof.
  change (fun y => flat_map
            (fun x => conv_pixel kernel radius [] buf (at_k y x)) (seqZ 0 w))
    with (fun _ : Z => flat_map (fun _ : Z => replicate 4 0) (seqZ 0 w)).
  rewrite (flat_map_replicate (seqZ 0 w) 4 0).
  rewrite (flat_map_replicate (seqZ 0 h)), !length_seqZ. reflexivity.
Qed.

(** [applyGaussianBlur] does not validate [sigmaPx]: for NaN the guard
    [sigmaPx <= 0.1] is false, the kernel is empty, and every byte of the
    result, alpha included, is 0. *)
Theorem blur_nan_zeroes (Math_exp : float -> float) (img : ImageData)
  (sigmaPx : float) :
  wf_image img -> is_nan sigmaPx = true ->
  applyGaussianBlur Math_exp img sigmaPx
  = mkImageData (replicate (length (data img)) 0) (width img) (height img).
Proof.
  intros (Hw & Hh & Hlen & _) Hn. apply is_nan_true in Hn. subst sigmaPx.
  unfold applyGaussianBlur, makeGaussianKernel.
  change (nan <=? 0.1)%float with false. cbv iota.
  change (kernel_radius nan) with nan.
  change (offsets nan) with (@nil Z). cbn [map fold_left].
  unfold vertical_pass. rewrite zero_pass. do 2 f_equal.
  apply Nat2Z.inj. rewrite Hlen, !Nat2Z.inj_mul, !Z2Nat.id by assumption.
  reflexivity.
Qed.

Lemma blur_nan_zeroes_witness :
  wf_image sample_image /\ is_nan nan = true /\
  applyGaussianBlur Math_id sample_image nan
  = mkImageData (replicate 16 0) 2 2.
Proof.
  split; [exact sample_image_wf|]. split; [reflexivity|].
  exact (blur_nan_zeroes Math_id sample_image nan sample_image_wf eq_refl).
Defined.

(** ** The editor: zoom and the number box of a slider *)

Lemma compare_eq_finite s m e y :
  SFcompare (S754_finite s m e) y = Some Eq -> y = S754_finite s m e.
Proof.
  destruct y as [s'|s'| |s' m' e']; simpl; try discriminate.
  - destruct s; discriminate.
  - destruct s, s'; discriminate.
  - destruct s, s'; try discriminate;
      destruct (e ?= e') eqn:He; try discriminate;
      apply Z.compare_eq in He; subst e'; intros [= H].
    + apply (f_equal CompOpp) in H. rewrite CompOpp_involutive in H.
      apply Pos.compare_eq in H. subst m'. reflexivity.
    + apply Pos.compare_eq in H. subst m'. reflexivity.
Qed.

(** Two numbers that compare equal are the same number when one of them is
    finite and not a zero. *)
Lemma leb_not_ltb_same x y s m e :
  Prim2SF x = S754_finite s m e ->
  (x <=? y)%float = true -> (x <? y)%float = false -> y = x.
Proof.
  rewrite leb_spec, ltb_spec. unfold SFleb, SFltb. intros Hx. rewrite Hx.
  destruct (SFcompare _ _) as [[| |]|] eqn:Hc; try discriminate.
  intros _ _. apply compare_eq_finite in Hc. apply Prim2SF_inj. congruence.
Qed.

(** [clampZoom] keeps the zoom between 0.1 and 8 for every number that is
    not NaN, and leaves a zoom in that range as it is. *)
Theorem clampZoom_within (z : float) :
  is_nan z = false ->
  ((0.1 <=? clampZoom z)%float = true /\ (clampZoom z <=? 8)%float = true)
  /\ ((0.1 <=? z)%float = true -> (z <=? 8)%float = true -> clampZoom z = z).
Proof.
  intros Hz. unfold clampZoom.
  assert (Hy : is_nan (Math_max 0.1 z) = false
               /\ (0.1 <=? Math_max 0.1 z)%float = true
               /\ ((0.1 <=? z)%float = true -> Math_max 0.1 z = z)).
  { unfold Math_max. change (is_nan 0.1) with false. rewrite Hz. cbv iota.
    destruct (0.1 <? z)%float eqn:H1.
    - split; [exact Hz|]. split; [apply ltb_leb, H1 | reflexivity].
    - change (get_sign 0.1) with false. cbv iota.
      assert (E : (if (z <? 0.1)%float then 0.1%float else 0.1%float)
                  = 0.1%float) by (destruct (z <? 0.1)%float; reflexivity).
      rewrite E. split; [reflexivity|]. split; [reflexivity|].
      intros Hlo. symmetry.
      eapply leb_not_ltb_same; [reflexivity | exact Hlo | exact H1]. }
  revert Hy. generalize (Math_max 0.1 z) as y. intros y (Hn & Hlo & Hsame).
  assert (Hmin : (0.1 <=? Math_min 8 y)%float = true
                 /\ (Math_min 8 y <=? 8)%float = true
                 /\ ((y <=? 8)%float = true -> Math_min 8 y = y)).
  { unfold Math_min. change (is_nan 8) with false. rewrite Hn. cbv iota.
    destruct (8 <? y)%float eqn:H1.
    - split; [reflexivity|]. split; [reflexivity|].
      intros H. rewrite (leb_ltb_false _ _ H) in H1. discriminate H1.
    - change (get_sign 8) with false. cbv iota.
      assert (E : (if (y <? 8)%float then y else y) = y)
        by (destruct (y <? 8)%float; reflexivity).
      rewrite E. split; [exact Hlo|].
      split; [apply ltb_false_leb; [reflexivity | exact Hn | exact H1]
             | reflexivity]. }
  destruct Hmin as (H1 & H2 & H3). split; [split; assumption|].
  intros Hzlo Hzhi. specialize (Hsame Hzlo). subst y. apply H3, Hzhi.
Qed.

Lemma clampZoom_within_witness :
  is_nan 12.5 = false /\
  (0.1 <=? clampZoom 12.5)%float = true /\ (clampZoom 12.5 <=? 8)%float = true.
Proof.
  split; [reflexivity|].
  exact (proj1 (clampZoom_within 12.5 eq_refl)).
Defined.

(** Between bounds [min <= max], [commit] hands a number to [onChange] only
    when the text parsed to one (not NaN); the number it hands on lies in
    [[min, max]], and a number already in the range is handed on as typed. *)
Theorem commit_within (mn mx n v : float) :
  (mn <=? mx)%float = true -> commit mn mx n = Some v ->
  is_nan n = false
  /\ ((mn <=? v)%float = true /\ (v <=? mx)%float = true)
  /\ ((mn <=? n)%float = true -> (n <=? mx)%float = true -> v = n).
Proof.
  intros Hb. destruct (leb_not_nan _ _ Hb) as [Hmn Hmx]. unfold commit.
  destruct (is_nan n) eqn:Hn; [discriminate|]. cbv zeta.
  destruct (n <? mn)%float eqn:H1.
  - rewrite (leb_ltb_false _ _ Hb). intros [= <-]. split; [reflexivity|].
    split; [split; [apply leb_refl, Hmn | exact Hb]|].
    intros Hlo. rewrite (leb_ltb_false _ _ Hlo) in H1. discriminate H1.
  - destruct (mx <? n)%float eqn:H2; intros [= <-]; (split; [reflexivity|]).
    + split; [split; [exact Hb | apply leb_refl, Hmx]|].
      intros _ Hhi. rewrite (leb_ltb_false _ _ Hhi) in H2. discriminate H2.
    + split; [split; apply ltb_false_leb; assumption | reflexivity].
Qed.

Lemma commit_within_witness :
  (-100 <=? 100)%float = true /\ commit (-100) 100 250 = Some 100%float
  /\ (-100 <=? 100)%float = true /\ (100 <=? 100)%float = true.
Proof.
  split; [reflexivity|]. split; [reflexivity|].
  exact (proj1 (proj2 (commit_within (-100) 100 250 100 eq_refl eq_refl))).
Defined.

(** * The blur kernel: rounding analysis

    The weights are computed in floating point: each operation is within
    one unit in the last place of the exact result. The lemmas below
    bound that error, over [SpecFloat], for the operations the kernel and
    the convolution use. *)

(** ** Rounding of [SpecFloat], at the level of integers *)

Lemma digits2_pos_bounds p :
  2 ^ (Z.pos (digits2_pos p) - 1) <= Z.pos p < 2 ^ Z.pos (digits2_pos p).
Proof.
  induction p as [p IH | p IH |]; cbn [digits2_pos].
  - rewrite Pos2Z.inj_succ.
    replace (Z.succ (Z.pos (digits2_pos p)) - 1) with (Z.succ (Z.pos (digits2_pos p) - 1)) by lia.
    rewrite !Z.pow_succ_r by lia. lia.
  - rewrite Pos2Z.inj_succ.
    replace (Z.succ (Z.pos (digits2_pos p)) - 1) with (Z.succ (Z.pos (digits2_pos p) - 1)) by lia.
    rewrite !Z.pow_succ_r by lia. lia.
  - simpl. lia.
Qed.

Lemma Zdigits2_nonneg m : 0 <= Zdigits2 m.
Proof. destruct m; simpl; lia. Qed.

Lemma Zdigits2_bounds m :
  0 < m -> 2 ^ (Zdigits2 m - 1) <= m < 2 ^ Zdigits2 m.
Proof.
  destruct m as [|p|p]; try lia. intros _. apply digits2_pos_bounds.
Qed.

(** The number of digits is the only [d] with [2^(d-1) <= m < 2^d]. *)
Lemma Zdigits2_unique m d :
  0 < m -> 2 ^ (d - 1) <= m < 2 ^ d -> Zdigits2 m = d.
Proof.
  intros Hm [Hlo Hhi]. pose proof (Zdigits2_bounds m Hm) as [Hlo' Hhi'].
  pose proof (Zdigits2_nonneg m) as Hd.
  assert (0 < d).
  { destruct (Z.le_gt_cases d 0) as [H|H]; [|exact H].
    assert (2 ^ d <= 2 ^ 0) by (destruct (Z.lt_ge_cases d 0);
      [rewrite Z.pow_neg_r by lia; simpl; lia | apply Z.pow_le_mono_r; lia]).
    simpl in *. lia. }
  assert (0 < Zdigits2 m).
  { destruct m; simpl in *; lia. }
  destruct (Z.lt_trichotomy (Zdigits2 m) d) as [H1|[H1|H1]]; [|exact H1|].
  - assert (2 ^ Zdigits2 m <= 2 ^ (d - 1)) by (apply Z.pow_le_mono_r; lia). lia.
  - assert (2 ^ d <= 2 ^ (Zdigits2 m - 1)) by (apply Z.pow_le_mono_r; lia). lia.
Qed.

Lemma Zdigits2_shift m k :
  0 < m -> 0 <= k -> Zdigits2 (m * 2 ^ k) = Zdigits2 m + k.
Proof.
  intros Hm Hk. pose proof (Zdigits2_bounds m Hm) as [Hlo Hhi].
  assert (0 < Zdigits2 m) by (destruct m; simpl in *; lia).
  assert (0 < 2 ^ k) by (apply Z.pow_pos_nonneg; lia).
  apply Zdigits2_unique; [nia|].
  replace (Zdigits2 m + k - 1) with (Zdigits2 m - 1 + k) by lia.
  rewrite !Z.pow_add_r by lia. nia.
Qed.

Lemma Zdigits2_le m d : 0 <= d -> 0 <= m < 2 ^ d -> Zdigits2 m <= d.
Proof.
  intros Hd [Hm Hlt]. destruct (Z.eq_dec m 0) as [->|Hne]; [simpl; lia|].
  pose proof (Zdigits2_bounds m ltac:(lia)) as [Hlo _].
  destruct (Z.le_gt_cases (Zdigits2 m) d) as [H|H]; [exact H|].
  assert (2 ^ d <= 2 ^ (Zdigits2 m - 1)) by (apply Z.pow_le_mono_r; lia). lia.
Qed.

(** *** Shifting right *)

Lemma shr_1_m r : 0 <= shr_m r -> shr_m (shr_1 r) = shr_m r / 2.
Proof.
  destruct r as [m rb sb]. cbn [shr_m]. intros Hm.
  destruct m as [|[p|p|]|p]; cbn [shr_1 shr_m].
  - reflexivity.
  - rewrite Pos2Z.inj_xI. apply Z.div_unique with 1; lia.
  - rewrite Pos2Z.inj_xO. apply Z.div_unique with 0; lia.
  - reflexivity.
  - lia.
Qed.

Lemma iter_shr_1_m p : forall r,
  0 <= shr_m r -> shr_m (SpecFloat.iter_pos shr_1 p r) = shr_m r / 2 ^ Z.pos p.
Proof.
  assert (Hnn : forall r, 0 <= shr_m r -> 0 <= shr_m (shr_1 r)).
  { intros r Hr. rewrite shr_1_m by exact Hr. apply Z.div_pos; lia. }
  induction p as [p IH | p IH |]; intros r Hr; cbn [SpecFloat.iter_pos].
  - assert (H1 : 0 <= shr_m (shr_1 r)) by auto.
    assert (H2 : 0 <= shr_m (SpecFloat.iter_pos shr_1 p (shr_1 r))).
    { rewrite IH by exact H1. apply Z.div_pos; [exact H1|]. apply Z.pow_pos_nonneg; lia. }
    rewrite IH by exact H2. rewrite IH by exact H1. rewrite shr_1_m by exact Hr.
    rewrite !Z.div_div by (try apply Z.pow_pos_nonneg; lia).
    f_equal. replace (Z.pos p~1) with (1 + Z.pos p + Z.pos p) by lia.
    rewrite !Z.pow_add_r by lia. lia.
  - assert (H2 : 0 <= shr_m (SpecFloat.iter_pos shr_1 p r)).
    { rewrite IH by exact Hr. apply Z.div_pos; [exact Hr|]. apply Z.pow_pos_nonneg; lia. }
    rewrite IH by exact H2. rewrite IH by exact Hr.
    rewrite !Z.div_div by (try apply Z.pow_pos_nonneg; lia).
    f_equal. replace (Z.pos p~0) with (Z.pos p + Z.pos p) by lia.
    rewrite !Z.pow_add_r by lia. lia.
  - rewrite shr_1_m by exact Hr. reflexivity.
Qed.

Lemma shr_m_spec r e n :
  0 <= shr_m r ->
  shr_m (fst (shr r e n)) = shr_m r / 2 ^ Z.max 0 n
  /\ snd (shr r e n) = e + Z.max 0 n.
Proof.
  intros Hr. destruct n as [|p|p]; cbn [shr fst snd].
  - rewrite Z.div_1_r. split; [reflexivity | simpl; lia].
  - rewrite iter_shr_1_m by exact Hr. split; [reflexivity | lia].
  - rewrite Z.div_1_r. split; [reflexivity | simpl; lia].
Qed.

Lemma shr_record_of_loc_m m l : shr_m (shr_record_of_loc m l) = m.
Proof. destruct l as [|[| |]]; reflexivity. Qed.

Lemma loc_of_shr_record_of_loc m l :
  loc_of_shr_record (shr_record_of_loc m l) = l.
Proof. destruct l as [|[| |]]; reflexivity. Qed.

Lemma round_nearest_even_cases m l :
  round_nearest_even m l = m \/ round_nearest_even m l = m + 1.
Proof.
  destruct l as [|[| |]]; cbn [round_nearest_even]; auto.
  destruct (Z.even m); auto.
Qed.

Section Round.

Variables prec emax : Z.
Hypothesis Hprec : 0 < prec.

Local Abbreviation fexp := (SpecFloat.fexp prec emax).
Local Abbreviation emin := (SpecFloat.emin prec emax).

Lemma fexp_ge_emin k : emin <= fexp k.
Proof. unfold SpecFloat.fexp. lia. Qed.

Lemma fexp_ge k : k - prec <= fexp k.
Proof. unfold SpecFloat.fexp. lia. Qed.

Lemma fexp_cases k : fexp k = k - prec \/ fexp k = emin.
Proof. unfold SpecFloat.fexp. lia. Qed.

(** The two stages of [binary_round_aux]: a shift by [n1] bits to the
    exponent [fexp], the rounding of the last bit, and a shift by one more
    bit when the rounding carried into a new digit. *)
Lemma binary_round_aux_spec sx mx ex lx :
  0 <= mx ->
  exists m2 n2,
    (m2 = mx / 2 ^ Z.max 0 (fexp (Zdigits2 mx + ex) - ex)
     \/ m2 = mx / 2 ^ Z.max 0 (fexp (Zdigits2 mx + ex) - ex) + 1)
    /\ (lx = loc_Exact -> fexp (Zdigits2 mx + ex) <= ex -> m2 = mx)
    /\ (n2 = 0 \/ n2 = 1) /\ m2 = (m2 / 2 ^ n2) * 2 ^ n2
    /\ (m2 < 2 ^ prec -> n2 = 0)
    /\ m2 <= 2 ^ prec
    /\ m2 / 2 ^ n2 < 2 ^ prec
    /\ emin <= ex + Z.max 0 (fexp (Zdigits2 mx + ex) - ex)
    /\ binary_round_aux prec emax sx mx ex lx =
       match m2 / 2 ^ n2 with
       | 0 => S754_zero sx
       | Z.pos m =>
           if ex + Z.max 0 (fexp (Zdigits2 mx + ex) - ex) + n2 <=? emax - prec
           then S754_finite sx m (ex + Z.max 0 (fexp (Zdigits2 mx + ex) - ex) + n2)
           else S754_infinity sx
       | Z.neg _ => S754_nan
       end.
Proof.
  intros Hmx. unfold binary_round_aux, shr_fexp.
  set (n := fexp (Zdigits2 mx + ex) - ex).
  pose proof (shr_m_spec (shr_record_of_loc mx lx) ex n) as H1.
  rewrite shr_record_of_loc_m in H1. specialize (H1 Hmx).
  destruct (shr (shr_record_of_loc mx lx) ex n) as [mrs' e'] eqn:E1.
  cbn [fst snd] in H1. destruct H1 as [Hm1 He1].
  set (m2 := round_nearest_even (shr_m mrs') (loc_of_shr_record mrs')).
  assert (Hpow1 : 0 < 2 ^ Z.max 0 n) by (apply Z.pow_pos_nonneg; lia).
  assert (Hm1nn : 0 <= shr_m mrs') by (rewrite Hm1; apply Z.div_pos; lia).
  assert (Hm1lt : shr_m mrs' < 2 ^ prec).
  { rewrite Hm1. destruct (Z.eq_dec mx 0) as [->|Hne].
    - rewrite Z.div_0_l by lia. apply Z.pow_pos_nonneg; lia.
    - pose proof (Zdigits2_bounds mx ltac:(lia)) as [_ Hhi].
      pose proof (Zdigits2_nonneg mx) as Hd.
      apply Z.div_lt_upper_bound; [exact Hpow1|].
      rewrite <- Z.pow_add_r by lia.
      apply Z.lt_le_trans with (1 := Hhi). apply Z.pow_le_mono_r; [lia|].
      pose proof (fexp_ge (Zdigits2 mx + ex)). lia. }
  assert (Hm2 : m2 = shr_m mrs' \/ m2 = shr_m mrs' + 1)
    by apply round_nearest_even_cases.
  assert (Hm2nn : 0 <= m2) by lia.
  assert (Hm2le : m2 <= 2 ^ prec) by lia.
  assert (He1min : emin <= e').
  { rewrite He1. pose proof (fexp_ge_emin (Zdigits2 mx + ex)). lia. }
  set (n' := fexp (Zdigits2 m2 + e') - e').
  pose proof (shr_m_spec (shr_record_of_loc m2 loc_Exact) e' n') as H2.
  rewrite shr_record_of_loc_m in H2. specialize (H2 Hm2nn).
  destruct (shr (shr_record_of_loc m2 loc_Exact) e' n') as [mrs'' e''] eqn:E2.
  cbn [fst snd] in H2. destruct H2 as [Hm3 He3].
  assert (Hd2 : Zdigits2 m2 <= prec + 1).
  { apply Zdigits2_le; [lia|]. split; [exact Hm2nn|].
    rewrite Z.pow_add_r by lia. simpl. lia. }
  assert (Hn' : Z.max 0 n' = 0 \/ Z.max 0 n' = 1).
  { subst n'. destruct (fexp_cases (Zdigits2 m2 + e')) as [->| ->]; lia. }
  exists m2, (Z.max 0 n').
  split; [rewrite <- Hm1; exact Hm2|].
  split.
  { intros -> Hle. subst m2.
    assert (Hn0 : Z.max 0 n = 0) by (subst n; lia).
    assert (mrs' = shr_record_of_loc mx loc_Exact).
    { subst n. destruct (fexp (Zdigits2 mx + ex) - ex) eqn:En; try lia;
        cbn [shr] in E1; congruence. }
    subst mrs'. reflexivity. }
  split; [exact Hn'|].
  assert (Hlt0 : m2 < 2 ^ prec -> Z.max 0 n' = 0).
  { intros Hlt. subst n'.
    assert (Zdigits2 m2 <= prec) by (apply Zdigits2_le; lia).
    destruct (fexp_cases (Zdigits2 m2 + e')) as [->| ->]; lia. }
  split.
  { destruct Hn' as [->| Hn1]; [rewrite Z.div_1_r; lia|].
    rewrite Hn1. destruct (Z.eq_dec m2 (2 ^ prec)) as [->|Hne].
    - replace prec with (1 + (prec - 1)) by lia.
      rewrite Z.pow_add_r by lia. change (2 ^ 1) with 2.
      rewrite Z.mul_comm, Z.div_mul by lia. lia.
    - specialize (Hlt0 ltac:(lia)). lia. }
  split; [exact Hlt0|]. split; [exact Hm2le|].
  split.
  { destruct (Z.eq_dec m2 (2 ^ prec)) as [E|Hne].
    - assert (Hn1 : Z.max 0 n' = 1).
      { subst n'. rewrite E.
        assert (Hd : Zdigits2 (2 ^ prec) = prec + 1).
        { apply Zdigits2_unique; [apply Z.pow_pos_nonneg; lia|].
          replace (prec + 1 - 1) with prec by lia.
          rewrite Z.pow_add_r by lia. simpl.
          assert (0 < 2 ^ prec) by (apply Z.pow_pos_nonneg; lia). lia. }
        rewrite Hd. pose proof (fexp_ge (prec + 1 + e')).
        destruct (fexp_cases (prec + 1 + e')) as [E1'|E1']; rewrite E1' in *; lia. }
      rewrite Hn1, E. replace prec with (1 + (prec - 1)) at 1 by lia.
      rewrite Z.pow_add_r by lia. change (2 ^ 1) with 2.
      rewrite Z.mul_comm, Z.div_mul by lia.
      apply Z.pow_lt_mono_r; lia.
    - rewrite (Hlt0 ltac:(lia)). rewrite Z.div_1_r. lia. }
  split; [rewrite <- He1; exact He1min|].
  rewrite Hm3, He3, He1. reflexivity.
Qed.

End Round.

(** ** The numbers floats stand for *)

Lemma pow2_pos e : (0 < pow2 e)%R.
Proof. apply powerRZ_lt. lra. Qed.

Lemma pow2_add a b : (pow2 (a + b) = pow2 a * pow2 b)%R.
Proof. apply powerRZ_add. lra. Qed.

Lemma pow2_IZR e : 0 <= e -> pow2 e = IZR (2 ^ e).
Proof.
  intros He. unfold pow2. rewrite <- (Z2Nat.id e He).
  rewrite <- pow_powerRZ.
  induction (Z.to_nat e) as [|n IH]; [reflexivity|].
  rewrite Nat2Z.inj_succ, Z.pow_succ_r by lia.
  rewrite mult_IZR. simpl. rewrite IH. reflexivity.
Qed.

Lemma pow2_le a b : a <= b -> (pow2 a <= pow2 b)%R.
Proof.
  intros H. replace b with (a + (b - a)) by lia. rewrite pow2_add.
  rewrite (pow2_IZR (b - a)) by lia.
  assert (H1 : (1 <= IZR (2 ^ (b - a)))%R).
  { apply IZR_le. assert (0 < 2 ^ (b - a)) by (apply Z.pow_pos_nonneg; lia). lia. }
  pose proof (pow2_pos a). nra.
Qed.

Lemma pow2_lt a b : a < b -> (pow2 a < pow2 b)%R.
Proof.
  intros H. replace b with (a + (b - a)) by lia. rewrite pow2_add.
  rewrite (pow2_IZR (b - a)) by lia.
  assert (H1 : (2 <= IZR (2 ^ (b - a)))%R).
  { apply IZR_le. replace (b - a) with (1 + (b - a - 1)) by lia.
    rewrite Z.pow_add_r by lia.
    assert (0 < 2 ^ (b - a - 1)) by (apply Z.pow_pos_nonneg; lia). lia. }
  pose proof (pow2_pos a). nra.
Qed.

Lemma pow2_0 : pow2 0 = 1%R.
Proof. reflexivity. Qed.

Lemma pow2_1 : pow2 1 = 2%R.
Proof. unfold pow2. simpl. lra. Qed.

Lemma Rabs_le_inv (a b : R) : (Rabs a <= b -> - b <= a <= b)%R.
Proof. unfold Rabs. destruct (Rcase_abs a); lra. Qed.

(** Floor division by a power of two, in the reals. *)
Lemma div_pow2_bounds m n :
  0 <= m -> 0 <= n ->
  (IZR (m / 2 ^ n) * pow2 n <= IZR m
   /\ IZR m + 1 <= (IZR (m / 2 ^ n) + 1) * pow2 n)%R.
Proof.
  intros Hm Hn. rewrite (pow2_IZR n Hn).
  assert (Hp : 0 < 2 ^ n) by (apply Z.pow_pos_nonneg; lia).
  pose proof (Z.div_mod m (2 ^ n) ltac:(lia)) as Hdm.
  pose proof (Z.mod_pos_bound m (2 ^ n) Hp) as Hmod.
  assert (H1 : m / 2 ^ n * 2 ^ n <= m) by nia.
  assert (H2 : m + 1 <= (m / 2 ^ n + 1) * 2 ^ n) by nia.
  apply IZR_le in H1, H2.
  rewrite mult_IZR in H1. rewrite plus_IZR, mult_IZR, plus_IZR in H2.
  split; lra.
Qed.

Section RoundR.

Variables prec emax : Z.
Hypothesis Hprec : 0 < prec.

Local Abbreviation fexp := (SpecFloat.fexp prec emax).
Local Abbreviation emin := (SpecFloat.emin prec emax).

(** What [binary_round_aux] returns for a number [X] with
    [mx * 2^ex <= X < (mx + 1) * 2^ex]: a float of magnitude [r] within
    one unit in the last place of [X], or an infinity when [r] is too
    large. *)
Lemma binary_round_aux_val sx mx ex lx (X : R) :
  0 <= mx ->
  (IZR mx * pow2 ex <= X < (IZR mx + 1) * pow2 ex)%R ->
  exists r : R,
    (0 <= r)%R
    /\ (Rabs (r - X) <= pow2 (Z.max ex (fexp (Zdigits2 mx + ex))))%R
    /\ (lx = loc_Exact -> fexp (Zdigits2 mx + ex) <= ex ->
        r = (IZR mx * pow2 ex)%R)
    /\ ((binary_round_aux prec emax sx mx ex lx = S754_infinity sx
         /\ (pow2 (emax - prec) < r)%R)
        \/ (SFfin (binary_round_aux prec emax sx mx ex lx) = true
            /\ SFsign (binary_round_aux prec emax sx mx ex lx) = sx
            /\ SFval (binary_round_aux prec emax sx mx ex lx)
               = (sgn sx * r)%R)).
Proof.
  intros Hmx [HX1 HX2].
  destruct (binary_round_aux_spec prec emax Hprec sx mx ex lx Hmx)
    as (m2 & n2 & Hm2 & Hex & Hn2 & Hdiv & _ & Hm2le & _ & _ & Heq).
  set (n1 := Z.max 0 (fexp (Zdigits2 mx + ex) - ex)) in *.
  assert (Hn1 : 0 <= n1) by (subst n1; lia).
  assert (HE : Z.max ex (fexp (Zdigits2 mx + ex)) = ex + n1) by (subst n1; lia).
  rewrite HE.
  destruct (div_pow2_bounds mx n1 Hmx Hn1) as [Hd1 Hd2].
  set (m1 := mx / 2 ^ n1) in *.
  assert (Hm1 : 0 <= m1) by (apply Z.div_pos; [lia | apply Z.pow_pos_nonneg; lia]).
  pose proof (pow2_pos ex) as Hpex. pose proof (pow2_pos n1) as Hpn1.
  assert (Hlo : (IZR m1 * pow2 (ex + n1) <= X)%R).
  { rewrite pow2_add. nra. }
  assert (Hhi : (X < (IZR m1 + 1) * pow2 (ex + n1))%R).
  { rewrite pow2_add. nra. }
  exists (IZR m2 * pow2 (ex + n1))%R.
  pose proof (pow2_pos (ex + n1)) as Hpe1.
  assert (Hm2nn : 0 <= m2) by lia.
  assert (HIm2 : (IZR m2 = IZR m1 \/ IZR m2 = IZR m1 + 1)%R).
  { destruct Hm2 as [->| ->]; [left; reflexivity | right].
    rewrite plus_IZR. reflexivity. }
  split; [apply Rmult_le_pos; [apply IZR_le; lia | lra]|].
  split.
  { apply Rabs_le. destruct HIm2 as [->| ->]; nra. }
  split.
  { intros Hl Hf. rewrite (Hex Hl Hf).
    replace n1 with 0 by (subst n1; lia). rewrite Z.add_0_r. reflexivity. }
  assert (Hn2nn : 0 <= n2) by lia.
  assert (Hm3 : 0 <= m2 / 2 ^ n2)
    by (apply Z.div_pos; [lia | apply Z.pow_pos_nonneg; lia]).
  assert (Hr : (IZR m2 * pow2 (ex + n1) = IZR (m2 / 2 ^ n2) * pow2 (ex + n1 + n2))%R).
  { rewrite Hdiv at 1. rewrite mult_IZR, (pow2_add (ex + n1) n2).
    rewrite (pow2_IZR n2 Hn2nn). ring. }
  rewrite Heq. destruct (m2 / 2 ^ n2) as [|m|m] eqn:Em3; [| |lia].
  - right. cbn [SFfin SFsign SFval]. split; [reflexivity|].
    split; [reflexivity|]. rewrite Hr. ring.
  - destruct (ex + n1 + n2 <=? emax - prec) eqn:Ele.
    + right. cbn [SFfin SFsign SFval]. split; [reflexivity|].
      split; [reflexivity|]. rewrite Hr. unfold sgn. destruct sx; ring.
    + left. split; [reflexivity|]. rewrite Hr.
      apply Z.leb_gt in Ele.
      assert (H1 : (pow2 (emax - prec) < pow2 (ex + n1 + n2))%R)
        by (apply pow2_lt; lia).
      assert (H2 : (1 <= IZR (Z.pos m))%R) by (apply IZR_le; lia).
      pose proof (pow2_pos (ex + n1 + n2)). nra.
Qed.

(** The unit in the last place against the number itself. *)
Lemma pow2_fexp_le mx ex :
  0 < mx ->
  (pow2 (fexp (Zdigits2 mx + ex))
   <= IZR mx * pow2 ex * pow2 (1 - prec) + pow2 emin)%R.
Proof.
  intros Hmx. pose proof (Zdigits2_bounds mx Hmx) as [Hlo _].
  pose proof (pow2_pos emin). pose proof (pow2_pos ex).
  pose proof (pow2_pos (1 - prec)).
  assert (0 < Zdigits2 mx) by (destruct mx; simpl in *; lia).
  destruct (fexp_cases prec emax (Zdigits2 mx + ex)) as [->| ->].
  - replace (Zdigits2 mx + ex - prec) with ((Zdigits2 mx - 1) + ex + (1 - prec)) by lia.
    rewrite !pow2_add. rewrite (pow2_IZR (Zdigits2 mx - 1)) by lia.
    apply IZR_le in Hlo.
    rewrite !Rmult_assoc.
    assert (0 < pow2 ex * pow2 (1 - prec))%R by (apply Rmult_lt_0_compat; lra).
    generalize dependent (pow2 ex * pow2 (1 - prec))%R. intros P HP.
    nra.
  - assert (0 <= IZR mx)%R by (apply IZR_le; lia).
    assert (0 <= IZR mx * pow2 ex * pow2 (1 - prec))%R
      by (repeat apply Rmult_le_pos; lra).
    lra.
Qed.

End RoundR.

Lemma iter_xO mx d : Z.pos (Pos.iter xO mx d) = Z.pos mx * 2 ^ Z.pos d.
Proof.
  induction d as [|d IH] using Pos.peano_ind.
  - simpl. lia.
  - rewrite Pos.iter_succ, Pos2Z.inj_xO, IH, Pos2Z.inj_succ, Z.pow_succ_r by lia.
    lia.
Qed.

Lemma shl_align_spec mx ex ex' :
  snd (shl_align mx ex ex') = Z.min ex ex'
  /\ Z.pos (fst (shl_align mx ex ex'))
     = Z.pos mx * 2 ^ (ex - Z.min ex ex').
Proof.
  unfold shl_align. destruct (ex' - ex) as [|d|d] eqn:Ed; cbn [fst snd].
  - replace (Z.min ex ex') with ex by lia. rewrite Z.sub_diag. simpl. lia.
  - replace (Z.min ex ex') with ex by lia. rewrite Z.sub_diag. simpl. lia.
  - replace (Z.min ex ex') with ex' by lia. rewrite iter_xO.
    replace (ex - ex') with (Z.pos d) by lia. lia.
Qed.

(** The value of a mantissa aligned to a smaller exponent is unchanged. *)
Lemma shl_align_val mx ex ex' :
  (IZR (Z.pos (fst (shl_align mx ex ex'))) * pow2 (snd (shl_align mx ex ex'))
   = IZR (Z.pos mx) * pow2 ex)%R.
Proof.
  destruct (shl_align_spec mx ex ex') as [-> ->].
  rewrite mult_IZR, <- pow2_IZR by lia.
  rewrite Rmult_assoc, <- pow2_add. f_equal. f_equal. lia.
Qed.

Section RoundV.

Variables prec emax : Z.
Hypothesis Hprec : 0 < prec.

Local Abbreviation fexp := (SpecFloat.fexp prec emax).
Local Abbreviation emin := (SpecFloat.emin prec emax).

(** A finite result of a rounding has a mantissa below [2^prec] and an
    exponent between [emin] and [emax - prec]. *)
Lemma binary_round_aux_finite sx mx ex lx s m e :
  0 <= mx ->
  binary_round_aux prec emax sx mx ex lx = S754_finite s m e ->
  s = sx /\ Z.pos m < 2 ^ prec /\ emin <= e <= emax - prec.
Proof.
  intros Hmx.
  destruct (binary_round_aux_spec prec emax Hprec sx mx ex lx Hmx)
    as (m2 & n2 & _ & _ & Hn2 & _ & _ & _ & Hlt & Hmin & ->).
  destruct (m2 / 2 ^ n2) as [|p|p]; try discriminate.
  destruct (_ <=? _) eqn:Ele; try discriminate.
  intros [= <- <- <-]. apply Z.leb_le in Ele. split; [reflexivity | lia].
Qed.

Lemma binary_round_aux_shape sx mx ex lx :
  0 <= mx ->
  binary_round_aux prec emax sx mx ex lx = S754_zero sx
  \/ binary_round_aux prec emax sx mx ex lx = S754_infinity sx
  \/ exists m e, binary_round_aux prec emax sx mx ex lx = S754_finite sx m e.
Proof.
  intros Hmx.
  destruct (binary_round_aux_spec prec emax Hprec sx mx ex lx Hmx)
    as (m2 & n2 & Hm2 & _ & Hn2 & _ & _ & _ & _ & _ & ->).
  assert (H0 : 0 <= m2 / 2 ^ n2).
  { apply Z.div_pos; [|apply Z.pow_pos_nonneg; lia].
    assert (0 <= mx / 2 ^ Z.max 0 (fexp (Zdigits2 mx + ex) - ex))
      by (apply Z.div_pos; [lia | apply Z.pow_pos_nonneg; lia]).
    lia. }
  destruct (m2 / 2 ^ n2) as [|p|p]; [auto| |lia].
  destruct (_ <=? _); eauto.
Qed.

Lemma binary_round_aux_not_nan sx mx ex lx :
  0 <= mx -> binary_round_aux prec emax sx mx ex lx <> S754_nan.
Proof.
  intros Hmx.
  destruct (binary_round_aux_val prec emax Hprec sx mx ex lx (IZR mx * pow2 ex)%R Hmx)
    as (r & _ & _ & _ & [[-> _]|[H _]]); try discriminate.
  - pose proof (pow2_pos ex). nra.
  - intros E. rewrite E in H. discriminate H.
Qed.

(** [binary_round]: the rounding of [mx * 2^ex]. *)
Lemma binary_round_val sx mx ex :
  exists r : R,
    (0 <= r)%R
    /\ (Rabs (r - IZR (Z.pos mx) * pow2 ex)
        <= IZR (Z.pos mx) * pow2 ex * pow2 (1 - prec) + pow2 emin)%R
    /\ (emin <= ex ->
        (Rabs (r - IZR (Z.pos mx) * pow2 ex)
         <= IZR (Z.pos mx) * pow2 ex * pow2 (1 - prec))%R)
    /\ (fexp (Z.pos (digits2_pos mx) + ex) <= ex ->
        r = (IZR (Z.pos mx) * pow2 ex)%R)
    /\ ((binary_round prec emax sx mx ex = S754_infinity sx
         /\ (pow2 (emax - prec) < r)%R)
        \/ (SFfin (binary_round prec emax sx mx ex) = true
            /\ SFsign (binary_round prec emax sx mx ex) = sx
            /\ SFval (binary_round prec emax sx mx ex) = (sgn sx * r)%R)).
Proof.
  unfold binary_round.
  pose proof (shl_align_spec mx ex (fexp (Z.pos (digits2_pos mx) + ex))) as [He Hm].
  pose proof (shl_align_val mx ex (fexp (Z.pos (digits2_pos mx) + ex))) as Hv.
  destruct (shl_align mx ex (fexp (Z.pos (digits2_pos mx) + ex))) as [mz ez].
  cbn [fst snd] in He, Hm, Hv.
  set (f := fexp (Z.pos (digits2_pos mx) + ex)) in *.
  assert (Hd : Zdigits2 (Z.pos mz) + ez = Z.pos (digits2_pos mx) + ex).
  { rewrite Hm. rewrite Zdigits2_shift by lia. cbn [Zdigits2]. lia. }
  pose proof (pow2_pos ez) as Hpez.
  destruct (binary_round_aux_val prec emax Hprec sx (Z.pos mz) ez loc_Exact
              (IZR (Z.pos mz) * pow2 ez)%R ltac:(lia) ltac:(split; nra))
    as (r & Hr0 & Hr1 & Hr2 & Hr3).
  rewrite Hd in Hr1, Hr2. fold f in Hr1, Hr2.
  replace (Z.max ez f) with f in Hr1 by lia.
  rewrite Hv in Hr1, Hr2.
  exists r. split; [exact Hr0|].
  pose proof (pow2_fexp_le prec emax (Z.pos mx) ex ltac:(lia)) as Hf.
  cbn [Zdigits2] in Hf. fold f in Hf.
  split; [lra|].
  split.
  { intros Hmin. destruct (Z.le_gt_cases f ex) as [Hle|Hgt].
    - rewrite (Hr2 eq_refl ltac:(lia)).
      replace (IZR (Z.pos mx) * pow2 ex - IZR (Z.pos mx) * pow2 ex)%R with 0%R by ring.
      rewrite Rabs_R0.
      assert (0 <= IZR (Z.pos mx))%R by (apply IZR_le; lia).
      pose proof (pow2_pos ex). pose proof (pow2_pos (1 - prec)).
      repeat apply Rmult_le_pos; lra.
    - eapply Rle_trans; [exact Hr1|].
      assert (Hfe : f = Z.pos (digits2_pos mx) + ex - prec).
      { destruct (fexp_cases prec emax (Z.pos (digits2_pos mx) + ex)) as [E|E];
          fold f in E; lia. }
      rewrite Hfe.
      pose proof (digits2_pos_bounds mx) as [Hlo _].
      replace (Z.pos (digits2_pos mx) + ex - prec)
        with ((Z.pos (digits2_pos mx) - 1) + (ex + (1 - prec))) by lia.
      rewrite pow2_add, (pow2_add ex), (pow2_IZR (Z.pos (digits2_pos mx) - 1)) by lia.
      apply IZR_le in Hlo. rewrite Rmult_assoc.
      apply Rmult_le_compat_r; [|exact Hlo].
      apply Rlt_le, Rmult_lt_0_compat; apply pow2_pos. }
  split.
  { intros Hle. apply (Hr2 eq_refl). lia. }
  exact Hr3.
Qed.

End RoundV.

Lemma binary_round_finite pr em sx mx ex s m e :
  0 < pr ->
  binary_round pr em sx mx ex = S754_finite s m e ->
  s = sx /\ Z.pos m < 2 ^ pr /\ SpecFloat.emin pr em <= e <= em - pr.
Proof.
  intros Hpr. unfold binary_round.
  destruct (shl_align mx ex _) as [mz ez].
  apply binary_round_aux_finite; [exact Hpr | lia].
Qed.

Section Ops.

Variables prec emax : Z.
Hypothesis Hprec : 0 < prec.

Local Abbreviation fexp := (SpecFloat.fexp prec emax).
Local Abbreviation emin := (SpecFloat.emin prec emax).

Lemma sgn_abs s : Rabs (sgn s) = 1%R.
Proof. destruct s; unfold sgn; [rewrite Rabs_left | rewrite Rabs_right]; lra. Qed.

Lemma rounds_to_magnitude t sx (z : spec_float) (r X' X : R) :
  (0 <= r)%R -> (0 <= X')%R -> (0 <= t)%R ->
  (Rabs (r - X') <= X' * pow2 (1 - prec) + t)%R ->
  X = (sgn sx * X')%R ->
  (z = S754_infinity sx /\ (pow2 (emax - prec) < r)%R)
  \/ (SFfin z = true /\ SFsign z = sx /\ SFval z = (sgn sx * r)%R) ->
  rounds_to prec emax t z X.
Proof.
  intros Hr HX' Ht Hab -> H.
  assert (HabsX : Rabs (sgn sx * X') = X').
  { rewrite Rabs_mult, sgn_abs, Rabs_right; lra. }
  pose proof (pow2_pos (1 - prec)).
  apply Rabs_le_inv in Hab.
  destruct H as [[-> Hbig]|(Hfin & _ & Hval)].
  - right. split; [eauto|]. rewrite HabsX. nra.
  - left. split; [exact Hfin|]. rewrite Hval, HabsX.
    replace (sgn sx * r - sgn sx * X')%R with (sgn sx * (r - X'))%R by ring.
    rewrite Rabs_mult, sgn_abs, Rmult_1_l. apply Rabs_le. lra.
Qed.

(** [binary_normalize]: the rounding of [m * 2^e] for a signed [m]. *)
Lemma binary_normalize_val m e s0 :
  emin <= e ->
  rounds_to prec emax 0 (binary_normalize prec emax m e s0) (IZR m * pow2 e)%R.
Proof.
  intros He. pose proof (pow2_pos e) as Hpe.
  destruct m as [|p|p]; cbn [binary_normalize].
  - left. cbn [SFfin SFval]. split; [reflexivity|].
    rewrite Rmult_0_l, Rminus_0_r, Rabs_R0. lra.
  - destruct (binary_round_val prec emax Hprec false p e)
      as (r & Hr0 & _ & Hrel & _ & Hres).
    assert (0 <= IZR (Z.pos p))%R by (apply IZR_le; lia).
    apply (rounds_to_magnitude 0 false _ r (IZR (Z.pos p) * pow2 e)%R);
      [exact Hr0 | nra | lra | specialize (Hrel He); lra
      | unfold sgn; ring | exact Hres].
  - destruct (binary_round_val prec emax Hprec true p e)
      as (r & Hr0 & _ & Hrel & _ & Hres).
    assert (0 <= IZR (Z.pos p))%R by (apply IZR_le; lia).
    apply (rounds_to_magnitude 0 true _ r (IZR (Z.pos p) * pow2 e)%R);
      [exact Hr0 | nra | lra | specialize (Hrel He); lra | | exact Hres].
    unfold sgn. change (Z.neg p) with (- Z.pos p). rewrite opp_IZR. ring.
Qed.

(** The same for an exponent below [emin], where the rounding also loses
    up to [2^emin]. *)
Lemma binary_normalize_val_gen m e s0 :
  rounds_to prec emax (pow2 emin) (binary_normalize prec emax m e s0) (IZR m * pow2 e)%R.
Proof.
  pose proof (pow2_pos e) as Hpe. pose proof (pow2_pos emin) as Hpm.
  destruct m as [|p|p]; cbn [binary_normalize].
  - left. cbn [SFfin SFval]. split; [reflexivity|].
    rewrite Rmult_0_l, Rminus_0_r, Rabs_R0. lra.
  - destruct (binary_round_val prec emax Hprec false p e)
      as (r & Hr0 & Hgen & _ & _ & Hres).
    assert (0 <= IZR (Z.pos p))%R by (apply IZR_le; lia).
    apply (rounds_to_magnitude (pow2 emin) false _ r (IZR (Z.pos p) * pow2 e)%R);
      [exact Hr0 | nra | lra | exact Hgen | unfold sgn; ring | exact Hres].
  - destruct (binary_round_val prec emax Hprec true p e)
      as (r & Hr0 & Hgen & _ & _ & Hres).
    assert (0 <= IZR (Z.pos p))%R by (apply IZR_le; lia).
    apply (rounds_to_magnitude (pow2 emin) true _ r (IZR (Z.pos p) * pow2 e)%R);
      [exact Hr0 | nra | lra | exact Hgen | | exact Hres].
    unfold sgn. change (Z.neg p) with (- Z.pos p). rewrite opp_IZR. ring.
Qed.

Lemma binary_normalize_finite m e s0 s' m' e' :
  binary_normalize prec emax m e s0 = S754_finite s' m' e' ->
  Z.pos m' < 2 ^ prec /\ emin <= e' <= emax - prec.
Proof.
  destruct m as [|p|p]; cbn [binary_normalize]; try discriminate;
    intros H; apply binary_round_finite in H; try exact Hprec; tauto.
Qed.

Lemma shl_align_fst_val mx ex ez :
  ez <= ex ->
  (IZR (Z.pos (fst (shl_align mx ex ez))) * pow2 ez = IZR (Z.pos mx) * pow2 ex)%R.
Proof.
  intros H. pose proof (shl_align_val mx ex ez) as Hv.
  destruct (shl_align_spec mx ex ez) as [Hs _].
  rewrite Hs in Hv. replace (Z.min ex ez) with ez in Hv by lia. exact Hv.
Qed.

Lemma cond_Zopp_IZR s m : IZR (cond_Zopp s m) = (sgn s * IZR m)%R.
Proof. destruct s; unfold sgn; cbn [cond_Zopp]; [rewrite opp_IZR|]; ring. Qed.

Lemma aligned_val s mx ex ez :
  ez <= ex ->
  (IZR (cond_Zopp s (Z.pos (fst (shl_align mx ex ez)))) * pow2 ez
   = SFval (S754_finite s mx ex))%R.
Proof.
  intros H. rewrite cond_Zopp_IZR, Rmult_assoc, (shl_align_fst_val mx ex ez H).
  cbn [SFval]. unfold sgn. destruct s; ring.
Qed.

Lemma rounds_to_exact z : SFfin z = true -> rounds_to prec emax 0 z (SFval z).
Proof.
  intros H. left. split; [exact H|].
  rewrite Rminus_diag, Rabs_R0. pose proof (pow2_pos (1 - prec)).
  pose proof (Rabs_pos (SFval z)). nra.
Qed.

Lemma SFadd_val x y :
  SFfin x = true -> SFfin y = true -> SFwf prec emax x -> SFwf prec emax y ->
  rounds_to prec emax 0 (SFadd prec emax x y) (SFval x + SFval y)%R.
Proof.
  destruct x as [sx|sx| |sx mx ex], y as [sy|sy| |sy my ey];
    try discriminate; intros _ _ Hx Hy; cbn [SFadd].
  - replace (SFval (S754_zero sx) + SFval (S754_zero sy))%R with 0%R
      by (cbn [SFval]; ring).
    destruct sx, sy; apply (rounds_to_exact (S754_zero _)); reflexivity.
  - replace (SFval (S754_zero sx) + SFval (S754_finite sy my ey))%R
      with (SFval (S754_finite sy my ey)) by (cbn [SFval]; ring).
    apply rounds_to_exact. reflexivity.
  - replace (SFval (S754_finite sx mx ex) + SFval (S754_zero sy))%R
      with (SFval (S754_finite sx mx ex)) by (cbn [SFval]; ring).
    apply rounds_to_exact. reflexivity.
  - cbn [SFwf] in Hx, Hy. cbv zeta.
    rewrite <- (aligned_val sx mx ex (Z.min ex ey)) by lia.
    rewrite <- (aligned_val sy my ey (Z.min ex ey)) by lia.
    rewrite <- Rmult_plus_distr_r, <- plus_IZR.
    apply binary_normalize_val. lia.
Qed.

Lemma SFsub_val x y :
  SFfin x = true -> SFfin y = true -> SFwf prec emax x -> SFwf prec emax y ->
  rounds_to prec emax 0 (SFsub prec emax x y) (SFval x - SFval y)%R.
Proof.
  destruct x as [sx|sx| |sx mx ex], y as [sy|sy| |sy my ey];
    try discriminate; intros _ _ Hx Hy; cbn [SFsub].
  - replace (SFval (S754_zero sx) - SFval (S754_zero sy))%R with 0%R
      by (cbn [SFval]; ring).
    destruct sx, sy; apply (rounds_to_exact (S754_zero _)); reflexivity.
  - replace (SFval (S754_zero sx) - SFval (S754_finite sy my ey))%R
      with (SFval (S754_finite (negb sy) my ey))
      by (cbn [SFval]; destruct sy; cbn [negb]; ring).
    apply rounds_to_exact. reflexivity.
  - replace (SFval (S754_finite sx mx ex) - SFval (S754_zero sy))%R
      with (SFval (S754_finite sx mx ex)) by (cbn [SFval]; ring).
    apply rounds_to_exact. reflexivity.
  - cbn [SFwf] in Hx, Hy. cbv zeta.
    rewrite <- (aligned_val sx mx ex (Z.min ex ey)) by lia.
    rewrite <- (aligned_val sy my ey (Z.min ex ey)) by lia.
    rewrite <- Rmult_minus_distr_r, <- minus_IZR.
    apply binary_normalize_val. lia.
Qed.

Lemma sgn_xorb a b : sgn (xorb a b) = (sgn a * sgn b)%R.
Proof. destruct a, b; unfold sgn; cbn [xorb]; ring. Qed.

Lemma SFmul_val x y :
  SFfin x = true -> SFfin y = true ->
  rounds_to prec emax (pow2 emin) (SFmul prec emax x y) (SFval x * SFval y)%R.
Proof.
  pose proof (pow2_pos emin) as Hpm. pose proof (pow2_pos (1 - prec)) as Hpu.
  assert (Hzero : forall s, rounds_to prec emax (pow2 emin) (S754_zero s) 0).
  { intros s. left. split; [reflexivity|]. cbn [SFval].
    rewrite Rminus_diag, Rabs_R0. lra. }
  destruct x as [sx|sx| |sx mx ex], y as [sy|sy| |sy my ey];
    try discriminate; intros _ _; cbn [SFmul].
  - replace (SFval (S754_zero sx) * SFval (S754_zero sy))%R with 0%R
      by (cbn [SFval]; ring). apply Hzero.
  - replace (SFval (S754_zero sx) * SFval (S754_finite sy my ey))%R with 0%R
      by (cbn [SFval]; ring). apply Hzero.
  - replace (SFval (S754_finite sx mx ex) * SFval (S754_zero sy))%R with 0%R
      by (cbn [SFval]; ring). apply Hzero.
  - set (X' := (IZR (Z.pos (mx * my)) * pow2 (ex + ey))%R).
    assert (HX' : (0 <= X')%R).
    { subst X'. apply Rmult_le_pos; [apply IZR_le; lia | apply Rlt_le, pow2_pos]. }
    pose proof (pow2_pos (ex + ey)) as Hpe.
    destruct (binary_round_aux_val prec emax Hprec (xorb sx sy)
                (Z.pos (mx * my)) (ex + ey) loc_Exact X' ltac:(lia)
                ltac:(subst X'; split; nra))
      as (r & Hr0 & Hr1 & Hr2 & Hres).
    apply (rounds_to_magnitude (pow2 emin) (xorb sx sy) _ r X');
      [exact Hr0 | exact HX' | lra | | | exact Hres].
    + destruct (Z.le_gt_cases (fexp (Zdigits2 (Z.pos (mx * my)) + (ex + ey)))
                  (ex + ey)) as [Hle|Hgt].
      * rewrite (Hr2 eq_refl Hle). fold X'.
        rewrite Rminus_diag, Rabs_R0. nra.
      * eapply Rle_trans; [exact Hr1|].
        rewrite Z.max_r by lia.
        apply (pow2_fexp_le prec emax (Z.pos (mx * my)) (ex + ey)). lia.
    + subst X'. cbn [SFval]. rewrite sgn_xorb, Pos2Z.inj_mul, mult_IZR, pow2_add.
      unfold sgn. destruct sx, sy; ring.
Qed.

End Ops.

Section Div.

Variables prec emax : Z.
Hypothesis Hprec : 0 < prec.

Local Abbreviation fexp := (SpecFloat.fexp prec emax).
Local Abbreviation emin := (SpecFloat.emin prec emax).

Lemma SFdiv_core_binary_spec mx ex my ey :
  exists l,
    SFdiv_core_binary prec emax (Z.pos mx) ex (Z.pos my) ey
    = (Z.pos mx * 2 ^ (ex - ey
                       - Z.min (fexp (Zdigits2 (Z.pos mx) + ex
                                      - (Zdigits2 (Z.pos my) + ey)))
                               (ex - ey))
       / Z.pos my,
       Z.min (fexp (Zdigits2 (Z.pos mx) + ex - (Zdigits2 (Z.pos my) + ey)))
             (ex - ey),
       l).
Proof.
  unfold SFdiv_core_binary.
  set (e' := Z.min (fexp (Zdigits2 (Z.pos mx) + ex - (Zdigits2 (Z.pos my) + ey)))
                   (ex - ey)).
  set (m' := match ex - ey - e' with
             | 0 => Z.pos mx
             | Z.pos _ => Z.shiftl (Z.pos mx) (ex - ey - e')
             | Z.neg _ => 0
             end).
  assert (Hm' : m' = Z.pos mx * 2 ^ (ex - ey - e')).
  { subst m'. assert (Hs : 0 <= ex - ey - e') by (subst e'; lia).
    destruct (ex - ey - e') as [|p|p] eqn:Es; [simpl; lia| |lia].
    rewrite Z.shiftl_mul_pow2 by lia. reflexivity. }
  rewrite <- Hm'. unfold Z.div.
  destruct (Z.div_eucl m' (Z.pos my)) as [q r]. eauto.
Qed.

Lemma SFdiv_val x sy my ey :
  SFfin x = true ->
  rounds_to prec emax (pow2 emin)
    (SFdiv prec emax x (S754_finite sy my ey))
    (SFval x / SFval (S754_finite sy my ey))%R.
Proof.
  pose proof (pow2_pos emin) as Hpm. pose proof (pow2_pos (1 - prec)) as Hpu.
  destruct x as [sx|sx| |sx mx ex]; try discriminate; intros _; cbn [SFdiv].
  - left. split; [reflexivity|]. cbn [SFval]. unfold Rdiv.
    rewrite Rmult_0_l, Rminus_diag, Rabs_R0. lra.
  - destruct (SFdiv_core_binary_spec mx ex my ey) as [l ->].
    set (k := Zdigits2 (Z.pos mx) + ex - (Zdigits2 (Z.pos my) + ey)).
    set (e' := Z.min (fexp k) (ex - ey)).
    set (s := ex - ey - e').
    assert (Hs : 0 <= s) by (subst s e'; lia).
    set (q := Z.pos mx * 2 ^ s / Z.pos my).
    assert (Hps : 0 < 2 ^ s) by (apply Z.pow_pos_nonneg; lia).
    assert (Hq : 0 <= q) by (subst q; apply Z.div_pos; lia).
    assert (Hmx : (0 < IZR (Z.pos mx))%R) by (apply IZR_lt; lia).
    assert (Hmy : (0 < IZR (Z.pos my))%R) by (apply IZR_lt; lia).
    set (X' := (IZR (Z.pos mx) / IZR (Z.pos my) * pow2 (ex - ey))%R).
    assert (HX'pos : (0 < X')%R).
    { subst X'. apply Rmult_lt_0_compat; [|apply pow2_pos].
      apply Rdiv_lt_0_compat; assumption. }
    assert (HX'e : X' = (IZR (Z.pos mx * 2 ^ s) / IZR (Z.pos my) * pow2 e')%R).
    { subst X'. replace (ex - ey) with (s + e') by (subst s; lia).
      rewrite pow2_add, mult_IZR, <- (pow2_IZR s Hs). field. lra. }
    pose proof (pow2_pos e') as Hpe'.
    assert (Hq1 : (IZR q * pow2 e' <= X')%R).
    { rewrite HX'e. apply Rmult_le_compat_r; [lra|].
      apply Rmult_le_reg_r with (IZR (Z.pos my)); [exact Hmy|].
      unfold Rdiv. rewrite Rmult_assoc, Rinv_l, Rmult_1_r by lra.
      rewrite <- mult_IZR. apply IZR_le.
      subst q. pose proof (Z.mul_div_le (Z.pos mx * 2 ^ s) (Z.pos my) ltac:(lia)).
      lia. }
    assert (Hq2 : (X' < (IZR q + 1) * pow2 e')%R).
    { rewrite HX'e. apply Rmult_lt_compat_r; [lra|].
      apply Rmult_lt_reg_r with (IZR (Z.pos my)); [exact Hmy|].
      unfold Rdiv. rewrite Rmult_assoc, Rinv_l, Rmult_1_r by lra.
      change 1%R with (IZR 1). rewrite <- plus_IZR, <- mult_IZR.
      apply IZR_lt. subst q.
      pose proof (Z.mul_succ_div_gt (Z.pos mx * 2 ^ s) (Z.pos my) ltac:(lia)).
      lia. }
    destruct (binary_round_aux_val prec emax Hprec (xorb sx sy) q e' l X' Hq
                (conj Hq1 Hq2)) as (r & Hr0 & Hr1 & _ & Hres).
    assert (He' : (pow2 e' <= X' * pow2 (1 - prec) + pow2 emin)%R).
    { destruct (fexp_cases prec emax k) as [Ek|Ek].
      - assert (Hle : e' <= k - 1 + (1 - prec)) by (subst e'; lia).
        apply pow2_le in Hle. rewrite pow2_add in Hle.
        assert (Hk : (pow2 (k - 1) <= X')%R).
        { subst X' k.
          pose proof (digits2_pos_bounds mx) as [Hlo1 _].
          pose proof (digits2_pos_bounds my) as [_ Hhi2].
          cbn [Zdigits2].
          replace (Z.pos (digits2_pos mx) + ex - (Z.pos (digits2_pos my) + ey) - 1)
            with ((Z.pos (digits2_pos mx) - 1) + (- Z.pos (digits2_pos my)) + (ex - ey))
            by lia.
          rewrite !pow2_add. apply Rmult_le_compat_r; [apply Rlt_le, pow2_pos|].
          unfold pow2 at 2. rewrite powerRZ_neg'. fold (pow2 (Z.pos (digits2_pos my))).
          rewrite !pow2_IZR by lia.
          apply IZR_le in Hlo1. apply IZR_lt in Hhi2.
          assert (0 < IZR (2 ^ (Z.pos (digits2_pos mx) - 1)))%R
            by (apply IZR_lt, Z.pow_pos_nonneg; lia).
          unfold Rdiv. apply Rmult_le_compat; try lra.
          - apply Rlt_le, Rinv_0_lt_compat. lra.
          - apply Rinv_le_contravar; lra. }
        nra.
      - assert (Hle : e' <= emin) by (subst e'; lia).
        apply pow2_le in Hle. nra. }
    apply (rounds_to_magnitude prec emax (pow2 emin) (xorb sx sy) _ r X');
      [exact Hr0 | lra | lra | | | exact Hres].
    + eapply Rle_trans; [exact Hr1|].
      destruct (Z.max_spec e' (fexp (Zdigits2 q + e'))) as [[_ ->]|[_ ->]];
        [|exact He'].
      destruct (Z.eq_dec q 0) as [E0|Hne].
      * rewrite E0. cbn [Zdigits2]. rewrite Z.add_0_l.
        destruct (fexp_cases prec emax e') as [->| ->].
        -- assert (Hle : (pow2 (e' - prec) <= pow2 e')%R) by (apply pow2_le; lia).
           lra.
        -- nra.
      * pose proof (pow2_fexp_le prec emax q e' ltac:(lia)) as Hf.
        assert (IZR q * pow2 e' * pow2 (1 - prec) <= X' * pow2 (1 - prec))%R
          by (apply Rmult_le_compat_r; lra).
        lra.
    + subst X'. cbn [SFval]. rewrite sgn_xorb.
      replace (ex - ey) with (ex + - ey) by lia. rewrite pow2_add.
      replace (pow2 (- ey)) with (/ pow2 ey)%R
        by (unfold pow2; rewrite powerRZ_neg'; reflexivity).
      pose proof (pow2_pos ey). pose proof (pow2_pos ex).
      unfold sgn. destruct sx, sy; field; lra.
Qed.

End Div.

(** ** Binary64: the numbers of the program *)

Lemma prec_pos : 0 < prec.
Proof. reflexivity. Qed.

(** What validity says of a mantissa and its exponent. *)
Lemma valid_finite s m e :
  valid_binary (S754_finite s m e) = true ->
  Z.pos (digits2_pos m) <= prec
  /\ emin <= e <= emax - prec
  /\ (Z.pos (digits2_pos m) = prec \/ e = emin).
Proof.
  cbn [valid_binary SpecFloat.valid_binary]. unfold bounded, canonical_mantissa.
  intros H. apply andb_true_iff in H as [H1 H2].
  apply Z.eqb_eq in H1. apply Z.leb_le in H2.
  unfold SpecFloat.fexp in H1. lia.
Qed.

Lemma prim_wf x : SFwf prec emax (Prim2SF x).
Proof.
  pose proof (Prim2SF_valid x) as H.
  destruct (Prim2SF x) as [| | |s m e]; cbn [SFwf]; try exact I.
  apply valid_finite in H. lia.
Qed.

(** *** Order *)

Lemma canonical_lt m1 e1 m2 e2 :
  valid_binary (S754_finite false m1 e1) = true ->
  valid_binary (S754_finite false m2 e2) = true ->
  e1 < e2 ->
  (IZR (Z.pos m1) * pow2 e1 < IZR (Z.pos m2) * pow2 e2)%R.
Proof.
  intros H1 H2 He.
  apply valid_finite in H1 as (Hd1 & Hb1 & _).
  apply valid_finite in H2 as (_ & Hb2 & Hc2).
  assert (Hd2 : Z.pos (digits2_pos m2) = prec) by lia.
  pose proof (digits2_pos_bounds m1) as [_ Hhi1].
  pose proof (digits2_pos_bounds m2) as [Hlo2 _]. rewrite Hd2 in Hlo2.
  assert (Hm1 : Z.pos m1 < 2 ^ prec).
  { eapply Z.lt_le_trans; [exact Hhi1|]. apply Z.pow_le_mono_r; lia. }
  apply IZR_lt in Hm1. apply IZR_le in Hlo2.
  rewrite <- pow2_IZR in Hm1, Hlo2 by (unfold prec; lia).
  pose proof (pow2_pos e1). pose proof (pow2_pos e2).
  apply Rlt_le_trans with (pow2 prec * pow2 e1)%R.
  - apply Rmult_lt_compat_r; lra.
  - apply Rle_trans with (pow2 (prec - 1) * pow2 e2)%R.
    + rewrite <- !pow2_add. apply pow2_le. lia.
    + apply Rmult_le_compat_r; lra.
Qed.

Lemma compare_cont_eq m1 m2 : Pos.compare_cont Eq m1 m2 = (m1 ?= m2)%positive.
Proof. reflexivity. Qed.

Lemma SFcompare_pos m1 e1 m2 e2 :
  valid_binary (S754_finite false m1 e1) = true ->
  valid_binary (S754_finite false m2 e2) = true ->
  match (match e1 ?= e2 with
         | Lt => Lt | Gt => Gt | Eq => Pos.compare_cont Eq m1 m2
         end) with
  | Lt => (IZR (Z.pos m1) * pow2 e1 < IZR (Z.pos m2) * pow2 e2)%R
  | Eq => (IZR (Z.pos m1) * pow2 e1 = IZR (Z.pos m2) * pow2 e2)%R
  | Gt => (IZR (Z.pos m2) * pow2 e2 < IZR (Z.pos m1) * pow2 e1)%R
  end.
Proof.
  intros H1 H2. destruct (e1 ?= e2) eqn:He.
  - apply Z.compare_eq in He. subst e2. rewrite compare_cont_eq.
    pose proof (pow2_pos e1).
    destruct (m1 ?= m2)%positive eqn:Hm.
    + apply Pos.compare_eq in Hm. subst. reflexivity.
    + pose proof (proj1 (Pos.compare_lt_iff _ _) Hm) as Hlt.
      apply Rmult_lt_compat_r; [lra | apply IZR_lt; lia].
    + pose proof (proj1 (Pos.compare_gt_iff _ _) Hm) as Hlt.
      apply Rmult_lt_compat_r; [lra | apply IZR_lt; lia].
  - apply Z.compare_lt_iff in He. apply canonical_lt; assumption.
  - apply Z.compare_gt_iff in He. apply canonical_lt; assumption.
Qed.

Lemma valid_sign s s' m e :
  valid_binary (S754_finite s m e) = valid_binary (S754_finite s' m e).
Proof. reflexivity. Qed.

(** On finite floats, [SFcompare] compares the numbers they stand for. *)
Lemma SFcompare_val x y :
  SFfin x = true -> SFfin y = true ->
  valid_binary x = true -> valid_binary y = true ->
  match SFcompare x y with
  | Some Lt => (SFval x < SFval y)%R
  | Some Eq => SFval x = SFval y
  | Some Gt => (SFval y < SFval x)%R
  | None => False
  end.
Proof.
  destruct x as [sx|sx| |sx mx ex], y as [sy|sy| |sy my ey];
    try discriminate; intros _ _ Hx Hy; cbn [SFcompare SFval].
  - reflexivity.
  - assert (0 < IZR (Z.pos my) * pow2 ey)%R
      by (apply Rmult_lt_0_compat; [apply IZR_lt; lia | apply pow2_pos]).
    destruct sy; nra.
  - assert (0 < IZR (Z.pos mx) * pow2 ex)%R
      by (apply Rmult_lt_0_compat; [apply IZR_lt; lia | apply pow2_pos]).
    destruct sx; nra.
  - assert (Hpx : (0 < IZR (Z.pos mx) * pow2 ex)%R)
      by (apply Rmult_lt_0_compat; [apply IZR_lt; lia | apply pow2_pos]).
    assert (Hpy : (0 < IZR (Z.pos my) * pow2 ey)%R)
      by (apply Rmult_lt_0_compat; [apply IZR_lt; lia | apply pow2_pos]).
    rewrite (valid_sign sx false) in Hx. rewrite (valid_sign sy false) in Hy.
    pose proof (SFcompare_pos mx ex my ey Hx Hy) as Hc.
    destruct sx, sy.
    + destruct (ex ?= ey); [destruct (Pos.compare_cont Eq mx my)| |];
        cbn [CompOpp]; lra.
    + lra.
    + lra.
    + destruct (ex ?= ey); [destruct (Pos.compare_cont Eq mx my)| |]; lra.
Qed.

Lemma fltb_val x y :
  ffin x = true -> ffin y = true ->
  ((x <? y)%float = true <-> (fval x < fval y)%R).
Proof.
  intros Hx Hy. rewrite ltb_spec. unfold SFltb, fval.
  pose proof (SFcompare_val _ _ Hx Hy (Prim2SF_valid x) (Prim2SF_valid y)) as H.
  destruct (SFcompare (Prim2SF x) (Prim2SF y)) as [[| |]|];
    split; intros; try discriminate; try reflexivity; try lra; contradiction.
Qed.

Lemma fleb_val x y :
  ffin x = true -> ffin y = true ->
  ((x <=? y)%float = true <-> (fval x <= fval y)%R).
Proof.
  intros Hx Hy. rewrite leb_spec. unfold SFleb, fval.
  pose proof (SFcompare_val _ _ Hx Hy (Prim2SF_valid x) (Prim2SF_valid y)) as H.
  destruct (SFcompare (Prim2SF x) (Prim2SF y)) as [[| |]|];
    split; intros; try discriminate; try reflexivity; try lra; contradiction.
Qed.

(** *** The operations *)

Lemma rounds_to_small pr em t z X :
  rounds_to pr em t z X ->
  102 <= em - pr -> 1 <= pr -> (t <= 1)%R -> (Rabs X <= pow2 100)%R ->
  SFfin z = true
  /\ (Rabs (SFval z - X) <= Rabs X * pow2 (1 - pr) + t)%R.
Proof.
  intros [H|[_ H]] He Hp Ht HX; [exact H|]. exfalso.
  assert (H1 : (pow2 (1 - pr) <= pow2 0)%R) by (apply pow2_le; lia).
  rewrite pow2_0 in H1.
  assert (H2 : (pow2 102 <= pow2 (em - pr))%R) by (apply pow2_le; lia).
  assert (H3 : pow2 102 = (4 * pow2 100)%R).
  { change 102 with (2 + 100). rewrite pow2_add. f_equal.
    unfold pow2. simpl. lra. }
  assert (H4 : (1 <= pow2 100)%R).
  { rewrite <- pow2_0. apply pow2_le. lia. }
  pose proof (Rabs_pos X). pose proof (pow2_pos (1 - pr)). nra.
Qed.

Lemma fadd_val x y :
  ffin x = true -> ffin y = true ->
  (Rabs (fval x + fval y) <= pow2 100)%R ->
  ffin (x + y) = true
  /\ (Rabs (fval (x + y) - (fval x + fval y))
      <= Rabs (fval x + fval y) * u64)%R.
Proof.
  intros Hx Hy Hs. unfold ffin, fval. rewrite add_spec. unfold SF64add.
  pose proof (SFadd_val prec emax prec_pos _ _ Hx Hy (prim_wf x) (prim_wf y)) as H.
  apply rounds_to_small in H; [|unfold emax, prec; lia | unfold prec; lia | lra | exact Hs].
  destruct H as [H1 H2]. split; [exact H1|].
  change (pow2 (1 - prec)) with u64 in H2. lra.
Qed.

Lemma fsub_val x y :
  ffin x = true -> ffin y = true ->
  (Rabs (fval x - fval y) <= pow2 100)%R ->
  ffin (x - y) = true
  /\ (Rabs (fval (x - y) - (fval x - fval y))
      <= Rabs (fval x - fval y) * u64)%R.
Proof.
  intros Hx Hy Hs. unfold ffin, fval. rewrite sub_spec. unfold SF64sub.
  pose proof (SFsub_val prec emax prec_pos _ _ Hx Hy (prim_wf x) (prim_wf y)) as H.
  apply rounds_to_small in H; [|unfold emax, prec; lia | unfold prec; lia | lra | exact Hs].
  destruct H as [H1 H2]. split; [exact H1|].
  change (pow2 (1 - prec)) with u64 in H2. lra.
Qed.

Lemma t64_le_1 : (t64 <= 1)%R.
Proof.
  unfold t64. rewrite <- pow2_0. apply pow2_le. lia.
Qed.

Lemma fmul_val x y :
  ffin x = true -> ffin y = true ->
  (Rabs (fval x * fval y) <= pow2 100)%R ->
  ffin (x * y) = true
  /\ (Rabs (fval (x * y) - fval x * fval y)
      <= Rabs (fval x * fval y) * u64 + t64)%R.
Proof.
  intros Hx Hy Hs. unfold ffin, fval. rewrite mul_spec. unfold SF64mul.
  pose proof (SFmul_val prec emax prec_pos _ _ Hx Hy) as H.
  apply rounds_to_small in H;
    [|unfold emax, prec; lia | unfold prec; lia | exact t64_le_1 | exact Hs].
  exact H.
Qed.

Lemma fdiv_val x y :
  ffin x = true -> ffin y = true -> fval y <> 0%R ->
  (Rabs (fval x / fval y) <= pow2 100)%R ->
  ffin (x / y) = true
  /\ (Rabs (fval (x / y) - fval x / fval y)
      <= Rabs (fval x / fval y) * u64 + t64)%R.
Proof.
  intros Hx Hy Hy0 Hs. unfold ffin, fval in *. rewrite div_spec. unfold SF64div.
  destruct (Prim2SF y) as [sy|sy| |sy my ey] eqn:Ey; try discriminate.
  - exfalso. apply Hy0. reflexivity.
  - pose proof (SFdiv_val prec emax prec_pos _ sy my ey Hx) as H.
    apply rounds_to_small in H;
      [|unfold emax, prec; lia | unfold prec; lia | exact t64_le_1 | exact Hs].
    exact H.
Qed.

(** *** From a spec float back to a number *)

Lemma SFopp_fin x : SFfin (SFopp x) = SFfin x.
Proof. destruct x; reflexivity. Qed.

Lemma SFopp_val x : SFval (SFopp x) = (- SFval x)%R.
Proof.
  destruct x as [| | |s m e]; cbn [SFopp SFval]; try lra.
  destruct s; cbn [negb]; ring.
Qed.

Lemma pow2_lt_inv a b : (pow2 a < pow2 b)%R -> a < b.
Proof.
  intros H. destruct (Z.lt_ge_cases a b) as [Hlt|Hge]; [exact Hlt|].
  apply pow2_le in Hge. lra.
Qed.

Lemma digits_le_53_lt m :
  Z.pos (digits2_pos m) <= 53 -> (IZR (Z.pos m) < pow2 53)%R.
Proof.
  intros Hd. pose proof (digits2_pos_bounds m) as [_ Hhi].
  rewrite pow2_IZR by lia. apply IZR_lt.
  eapply Z.lt_le_trans; [exact Hhi|]. apply Z.pow_le_mono_r; lia.
Qed.

(** The double that [SF2Prim] builds from a mantissa of at most 53 bits
    and an exponent well inside the range stands for the same number. *)
Lemma SF2Prim_val s m e :
  Z.pos (digits2_pos m) <= 53 -> -1000 <= e <= 900 ->
  ffin (SF2Prim (S754_finite s m e)) = true
  /\ fval (SF2Prim (S754_finite s m e)) = SFval (S754_finite s m e).
Proof.
  intros Hd He. cbn [SF2Prim]. cbv zeta.
  set (pm := of_uint63 (Uint63Axioms.of_Z (Z.pos m))).
  assert (Hm53 : (IZR (Z.pos m) < pow2 53)%R) by (apply digits_le_53_lt, Hd).
  assert (Hm1 : (1 <= IZR (Z.pos m))%R) by (apply IZR_le; lia).
  (* the mantissa as a double *)
  assert (Hpm : exists m1 e1,
             Prim2SF pm = S754_finite false m1 e1
             /\ (IZR (Z.pos m1) * pow2 e1 = IZR (Z.pos m))%R).
  { subst pm. rewrite of_uint63_spec, Uint63.of_Z_spec.
    rewrite Z.mod_small.
    2:{ split; [lia|]. pose proof (digits2_pos_bounds m) as [_ Hhi].
        eapply Z.lt_le_trans; [exact Hhi|].
        change Uint63Axioms.wB with (2 ^ 63). apply Z.pow_le_mono_r; lia. }
    cbn [binary_normalize].
    destruct (binary_round_val prec emax prec_pos false m 0)
      as (r & _ & _ & _ & Hex & Hres).
    rewrite pow2_0, Rmult_1_r in Hex.
    assert (Hr : r = IZR (Z.pos m)).
    { apply Hex. unfold SpecFloat.fexp, SpecFloat.emin, prec, emax. lia. }
    destruct Hres as [[_ Hbig]|(Hfin & Hsign & Hval)].
    - exfalso. rewrite Hr in Hbig.
      assert (pow2 53 <= pow2 (emax - prec))%R by (apply pow2_le; unfold emax, prec; lia).
      lra.
    - destruct (binary_round prec emax false m 0) as [| | |s1 m1 e1];
        try discriminate.
      + cbn [SFval] in Hval. unfold sgn in Hval. lra.
      + cbn [SFsign] in Hsign. subst s1. exists m1, e1. split; [reflexivity|].
        cbn [SFval] in Hval. unfold sgn in Hval. lra. }
  destruct Hpm as (m1 & e1 & Epm & Hv1).
  assert (Hf : ffin (Z.ldexp pm e) = true
               /\ fval (Z.ldexp pm e) = (IZR (Z.pos m) * pow2 e)%R).
  { unfold ffin, fval. rewrite Z_ldexp_spec, Epm. cbn [SFldexp].
    pose proof (Prim2SF_valid pm) as Hvalid. rewrite Epm in Hvalid.
    apply valid_finite in Hvalid as (Hd1 & Hb1 & Hc1).
    assert (Hm1lt : (IZR (Z.pos m1) < pow2 53)%R) by (apply digits_le_53_lt, Hd1).
    pose proof (pow2_pos e1) as Hpe1.
    assert (He1lo : -53 < e1).
    { apply pow2_lt_inv. apply Rmult_lt_reg_l with (pow2 53); [apply pow2_pos|].
      assert (E : (pow2 53 * pow2 (-53) = 1)%R)
        by (rewrite <- pow2_add; reflexivity).
      rewrite E.
      assert (IZR (Z.pos m1) * pow2 e1 < pow2 53 * pow2 e1)%R
        by (apply Rmult_lt_compat_r; assumption).
      lra. }
    assert (He1hi : e1 < 53).
    { apply pow2_lt_inv.
      assert (1 <= IZR (Z.pos m1))%R by (apply IZR_le; lia).
      assert (1 * pow2 e1 <= IZR (Z.pos m1) * pow2 e1)%R
        by (apply Rmult_le_compat_r; lra).
      lra. }
    destruct (binary_round_val prec emax prec_pos false m1 (e1 + e))
      as (r & _ & _ & _ & Hex & Hres).
    assert (Hr : r = (IZR (Z.pos m) * pow2 e)%R).
    { rewrite Hex; [rewrite pow2_add, <- Hv1; ring|].
      unfold SpecFloat.fexp, SpecFloat.emin, prec, emax in *. lia. }
    assert (Hsmall : (r < pow2 (emax - prec))%R).
    { rewrite Hr. apply Rlt_le_trans with (pow2 53 * pow2 900)%R.
      - assert (pow2 e <= pow2 900)%R by (apply pow2_le; lia).
        pose proof (pow2_pos e). nra.
      - rewrite <- pow2_add. apply pow2_le. unfold emax, prec. lia. }
    destruct Hres as [[_ Hbig]|(Hfin & _ & Hval)]; [lra|].
    split; [exact Hfin|]. rewrite Hval. unfold sgn. lra. }
  destruct Hf as [Hf1 Hf2]. cbn [SFval].
  destruct s.
  - unfold ffin, fval. rewrite opp_spec, SFopp_fin, SFopp_val.
    unfold ffin, fval in Hf1, Hf2. split; [exact Hf1|]. rewrite Hf2. ring.
  - split; [exact Hf1|]. rewrite Hf2. ring.
Qed.

Lemma SF2Prim_zero_val s :
  ffin (SF2Prim (S754_zero s)) = true /\ fval (SF2Prim (S754_zero s)) = 0%R.
Proof. destruct s; split; reflexivity. Qed.

(** A float of [p] bits of precision, read as a double. *)
Lemma SF2Prim_small pr em z :
  0 < pr <= 53 -> -1000 <= SpecFloat.emin pr em -> em - pr <= 900 ->
  SFfin z = true ->
  (forall s m e, z = S754_finite s m e ->
     Z.pos m < 2 ^ pr /\ SpecFloat.emin pr em <= e <= em - pr) ->
  ffin (SF2Prim z) = true /\ fval (SF2Prim z) = SFval z.
Proof.
  intros Hpr Hmin Hmax Hfin Hb.
  destruct z as [s|s| |s m e]; try discriminate.
  - apply SF2Prim_zero_val.
  - destruct (Hb s m e eq_refl) as [Hm He].
    apply SF2Prim_val; [|lia].
    change (Z.pos (digits2_pos m)) with (Zdigits2 (Z.pos m)).
    apply Z.le_trans with pr; [|lia]. apply Zdigits2_le; lia.
Qed.

(** *** [Num], [Math.fround] and the store into a [Uint8ClampedArray] *)

Lemma exp_of_val m e (a b : Z) :
  (IZR (Z.pos m) < pow2 53)%R ->
  (pow2 a <= IZR (Z.pos m) * pow2 e < pow2 b)%R ->
  a - 53 < e < b.
Proof.
  intros Hm [Hlo Hhi]. pose proof (pow2_pos e) as Hpe.
  assert (H1 : (1 <= IZR (Z.pos m))%R) by (apply IZR_le; lia).
  split.
  - assert (E : a - 53 < e <-> a < 53 + e) by lia. apply E.
    apply pow2_lt_inv. rewrite pow2_add.
    assert (IZR (Z.pos m) * pow2 e < pow2 53 * pow2 e)%R
      by (apply Rmult_lt_compat_r; assumption).
    lra.
  - apply pow2_lt_inv.
    assert (1 * pow2 e <= IZR (Z.pos m) * pow2 e)%R
      by (apply Rmult_le_compat_r; lra).
    lra.
Qed.

Lemma lt_pow2_53 m : Z.pos m < 2 ^ 53 -> Z.pos (digits2_pos m) <= 53.
Proof.
  intros H. change (Z.pos (digits2_pos m)) with (Zdigits2 (Z.pos m)).
  apply Zdigits2_le; lia.
Qed.

(** [Num] is exact on the integers below 2^53. *)
Lemma Num_val z :
  Z.abs z < 2 ^ 53 -> ffin (Num z) = true /\ fval (Num z) = IZR z.
Proof.
  intros Hz. unfold Num.
  destruct z as [|p|p]; cbn [binary_normalize].
  - split; reflexivity.
  - destruct (binary_round_val prec emax prec_pos false p 0)
      as (r & _ & _ & _ & Hex & Hres).
    rewrite pow2_0, Rmult_1_r in Hex.
    assert (Hp : (1 <= IZR (Z.pos p) < pow2 53)%R).
    { split; [apply IZR_le; lia|]. rewrite pow2_IZR by lia. apply IZR_lt. lia. }
    assert (Hr : r = IZR (Z.pos p)).
    { apply Hex. pose proof (lt_pow2_53 p ltac:(lia)).
      unfold SpecFloat.fexp, SpecFloat.emin, prec, emax. lia. }
    destruct Hres as [[_ Hbig]|(Hfin & Hsign & Hval)].
    { exfalso. rewrite Hr in Hbig.
      assert (pow2 53 <= pow2 (emax - prec))%R
        by (apply pow2_le; unfold emax, prec; lia).
      lra. }
    destruct (binary_round prec emax false p 0) as [| | |s1 m1 e1] eqn:Er;
      try discriminate.
    { cbn [SFval] in Hval. unfold sgn in Hval. lra. }
    apply binary_round_finite in Er as (-> & Hm1 & _); [|exact prec_pos].
    cbn [SFval] in Hval. unfold sgn in Hval.
    assert (Hm1' : (IZR (Z.pos m1) < pow2 53)%R)
      by (rewrite pow2_IZR by lia; apply IZR_lt; exact Hm1).
    pose proof (exp_of_val m1 e1 0 53 Hm1' ltac:(rewrite pow2_0; lra)) as He1.
    destruct (SF2Prim_val false m1 e1 (lt_pow2_53 _ Hm1) ltac:(lia)) as [H1 H2].
    split; [exact H1|]. rewrite H2. cbn [SFval]. lra.
  - destruct (binary_round_val prec emax prec_pos true p 0)
      as (r & _ & _ & _ & Hex & Hres).
    rewrite pow2_0, Rmult_1_r in Hex.
    assert (Hp : (1 <= IZR (Z.pos p) < pow2 53)%R).
    { split; [apply IZR_le; lia|]. rewrite pow2_IZR by lia. apply IZR_lt. lia. }
    assert (Hr : r = IZR (Z.pos p)).
    { apply Hex. pose proof (lt_pow2_53 p ltac:(lia)).
      unfold SpecFloat.fexp, SpecFloat.emin, prec, emax. lia. }
    destruct Hres as [[_ Hbig]|(Hfin & Hsign & Hval)].
    { exfalso. rewrite Hr in Hbig.
      assert (pow2 53 <= pow2 (emax - prec))%R
        by (apply pow2_le; unfold emax, prec; lia).
      lra. }
    destruct (binary_round prec emax true p 0) as [| | |s1 m1 e1] eqn:Er;
      try discriminate.
    { cbn [SFval] in Hval. unfold sgn in Hval. lra. }
    apply binary_round_finite in Er as (-> & Hm1 & _); [|exact prec_pos].
    cbn [SFval] in Hval. unfold sgn in Hval.
    assert (Hm1' : (IZR (Z.pos m1) < pow2 53)%R)
      by (rewrite pow2_IZR by lia; apply IZR_lt; exact Hm1).
    pose proof (exp_of_val m1 e1 0 53 Hm1' ltac:(rewrite pow2_0; lra)) as He1.
    destruct (SF2Prim_val true m1 e1 (lt_pow2_53 _ Hm1) ltac:(lia)) as [H1 H2].
    split; [exact H1|]. rewrite H2. cbn [SFval].
    change (Z.neg p) with (- Z.pos p). rewrite opp_IZR. lra.
Qed.

(** [Math.fround] of a number that is not huge: the nearest binary32
    value, within the binary32 rounding error. *)
Lemma fround_val x :
  ffin x = true -> (Rabs (fval x) <= pow2 100)%R ->
  ffin (Math_fround x) = true
  /\ (Rabs (fval (Math_fround x) - fval x) <= Rabs (fval x) * u32 + t32)%R.
Proof.
  intros Hx Hs. unfold Math_fround. unfold ffin, fval in Hx, Hs.
  destruct (Prim2SF x) as [s|s| |s m e] eqn:Ex; try discriminate.
  - unfold ffin, fval. rewrite Ex. split; [reflexivity|].
    cbn [SFval]. rewrite Rminus_diag, Rabs_R0.
    assert (0 < u32)%R by apply pow2_pos. assert (0 < t32)%R by apply pow2_pos.
    lra.
  - set (y := binary_normalize 24 128 (cond_Zopp s (Z.pos m)) e s).
    pose proof (binary_normalize_val_gen 24 128 ltac:(lia)
                  (cond_Zopp s (Z.pos m)) e s) as H.
    fold y in H.
    assert (EX : (IZR (cond_Zopp s (Z.pos m)) * pow2 e)%R
                 = SFval (S754_finite s m e)).
    { rewrite cond_Zopp_IZR. cbn [SFval]. unfold sgn. destruct s; ring. }
    rewrite EX in H.
    apply rounds_to_small in H; [|lia | lia | | exact Hs].
    2:{ rewrite <- pow2_0. apply pow2_le. unfold SpecFloat.emin. lia. }
    destruct H as [Hfin Hb].
    destruct (SF2Prim_small 24 128 y ltac:(lia)
                ltac:(unfold SpecFloat.emin; lia) ltac:(lia) Hfin) as [H1 H2].
    { intros s' m' e' E. subst y.
      apply (binary_normalize_finite 24 128 ltac:(lia) _ _ _ _ _ _ E). }
    split; [exact H1|]. rewrite H2. unfold fval. rewrite Ex. exact Hb.
Qed.

(** *** The store *)

Lemma round_half_even_near m e c :
  0 < m -> (Rabs (IZR m * pow2 e - IZR c) < / 2)%R ->
  round_half_even m e = c.
Proof.
  intros Hm Hc. apply Rabs_def2 in Hc as [Hc1 Hc2].
  unfold round_half_even. destruct (0 <=? e) eqn:He.
  - apply Z.leb_le in He. rewrite Z.shiftl_mul_pow2 by lia.
    rewrite pow2_IZR, <- mult_IZR in Hc1, Hc2 by lia.
    assert (H1 : (IZR (m * 2 ^ e - c) < 1)%R) by (rewrite minus_IZR; lra).
    assert (H2 : (IZR (-1) < IZR (m * 2 ^ e - c))%R) by (rewrite minus_IZR; lra).
    apply lt_IZR in H1, H2. lia.
  - apply Z.leb_gt in He. cbv zeta.
    set (k := - e). assert (Hk : 0 < k) by (subst k; lia).
    set (P := 2 ^ (k - 1)).
    assert (HP : 0 < P) by (apply Z.pow_pos_nonneg; lia).
    assert (H2k : 2 ^ k = 2 * P).
    { subst P. replace k with (1 + (k - 1)) at 1 by lia.
      rewrite Z.pow_add_r by lia. reflexivity. }
    (* the distance to [c], scaled to integers *)
    assert (Hint : - P < m - c * (2 * P) < P).
    { assert (Hpk : pow2 e = (/ IZR (2 * P))%R).
      { replace e with (- k) by (subst k; lia). unfold pow2.
        rewrite powerRZ_neg'. fold (pow2 k). rewrite pow2_IZR, H2k by lia.
        reflexivity. }
      rewrite Hpk in Hc1, Hc2.
      assert (HPR : (0 < IZR P)%R) by (apply IZR_lt; exact HP).
      rewrite mult_IZR in Hc1, Hc2.
      assert (E : (IZR m * / (2 * IZR P) - IZR c
                   = (IZR m - IZR c * (2 * IZR P)) / (2 * IZR P))%R)
        by (field; lra).
      rewrite E in Hc1, Hc2.
      assert (H1 : (IZR m - IZR c * (2 * IZR P) < IZR P)%R).
      { apply Rmult_lt_reg_r with (/ (2 * IZR P))%R;
          [apply Rinv_0_lt_compat; lra|].
        replace (IZR P * / (2 * IZR P))%R with (/ 2)%R by (field; lra).
        exact Hc1. }
      assert (H2 : (- IZR P < IZR m - IZR c * (2 * IZR P))%R).
      { apply Rmult_lt_reg_r with (/ (2 * IZR P))%R;
          [apply Rinv_0_lt_compat; lra|].
        replace (- IZR P * / (2 * IZR P))%R with (- / 2)%R by (field; lra).
        exact Hc2. }
      split; apply lt_IZR;
        rewrite ?opp_IZR, minus_IZR, mult_IZR, mult_IZR; simpl; lra. }
    (* the bits of [m] *)
    set (h := m / P). set (l := m mod P).
    assert (Hml : m = P * h + l) by (subst h l; apply Z.div_mod; lia).
    assert (Hl : 0 <= l < P) by (subst l; apply Z.mod_pos_bound; lia).
    assert (Hq : Z.shiftr m k = h / 2).
    { rewrite Z.shiftr_div_pow2, H2k by lia. subst h.
      rewrite Z.mul_comm, <- Z.div_div by lia. reflexivity. }
    assert (Hh : Z.shiftr m (k - 1) = h)
      by (rewrite Z.shiftr_div_pow2 by lia; reflexivity).
    assert (Hbit : Z.testbit m (k - 1) = Z.odd h).
    { rewrite <- Hh. rewrite <- Z.bit0_odd, Z.shiftr_spec by lia.
      f_equal; lia. }
    rewrite Hq, Hh, Hbit, Z.shiftl_mul_pow2 by lia. fold P.
    pose proof (Z.div_mod h 2 ltac:(lia)) as Hh2.
    pose proof (Z.mod_pos_bound h 2 ltac:(lia)) as Hb.
    assert (Hodd : Z.odd h = (h mod 2 =? 1)).
    { rewrite Hh2 at 1. rewrite Z.add_comm, Z.odd_add_mul_2.
      destruct (Z.eqb_spec (h mod 2) 1) as [E|E].
      - rewrite E. reflexivity.
      - replace (h mod 2) with 0 by lia. reflexivity. }
    rewrite Hodd.
    assert (Ht1 : h - 2 * c < 1) by nia.
    assert (Ht2 : -2 < h - 2 * c) by nia.
    destruct (h mod 2 =? 1) eqn:Eb.
    + apply Z.eqb_eq in Eb. cbn [andb].
      assert (Hhc : h = 2 * c - 1) by lia.
      assert (Hl0 : l <> 0) by nia.
      assert (Hst : negb (h * P =? m) = true).
      { apply negb_true_iff, Z.eqb_neq. lia. }
      rewrite Hst. cbn [orb]. lia.
    + apply Z.eqb_neq in Eb. cbn [andb]. lia.
Qed.

(** A number within 1/2 of a byte is stored as that byte. *)
Lemma ToUint8Clamp_near x c :
  ffin x = true -> 0 <= c <= 255 ->
  (Rabs (fval x - IZR c) < / 2)%R ->
  ToUint8Clamp x = c.
Proof.
  intros Hx Hc Hn. unfold ToUint8Clamp. unfold ffin, fval in Hx, Hn.
  destruct (Prim2SF x) as [s|s| |s m e]; try discriminate; cbn [SFval] in Hn.
  - apply Rabs_def2 in Hn as [H1 H2].
    assert (H : (IZR c < IZR 1)%R) by lra. apply lt_IZR in H. lia.
  - assert (Hp : (0 < IZR (Z.pos m) * pow2 e)%R)
      by (apply Rmult_lt_0_compat; [apply IZR_lt; lia | apply pow2_pos]).
    destruct s.
    + apply Rabs_def2 in Hn as [H1 H2].
      assert (H : (IZR c < IZR 1)%R) by lra. apply lt_IZR in H. lia.
    + rewrite (round_half_even_near (Z.pos m) e c); [lia | lia|].
      replace (IZR (Z.pos m) * pow2 e)%R with (1 * IZR (Z.pos m) * pow2 e)%R
        by ring.
      exact Hn.
Qed.

(** *** Sums of doubles *)

Lemma u64_pos : (0 < u64)%R.
Proof. apply pow2_pos. Qed.

Lemma t64_pos : (0 < t64)%R.
Proof. apply pow2_pos. Qed.

(** A sum of numbers bounded by [B] that stays below [M] is off by at most
    [M * 2^-52] for each addition. *)
Lemma fsum_val (B M : R) (l : list float) :
  (0 <= B)%R -> (0 <= M <= pow2 100)%R ->
  Forall (fun v => ffin v = true /\ (Rabs (fval v) <= B)%R) l ->
  forall (acc : float) (A E : R),
    ffin acc = true -> (Rabs (fval acc - A) <= E)%R ->
    (Rabs A + E + INR (length l) * (B + M * u64) <= M)%R ->
    ffin (fsum l acc) = true
    /\ (Rabs (fval (fsum l acc) - (A + rsum l))
        <= E + INR (length l) * (M * u64))%R.
Proof.
  intros HB [HM0 HM] Hl. pose proof u64_pos as Hu.
  induction Hl as [|v l [Hv1 Hv2] Hl IH]; intros acc A E Hacc HE Hbound.
  - cbn [fsum fold_left rsum length INR]. split; [exact Hacc|].
    rewrite Rplus_0_r. lra.
  - cbn [length] in Hbound. rewrite S_INR in Hbound.
    assert (Hn : (0 <= INR (length l))%R) by apply pos_INR.
    assert (HE0 : (0 <= E)%R) by (pose proof (Rabs_pos (fval acc - A)); lra).
    assert (Hprod : (0 <= INR (length l) * (B + M * u64))%R)
      by (apply Rmult_le_pos; [exact Hn | nra]).
    apply Rabs_le_inv in HE. apply Rabs_le_inv in Hv2.
    assert (HA : (- Rabs A <= A <= Rabs A)%R).
    { split; [pose proof (Rle_abs (- A)); rewrite Rabs_Ropp in *; lra
             | apply Rle_abs]. }
    assert (HX : (Rabs (fval acc + fval v) <= M)%R).
    { apply Rabs_le. nra. }
    destruct (fadd_val acc v Hacc Hv1 ltac:(lra)) as [Hf Hr].
    assert (Hr' : (Rabs (fval (acc + v) - (fval acc + fval v)) <= M * u64)%R).
    { eapply Rle_trans; [exact Hr|]. apply Rmult_le_compat_r; lra. }
    apply Rabs_le_inv in Hr'.
    cbn [fsum fold_left rsum]. fold (fsum l (acc + v)%float).
    destruct (IH (acc + v)%float (A + fval v)%R (E + M * u64)%R Hf) as [H1 H2].
    + apply Rabs_le. lra.
    + assert (Rabs (A + fval v) <= Rabs A + B)%R.
      { eapply Rle_trans; [apply Rabs_triang|].
        assert (Rabs (fval v) <= B)%R by (apply Rabs_le; lra). lra. }
      nra.
    + split; [exact H1|]. cbn [length]. rewrite S_INR.
      replace (A + (fval v + rsum l))%R with (A + fval v + rsum l)%R by ring.
      eapply Rle_trans; [exact H2|]. nra.
Qed.

(** *** The rounding errors as numbers *)

Lemma pow2_neg_le k N :
  0 <= k -> 0 < N <= 2 ^ k -> (pow2 (- k) <= / IZR N)%R.
Proof.
  intros Hk [HN Hle]. unfold pow2. rewrite powerRZ_neg'. fold (pow2 k).
  rewrite pow2_IZR by lia.
  apply Rinv_le_contravar; [apply IZR_lt; lia | apply IZR_le; exact Hle].
Qed.

Lemma u32_le : (u32 <= 12 / 100000000)%R.
Proof.
  unfold u32. change (-23) with (- 23).
  eapply Rle_trans; [apply (pow2_neg_le 23 8388608); [lia | simpl; lia]|].
  lra.
Qed.

Lemma t32_le : (t32 <= / 10 ^ 40)%R.
Proof.
  unfold t32. change (-149) with (- 149).
  eapply Rle_trans; [apply (pow2_neg_le 149 (10 ^ 40)); [lia|]|].
  - split; [reflexivity | vm_compute; discriminate].
  - rewrite pow_IZR. apply Req_le. reflexivity.
Qed.

Lemma u64_le : (u64 <= / 10 ^ 15)%R.
Proof.
  unfold u64. change (-52) with (- 52).
  eapply Rle_trans; [apply (pow2_neg_le 52 (10 ^ 15)); [lia|]|].
  - split; [reflexivity | vm_compute; discriminate].
  - rewrite pow_IZR. apply Req_le. reflexivity.
Qed.

Lemma t64_le : (t64 <= / 10 ^ 40)%R.
Proof.
  unfold t64. change (-1074) with (- 1074).
  eapply Rle_trans; [apply (pow2_neg_le 1074 (10 ^ 40)); [lia|]|].
  - split; [reflexivity | vm_compute; discriminate].
  - rewrite pow_IZR. apply Req_le. reflexivity.
Qed.

(** *** The weights of the kernel *)

Section Weights.
Local Open Scope R_scope.

(** One weight: [w = fround (fround v / S)] against [x / T]. *)
Lemma weight_near (x T S a q w : R) :
  0 <= x -> 1 <= T -> Rabs (S - T) <= / 10 ^ 10 ->
  Rabs (a - x) <= Rabs x * (12 / 100000000) + / 10 ^ 40 ->
  Rabs (q - a / S) <= Rabs (a / S) * / 10 ^ 15 + / 10 ^ 40 ->
  Rabs (w - q) <= Rabs q * (12 / 100000000) + / 10 ^ 40 ->
  Rabs (w - x / T) <= x / T * (3 / 10000000) + / 10 ^ 39.
Proof.
  intros Hx HT HS Ha Hq Hw.
  rewrite (Rabs_right x) in Ha by lra.
  apply Rabs_le_inv in HS, Ha.
  assert (HSpos : 0 < S) by lra.
  set (y := x / T). set (z := a / S) in *.
  assert (Hy : y * T = x) by (subst y; field; lra).
  assert (Hz : z * S = a) by (subst z; field; lra).
  assert (Hy0 : 0 <= y).
  { subst y. apply Rmult_le_pos; [lra|]. apply Rlt_le, Rinv_0_lt_compat. lra. }
  assert (Hyx : y <= x) by nra.
  (* the quotient *)
  assert (Hzy : - (y * (13 / 100000000) + 2 / 10 ^ 40) <= z - y
                <= y * (13 / 100000000) + 2 / 10 ^ 40).
  { assert (H1 : (z - y) * S = (a - x) + y * (T - S)) by (rewrite <- Hy, <- Hz; ring).
    assert (H2 : - (x * (12 / 100000000) + / 10 ^ 40 + y * / 10 ^ 10)
                 <= (z - y) * S
                 <= x * (12 / 100000000) + / 10 ^ 40 + y * / 10 ^ 10).
    { rewrite H1. split; nra. }
    assert (H3 : x * (12 / 100000000) + / 10 ^ 40 + y * / 10 ^ 10
                 <= (y * (13 / 100000000) + 2 / 10 ^ 40) * S).
    { assert (Hs1 : (y * (13 / 100000000) + 2 / 10 ^ 40) * (T - / 10 ^ 10)
                    <= (y * (13 / 100000000) + 2 / 10 ^ 40) * S).
      { apply Rmult_le_compat_l; [|lra].
        assert (0 < / 10 ^ 40) by (apply Rinv_0_lt_compat; lra). lra. }
      eapply Rle_trans; [|exact Hs1].
      assert (0 < / 10 ^ 40) by (apply Rinv_0_lt_compat; lra).
      assert (0 <= y * (T - 1)) by (apply Rmult_le_pos; lra).
      nra. }
    split.
    - apply Rmult_le_reg_r with S; [exact HSpos|]. lra.
    - apply Rmult_le_reg_r with S; [exact HSpos|]. lra. }
  assert (Hzabs : Rabs z <= 2 * y + 1).
  { apply Rabs_le. assert (/ 10 ^ 40 <= 1/4) by lra. lra. }
  apply Rabs_le_inv in Hq.
  assert (Hqabs : Rabs q <= 3 * y + 2).
  { apply Rabs_le. assert (0 < / 10 ^ 40 <= 1/4) by (split; [apply Rinv_0_lt_compat|]; lra).
    assert (0 < / 10 ^ 15 <= 1/4) by (split; [apply Rinv_0_lt_compat|]; lra).
    pose proof (Rabs_pos z). nra. }
  apply Rabs_le_inv in Hw. apply Rabs_le.
  assert (Hq2 : - (y * (14 / 100000000) + 4 / 10 ^ 40) <= q - y
                <= y * (14 / 100000000) + 4 / 10 ^ 40).
  { assert (E : Rabs z * / 10 ^ 15 <= y * (1 / 100000000) + / 10 ^ 40).
    { assert (Rabs z <= y * 2 + 2 / 10 ^ 40).
      { apply Rabs_le. lra. }
      lra. }
    lra. }
  assert (Hq3 : Rabs q <= y * (1000001 / 1000000) + 4 / 10 ^ 40).
  { apply Rabs_le. lra. }
  lra.
Qed.

End Weights.

Lemma pow2_100_ge : (65536 <= pow2 100)%R.
Proof.
  apply Rle_trans with (pow2 16); [|apply pow2_le; lia].
  unfold pow2. simpl. lra.
Qed.

(** The weight the kernel stores for [v]: [fround (fround v / S)], where
    [S] is the sum as the loop has computed it and [T] the exact sum. *)
Lemma weight_val (S v : float) (T : R) :
  ffin S = true -> (1 <= T)%R -> (Rabs (fval S - T) <= / 10 ^ 10)%R ->
  unitf v ->
  ffin (Math_fround (Math_fround v / S)) = true
  /\ (Rabs (fval (Math_fround (Math_fround v / S)) - fval v / T)
      <= fval v / T * (3 / 10000000) + / 10 ^ 39)%R.
Proof.
  intros HS HT HST [Hv [Hv0 Hv1]].
  pose proof pow2_100_ge as H100.
  pose proof u32_le as Hu32. pose proof t32_le as Ht32.
  pose proof u64_le as Hu64. pose proof t64_le as Ht64.
  assert (Ht32p : (0 < t32)%R) by apply pow2_pos.
  assert (Hu32p : (0 < u32)%R) by apply pow2_pos.
  pose proof u64_pos as Hu64p. pose proof t64_pos as Ht64p.
  assert (Hxabs : Rabs (fval v) = fval v) by (apply Rabs_right; lra).
  destruct (fround_val v Hv ltac:(rewrite Hxabs; lra)) as [Ha Hab].
  set (a := Math_fround v) in *.
  rewrite Hxabs in Hab.
  assert (Ha' : (Rabs (fval a - fval v)
                 <= Rabs (fval v) * (12 / 100000000) + / 10 ^ 40)%R).
  { rewrite Hxabs. eapply Rle_trans; [exact Hab|].
    assert (fval v * u32 <= fval v * (12 / 100000000))%R
      by (apply Rmult_le_compat_l; lra).
    lra. }
  assert (Htiny : (0 < / 10 ^ 40 <= / 4)%R)
    by (split; [apply Rinv_0_lt_compat|]; lra).
  assert (Haabs : (Rabs (fval a) <= 2)%R).
  { apply Rabs_le_inv in Ha'. rewrite Hxabs in Ha'. apply Rabs_le. lra. }
  apply Rabs_le_inv in HST.
  assert (HSpos : (/ 2 <= fval S)%R) by lra.
  assert (HS0 : fval S <> 0%R) by lra.
  assert (Hquot : (Rabs (fval a / fval S) <= 4)%R).
  { apply Rabs_le_inv in Haabs. apply Rabs_le.
    assert (E : (fval a / fval S * fval S = fval a)%R) by (field; lra).
    split; apply Rmult_le_reg_r with (fval S); try lra; rewrite E; lra. }
  destruct (fdiv_val a S Ha HS HS0 ltac:(lra)) as [Hq Hqb].
  set (q := (a / S)%float) in *.
  assert (Hq' : (Rabs (fval q - fval a / fval S)
                 <= Rabs (fval a / fval S) * / 10 ^ 15 + / 10 ^ 40)%R).
  { eapply Rle_trans; [exact Hqb|].
    assert (Rabs (fval a / fval S) * u64 <= Rabs (fval a / fval S) * / 10 ^ 15)%R
      by (apply Rmult_le_compat_l; [apply Rabs_pos | lra]).
    lra. }
  assert (Hqabs : (Rabs (fval q) <= 8)%R).
  { assert (0 < / 10 ^ 15 <= / 4)%R
      by (split; [apply Rinv_0_lt_compat|]; lra).
    apply Rabs_le_inv in Hq'. apply Rabs_le_inv in Hquot. apply Rabs_le.
    assert (Rabs (fval a / fval S) <= 4)%R by (apply Rabs_le; lra).
    nra. }
  destruct (fround_val q Hq ltac:(lra)) as [Hw Hwb].
  split; [exact Hw|].
  apply (weight_near (fval v) T (fval S) (fval a) (fval q)); try lra.
  - apply Rabs_le. lra.
  - eapply Rle_trans; [exact Hwb|].
    assert (Rabs (fval q) * u32 <= Rabs (fval q) * (12 / 100000000))%R
      by (apply Rmult_le_compat_l; [apply Rabs_pos | lra]).
    lra.
Qed.

Lemma rsum_bounds l :
  Forall unitf l -> (0 <= rsum l <= INR (length l))%R.
Proof.
  induction 1 as [|v l [_ Hv] _ IH]; cbn [rsum length].
  - simpl. lra.
  - rewrite S_INR. lra.
Qed.

Lemma rsum_In v l : Forall unitf l -> In v l -> (fval v <= rsum l)%R.
Proof.
  induction 1 as [|v' l [_ Hv] Hl IH]; cbn [rsum]; intros Hin.
  - destruct Hin.
  - pose proof (rsum_bounds l Hl). destruct Hin as [->|Hin]; [lra|].
    specialize (IH Hin). lra.
Qed.

Lemma tiny39 : (0 < / 10 ^ 39 <= / 1000)%R.
Proof. split; [apply Rinv_0_lt_compat; lra|]. apply Rinv_le_contravar; lra. Qed.

Lemma weights_rsum (S : float) (T : R) (l : list float) :
  ffin S = true -> (1 <= T)%R -> (Rabs (fval S - T) <= / 10 ^ 10)%R ->
  Forall unitf l ->
  Forall (fun w => ffin w = true /\ (Rabs (fval w) <= 2)%R) (map (weigh S) l)
  /\ (Rabs (rsum (map (weigh S) l) - rsum l / T)
      <= rsum l / T * (3 / 10000000) + INR (length l) * / 10 ^ 39)%R.
Proof.
  intros HS HT HST. pose proof tiny39 as Ht.
  induction 1 as [|v l Hv Hl [IH1 IH2]]; cbn [map rsum length].
  - split; [constructor|]. simpl. unfold Rdiv. rewrite Rmult_0_l, Rminus_diag, Rabs_R0. lra.
  - destruct (weight_val S v T HS HT HST Hv) as [Hw Hwb].
    fold (weigh S v) in Hw, Hwb.
    destruct Hv as [_ Hv01].
    assert (Hy : (0 <= fval v / T <= 1)%R).
    { split.
      - apply Rmult_le_pos; [lra|]. apply Rlt_le, Rinv_0_lt_compat. lra.
      - apply Rmult_le_reg_r with T; [lra|].
        unfold Rdiv. rewrite Rmult_assoc, Rinv_l by lra. lra. }
    apply Rabs_le_inv in Hwb.
    split.
    + constructor; [|exact IH1]. split; [exact Hw|]. apply Rabs_le. lra.
    + rewrite S_INR. apply Rabs_le_inv in IH2. apply Rabs_le.
      replace ((fval v + rsum l) / T)%R with (fval v / T + rsum l / T)%R
        by (field; lra).
      lra.
Qed.

Lemma ffin_zero : ffin 0 = true /\ fval 0 = 0%R.
Proof. split; reflexivity. Qed.

Lemma fval_one : ffin 1 = true /\ fval 1 = 1%R.
Proof.
  split; [reflexivity|]. unfold fval.
  change (Prim2SF 1) with (S754_finite false 4503599627370496 (-52)).
  cbn [SFval].
  replace (pow2 (-52)) with (/ pow2 52)%R
    by (symmetry; apply (powerRZ_neg' 2 52)).
  rewrite pow2_IZR by lia.
  change (2 ^ 52) with 4503599627370496. field.
Qed.

(** The kernel built from numbers between 0 and 1, one of which is 1. *)
Lemma kernel_of_units (vs : list float) :
  Forall unitf vs -> In 1%float vs -> (length vs <= 41)%nat ->
  ffin (fsum vs 0) = true
  /\ (/ 2 <= fval (fsum vs 0))%R
  /\ Forall (fun w => ffin w = true /\ (Rabs (fval w) <= 2)%R)
       (map (weigh (fsum vs 0)) vs)
  /\ (Rabs (rsum (map (weigh (fsum vs 0)) vs) - 1) <= 4 / 10000000)%R
  /\ ffin (fsum (map (weigh (fsum vs 0)) vs) 0) = true
  /\ (Rabs (fval (fsum (map (weigh (fsum vs 0)) vs) 0) - 1)
      <= 5 / 10000000)%R.
Proof.
  intros Hvs Hone Hlen.
  pose proof (rsum_bounds vs Hvs) as [HT0 HTn].
  pose proof (rsum_In 1%float vs Hvs Hone) as HT1.
  rewrite (proj2 fval_one) in HT1.
  assert (Hn : (0 <= INR (length vs) <= 41)%R).
  { split; [apply pos_INR|].
    replace 41%R with (INR 41) by (simpl; lra).
    apply le_INR. exact Hlen. }
  pose proof u64_le as Hu. pose proof u64_pos as Hup.
  pose proof pow2_100_ge as H100.
  assert (H15 : (0 < / 10 ^ 15 <= / 1000000000000)%R).
  { split; [apply Rinv_0_lt_compat; lra|]. apply Rinv_le_contravar; lra. }
  (* the sum *)
  destruct (fsum_val 1 64 vs ltac:(lra) ltac:(lra)) with (acc := 0%float)
    (A := 0%R) (E := 0%R) as [HS HSb].
  { eapply List.Forall_impl; [|exact Hvs]. intros v [Hv Hv01].
    split; [exact Hv|]. apply Rabs_le. lra. }
  { reflexivity. }
  { rewrite (proj2 ffin_zero), Rminus_diag, Rabs_R0. lra. }
  { rewrite Rabs_R0. nra. }
  rewrite Rplus_0_l in HSb.
  assert (HST : (Rabs (fval (fsum vs 0) - rsum vs) <= / 10 ^ 10)%R).
  { eapply Rle_trans; [exact HSb|].
    assert (INR (length vs) * (64 * u64) <= 41 * (64 * / 10 ^ 15))%R
      by (apply Rmult_le_compat; nra).
    lra. }
  split; [exact HS|].
  split; [apply Rabs_le_inv in HST; lra|].
  destruct (weights_rsum (fsum vs 0) (rsum vs) vs HS HT1 HST Hvs) as [Hws Hwsum].
  split; [exact Hws|].
  assert (E1 : (rsum vs / rsum vs = 1)%R) by (field; lra).
  rewrite E1 in Hwsum. pose proof tiny39 as Ht.
  assert (Hsum1 : (Rabs (rsum (map (weigh (fsum vs 0)) vs) - 1) <= 4 / 10000000)%R).
  { eapply Rle_trans; [exact Hwsum|].
    assert (INR (length vs) * / 10 ^ 39 <= 41 * / 10 ^ 39)%R
      by (apply Rmult_le_compat_r; lra).
    assert (/ 10 ^ 39 <= / 1000000000)%R by (apply Rinv_le_contravar; lra).
    lra. }
  split; [exact Hsum1|].
  destruct (fsum_val 2 128 (map (weigh (fsum vs 0)) vs) ltac:(lra) ltac:(lra) Hws)
    with (acc := 0%float) (A := 0%R) (E := 0%R) as [HK HKb].
  { reflexivity. }
  { rewrite (proj2 ffin_zero), Rminus_diag, Rabs_R0. lra. }
  { rewrite Rabs_R0, length_map. nra. }
  split; [exact HK|].
  rewrite Rplus_0_l, length_map in HKb.
  apply Rabs_le_inv in HKb, Hsum1. apply Rabs_le.
  assert (INR (length vs) * (128 * u64) <= 41 * (128 * / 10 ^ 15))%R
    by (apply Rmult_le_compat; nra).
  lra.
Qed.

(** *** The radius of the kernel *)

Lemma ffin_not_nan x : ffin x = true -> is_nan x = false.
Proof.
  intros H. apply is_nan_false. unfold ffin in H. intros E. rewrite E in H.
  discriminate H.
Qed.

(** The integer a float stands for, from its number. *)
Lemma to_int_of_val x z :
  ffin x = true -> fval x = IZR z -> to_int x = Some z.
Proof.
  unfold ffin, fval, to_int.
  destruct (Prim2SF x) as [s|s| |s m e]; try discriminate; intros _;
    cbn [SFval]; intros Hv.
  - f_equal. apply eq_IZR. exact Hv.
  - assert (Hv' : (IZR (cond_Zopp s (Z.pos m)) * pow2 e = IZR z)%R).
    { rewrite cond_Zopp_IZR. unfold sgn. destruct s; lra. }
    destruct (0 <=? e) eqn:He.
    + apply Z.leb_le in He. f_equal. apply eq_IZR.
      rewrite mult_IZR, <- pow2_IZR by lia. exact Hv'.
    + apply Z.leb_gt in He.
      assert (Hk : 0 < 2 ^ (- e)) by (apply Z.pow_pos_nonneg; lia).
      assert (Hm : cond_Zopp s (Z.pos m) = z * 2 ^ (- e)).
      { apply eq_IZR. rewrite mult_IZR, <- pow2_IZR by lia.
        rewrite <- Hv', Rmult_assoc, <- pow2_add.
        replace (e + - e) with 0 by lia. rewrite pow2_0. ring. }
      assert (Hmod : Z.pos m mod 2 ^ (- e) = 0).
      { destruct s; cbn [cond_Zopp] in Hm.
        - replace (Z.pos m) with (- z * 2 ^ (- e)) by lia.
          apply Z.mod_mul. lia.
        - rewrite Hm. apply Z.mod_mul. lia. }
      rewrite Hmod. cbn [Z.eqb]. f_equal. rewrite Hm.
      apply Z.div_mul. lia.
Qed.

Lemma to_int_val x z :
  to_int x = Some z -> ffin x = true /\ fval x = IZR z.
Proof.
  unfold ffin, fval, to_int.
  destruct (Prim2SF x) as [s|s| |s m e]; try discriminate; cbn [SFfin SFval].
  - intros [= <-]. split; reflexivity.
  - assert (Hs : forall r : R,
               ((if s then -1 else 1) * IZR (Z.pos m) * r
                = IZR (cond_Zopp s (Z.pos m)) * r)%R).
    { intros r. rewrite cond_Zopp_IZR. unfold sgn. destruct s; ring. }
    rewrite Hs.
    destruct (0 <=? e) eqn:He.
    + apply Z.leb_le in He. intros [= <-]. split; [reflexivity|].
      rewrite mult_IZR, <- pow2_IZR by lia. reflexivity.
    + apply Z.leb_gt in He.
      destruct (Z.pos m mod 2 ^ (- e) =? 0) eqn:Hmod; [|discriminate].
      apply Z.eqb_eq in Hmod. intros [= <-]. split; [reflexivity|].
      assert (Hk : 0 < 2 ^ (- e)) by (apply Z.pow_pos_nonneg; lia).
      assert (Hd : cond_Zopp s (Z.pos m)
                   = cond_Zopp s (Z.pos m) / 2 ^ (- e) * 2 ^ (- e)).
      { apply Z.mod_divide in Hmod as [k Hk']; [|lia].
        destruct s; cbn [cond_Zopp]; rewrite Hk'.
        - rewrite <- Z.mul_opp_l, Z.div_mul by lia. reflexivity.
        - rewrite Z.div_mul by lia. reflexivity. }
      rewrite Hd at 1. rewrite mult_IZR, <- pow2_IZR by lia.
      rewrite Rmult_assoc, <- pow2_add. replace (- e + e) with 0 by lia.
      rewrite pow2_0. ring.
Qed.

(** [Math.ceil] gives an integer, an infinity or NaN, and NaN only for
    NaN. *)
Lemma Math_ceil_int x :
  is_nan x = false ->
  is_nan (Math_ceil x) = false
  /\ (ffin (Math_ceil x) = true -> exists z, to_int (Math_ceil x) = Some z).
Proof.
  intros Hx. unfold Math_ceil.
  destruct (Prim2SF x) as [s|s| |s m e] eqn:Ex.
  - split; [exact Hx|]. intros _. exists 0. unfold to_int. rewrite Ex. reflexivity.
  - split; [exact Hx|]. unfold ffin. rewrite Ex. discriminate.
  - split; [exact Hx|]. unfold ffin. rewrite Ex. discriminate.
  - destruct (0 <=? e) eqn:He.
    + split; [exact Hx|]. intros _. unfold to_int. rewrite Ex, He. eauto.
    + set (z := ceil_scaled (cond_Zopp s (Z.pos m)) e).
      assert (Hz : Z.abs z < 2 ^ 53).
      { pose proof (Prim2SF_valid x) as Hv. rewrite Ex in Hv.
        apply valid_finite in Hv as (Hd & _ & _).
        pose proof (digits2_pos_bounds m) as [_ Hhi].
        assert (Hm : Z.pos m < 2 ^ 53).
        { eapply Z.lt_le_trans; [exact Hhi|]. apply Z.pow_le_mono_r; [lia|exact Hd]. }
        apply Z.leb_gt in He.
        assert (Hk : 2 <= 2 ^ (- e)).
        { change 2 with (2 ^ 1) at 1. apply Z.pow_le_mono_r; lia. }
        subst z. unfold ceil_scaled, floor_scaled.
        replace (0 <=? e) with false by (symmetry; apply Z.leb_gt; lia).
        set (a := - cond_Zopp s (Z.pos m)).
        assert (Ha : Z.abs a < 2 ^ 53) by (subst a; destruct s; cbn [cond_Zopp]; lia).
        pose proof (Z.div_mod a (2 ^ (- e)) ltac:(lia)) as Hdm.
        pose proof (Z.mod_pos_bound a (2 ^ (- e)) ltac:(lia)) as Hmb.
        nia. }
      destruct (Num_val z Hz) as [Hn1 Hn2].
      unfold neg_zero_if. destruct (s && (Num z =? 0)%float).
      * split; [reflexivity|]. intros _. exists 0. reflexivity.
      * split; [apply ffin_not_nan, Hn1|]. intros _. exists z.
        apply to_int_of_val; assumption.
Qed.

Lemma fval_const_20 : ffin 20 = true /\ fval 20 = 20%R.
Proof.
  split; [reflexivity|]. unfold fval.
  change (Prim2SF 20) with (S754_finite false 5629499534213120 (-48)).
  cbn [SFval].
  replace (pow2 (-48)) with (/ pow2 48)%R
    by (symmetry; apply (powerRZ_neg' 2 48)).
  rewrite pow2_IZR by lia.
  change (2 ^ 48) with 281474976710656. field.
Qed.

(** The radius is an integer between 1 and 20 for every [sigma] for which
    [sigma * 3] is a number. *)
Lemma kernel_radius_int sigma :
  is_nan (sigma * 3)%float = false ->
  exists r, 1 <= r <= 20 /\ to_int (kernel_radius sigma) = Some r.
Proof.
  intros Hn. unfold kernel_radius.
  destruct (Math_ceil_int _ Hn) as [Hc Hint].
  set (c := Math_ceil (sigma * 3)%float) in *.
  assert (Hmin : Math_min 20 c = 20%float
                 \/ (Math_min 20 c = c /\ (20 <? c)%float = false)).
  { unfold Math_min. change (is_nan 20) with false. rewrite Hc. cbv iota.
    destruct (20 <? c)%float; [left; reflexivity|].
    right. change (get_sign 20) with false.
    destruct (c <? 20)%float; split; reflexivity. }
  assert (H20 : to_int 20 = Some 20) by reflexivity.
  assert (H1 : to_int 1 = Some 1) by reflexivity.
  destruct Hmin as [->|[-> Hle]].
  - exists 20. split; [lia|]. unfold Math_max. reflexivity.
  - unfold Math_max. change (is_nan 1) with false. rewrite Hc. cbv iota.
    destruct (1 <? c)%float eqn:Hlt.
    + (* 1 < c <= 20 *)
      assert (Hfin : ffin c = true).
      { unfold ffin. rewrite ltb_spec in Hlt, Hle. unfold SFltb in Hlt, Hle.
        change (Prim2SF 1) with (S754_finite false 4503599627370496 (-52)) in Hlt.
        change (Prim2SF 20) with (S754_finite false 5629499534213120 (-48)) in Hle.
        destruct (Prim2SF c) as [s|s| |s m e]; try reflexivity; try discriminate.
        destruct s; discriminate. }
      destruct (Hint Hfin) as [z Hz]. exists z. split; [|exact Hz].
      split.
      * destruct (to_int_val c z Hz) as [_ Hv].
        apply (fltb_val 1 c (proj1 fval_one) Hfin) in Hlt.
        rewrite (proj2 fval_one), Hv in Hlt. apply lt_IZR in Hlt. lia.
      * apply (to_int_at_most_20 c z Hle Hz).
    + exists 1. split; [lia|]. change (get_sign 1) with false.
      destruct (c <? 1)%float; exact H1.
Qed.

(** *** The values of the kernel *)

Lemma leb_unit v :
  (0 <=? v)%float = true -> (v <=? 1)%float = true -> unitf v.
Proof.
  intros H0 H1.
  assert (Hfin : ffin v = true).
  { unfold ffin. rewrite leb_spec in H0, H1. unfold SFleb in H0, H1.
    change (Prim2SF 0) with (S754_zero false) in H0.
    change (Prim2SF 1) with (S754_finite false 4503599627370496 (-52)) in H1.
    destruct (Prim2SF v) as [s|s| |s m e]; try reflexivity; try discriminate.
    destruct s; discriminate. }
  split; [exact Hfin|].
  apply (fleb_val 0 v (proj1 ffin_zero) Hfin) in H0.
  apply (fleb_val v 1 Hfin (proj1 fval_one)) in H1.
  rewrite (proj2 ffin_zero) in H0. rewrite (proj2 fval_one) in H1. lra.
Qed.

Lemma pos_finite x :
  ffin x = true -> (0 < fval x)%R ->
  exists m e, Prim2SF x = S754_finite false m e.
Proof.
  unfold ffin, fval. destruct (Prim2SF x) as [s|s| |s m e]; try discriminate;
    intros _; cbn [SFval]; intros H; [lra|].
  destruct s; [|eauto]. exfalso.
  assert (0 < IZR (Z.pos m) * pow2 e)%R
    by (apply Rmult_lt_0_compat; [apply IZR_lt; lia | apply pow2_pos]).
  lra.
Qed.

Lemma ltb_pos_or_inf c x :
  ffin c = true -> (c <? x)%float = true ->
  Prim2SF x = S754_infinity false
  \/ (ffin x = true /\ (fval c < fval x)%R).
Proof.
  intros Hc Hlt.
  destruct (ffin x) eqn:Hx.
  - right. split; [reflexivity|]. apply (fltb_val c x Hc Hx), Hlt.
  - left. rewrite ltb_spec in Hlt. unfold SFltb in Hlt. unfold ffin in Hc, Hx.
    destruct (Prim2SF c) as [sc|sc| |sc mc ec]; try discriminate;
      destruct (Prim2SF x) as [s|s| |s m e]; try discriminate;
      destruct s; try discriminate; reflexivity.
Qed.

(** The product of two positive numbers that is not tiny is a positive
    number or +Infinity. *)
Lemma fmul_pos x y :
  pos_or_inf x -> pos_or_inf y ->
  (ffin x = true -> ffin y = true -> (/ 1000 <= fval x * fval y)%R) ->
  pos_or_inf (x * y)
  /\ (ffin (x * y) = true ->
      ffin x = true /\ ffin y = true
      /\ (fval x * fval y / 2 <= fval (x * y))%R).
Proof.
  intros Hx Hy Hlo.
  assert (Hinf : Prim2SF (x * y) = S754_infinity false ->
                 pos_or_inf (x * y)
                 /\ (ffin (x * y) = true ->
                     ffin x = true /\ ffin y = true
                     /\ (fval x * fval y / 2 <= fval (x * y))%R)).
  { intros E. split; [left; exact E|]. unfold ffin. rewrite E. discriminate. }
  destruct Hx as [Ex|[Hx Hxp]], Hy as [Ey|[Hy Hyp]].
  - apply Hinf. rewrite mul_spec, Ex, Ey. reflexivity.
  - destruct (pos_finite y Hy Hyp) as (my & ey & Ey).
    apply Hinf. rewrite mul_spec, Ex, Ey. reflexivity.
  - destruct (pos_finite x Hx Hxp) as (mx & ex & Ex).
    apply Hinf. rewrite mul_spec, Ex, Ey. reflexivity.
  - specialize (Hlo Hx Hy).
    destruct (pos_finite x Hx Hxp) as (mx & ex & Ex).
    destruct (pos_finite y Hy Hyp) as (my & ey & Ey).
    pose proof (SFmul_val prec emax prec_pos _ _ Hx Hy) as Hr.
    fold (fval x) (fval y) in Hr.
    assert (Hshape : Prim2SF (x * y) = SFmul prec emax (Prim2SF x) (Prim2SF y))
      by apply mul_spec.
    rewrite <- Hshape in Hr.
    pose proof (binary_round_aux_shape prec emax prec_pos false
                  (Z.pos (mx * my)) (ex + ey) loc_Exact ltac:(lia)) as Hs.
    assert (Em : SFmul prec emax (Prim2SF x) (Prim2SF y)
                 = binary_round_aux prec emax false (Z.pos (mx * my)) (ex + ey)
                     loc_Exact) by (rewrite Ex, Ey; reflexivity).
    rewrite <- Em, <- Hshape in Hs.
    destruct Hs as [E|[E|(m & e & E)]]; [|apply Hinf, E|].
    + (* not a zero *)
      exfalso. destruct Hr as [[_ Hb]|[[s Es] _]]; [|congruence].
      rewrite E in Hb. cbn [SFval] in Hb.
      change (pow2 (1 - prec)) with u64 in Hb.
      change (pow2 (SpecFloat.emin prec emax)) with t64 in Hb.
      pose proof u64_le. pose proof t64_le. pose proof u64_pos.
      assert (/ 10 ^ 15 <= / 4 /\ / 10 ^ 40 <= / 10000)%R
        by (split; apply Rinv_le_contravar; lra).
      rewrite Rminus_0_l, Rabs_Ropp in Hb.
      rewrite Rabs_right in Hb by lra.
      assert (fval x * fval y * u64 <= fval x * fval y * / 4)%R
        by (apply Rmult_le_compat_l; lra).
      lra.
    + destruct Hr as [[Hfin Hb]|[[s Es] _]]; [|congruence].
      assert (Hval : (fval x * fval y / 2 <= fval (x * y))%R).
      { fold (fval (x * y)) in Hb.
        change (pow2 (1 - prec)) with u64 in Hb.
        change (pow2 (SpecFloat.emin prec emax)) with t64 in Hb.
        pose proof u64_le. pose proof t64_le. pose proof u64_pos.
        assert (/ 10 ^ 15 <= / 4 /\ / 10 ^ 40 <= / 10000)%R
          by (split; apply Rinv_le_contravar; lra).
        rewrite (Rabs_right (fval x * fval y)) in Hb by lra.
        apply Rabs_le_inv in Hb.
        assert (fval x * fval y * u64 <= fval x * fval y * / 4)%R
          by (apply Rmult_le_compat_l; lra).
        lra. }
      split.
      * right. split; [exact Hfin|]. lra.
      * intros _. split; [exact Hx|]. split; [exact Hy | exact Hval].
Qed.

Lemma fval_tenth : ffin 0.1 = true /\ (/ 10 <= fval 0.1)%R.
Proof.
  split; [reflexivity|]. unfold fval.
  change (Prim2SF 0.1) with (S754_finite false 7205759403792794 (-56)).
  cbn [SFval].
  replace (pow2 (-56)) with (/ pow2 56)%R
    by (symmetry; apply (powerRZ_neg' 2 56)).
  rewrite pow2_IZR by lia.
  change (2 ^ 56) with 72057594037927936. lra.
Qed.

Lemma fval_two : ffin 2 = true /\ fval 2 = 2%R.
Proof.
  split; [reflexivity|]. unfold fval.
  change (Prim2SF 2) with (S754_finite false 4503599627370496 (-51)).
  cbn [SFval].
  replace (pow2 (-51)) with (/ pow2 51)%R
    by (symmetry; apply (powerRZ_neg' 2 51)).
  rewrite pow2_IZR by lia.
  change (2 ^ 51) with 2251799813685248. field.
Qed.

(** For [sigma > 0.1] the divisor [2 * sigma * sigma] is a positive number
    or +Infinity: it is neither 0 nor NaN. *)
Lemma divisor_pos sigma :
  (0.1 <? sigma)%float = true -> pos_or_inf (2 * (sigma * sigma)).
Proof.
  intros Hs.
  assert (Hsig : pos_or_inf sigma /\ (ffin sigma = true -> (/ 10 < fval sigma)%R)).
  { destruct (ltb_pos_or_inf 0.1 sigma (proj1 fval_tenth) Hs) as [E|[Hf Hv]].
    - split; [left; exact E|]. unfold ffin. rewrite E. discriminate.
    - pose proof (proj2 fval_tenth). split; [right; split; [exact Hf | lra]|].
      intros _. lra. }
  destruct Hsig as [Hp Hv].
  destruct (fmul_pos sigma sigma Hp Hp) as [Hp2 Hv2].
  { intros Hf _. specialize (Hv Hf). nra. }
  assert (H2 : pos_or_inf 2).
  { right. split; [reflexivity|]. rewrite (proj2 fval_two). lra. }
  apply (fmul_pos 2 (sigma * sigma) H2 Hp2).
  intros _ Hf. destruct (Hv2 Hf) as (Hfs & _ & Hb). specialize (Hv Hfs).
  rewrite (proj2 fval_two). nra.
Qed.

Lemma neg_leb x : neg_or_zero x -> (x <=? 0)%float = true.
Proof.
  unfold neg_or_zero. rewrite leb_spec. unfold SFleb.
  change (Prim2SF 0) with (S754_zero false).
  destruct (Prim2SF x) as [[|]|[|]| |[|] m e]; intros H;
    try contradiction; reflexivity.
Qed.

(** A negative number or -0 divided by a positive number or +Infinity. *)
Lemma neg_div x d :
  (Prim2SF x = S754_zero true \/ exists m e, Prim2SF x = S754_finite true m e) ->
  pos_or_inf d ->
  neg_or_zero (x / d)
  /\ (Prim2SF x = S754_zero true -> (x / d)%float = neg_zero).
Proof.
  intros Hx Hd.
  assert (Hz : Prim2SF (x / d) = S754_zero true ->
               neg_or_zero (x / d)
               /\ (Prim2SF x = S754_zero true -> (x / d)%float = neg_zero)).
  { intros E. split; [unfold neg_or_zero; rewrite E; exact I|].
    intros _. apply Prim2SF_inj. rewrite E. reflexivity. }
  assert (Hd' : Prim2SF d = S754_infinity false
                \/ exists m e, Prim2SF d = S754_finite false m e).
  { destruct Hd as [E|[Hf Hp]]; [left; exact E | right].
    apply pos_finite; assumption. }
  destruct Hx as [Ex|(mx & ex & Ex)], Hd' as [Ed|(md & ed & Ed)].
  - apply Hz. rewrite div_spec, Ex, Ed. reflexivity.
  - apply Hz. rewrite div_spec, Ex, Ed. reflexivity.
  - apply Hz. rewrite div_spec, Ex, Ed. reflexivity.
  - split; [|rewrite Ex; discriminate].
    unfold neg_or_zero. rewrite div_spec, Ex, Ed. unfold SF64div. cbn [SFdiv].
    destruct (SFdiv_core_binary_spec prec emax mx ex md ed) as [l ->].
    cbn [xorb].
    match goal with
    | |- context [binary_round_aux prec emax true ?q ?e l] =>
        destruct (binary_round_aux_shape prec emax prec_pos true q e l)
          as [->|[->|(m & e' & ->)]]; try exact I
    end.
    apply Z.div_pos; [|lia].
    apply Z.mul_nonneg_nonneg; [lia|]. apply Z.pow_nonneg. lia.
Qed.

Lemma forall_offsets (P : Z -> bool) :
  forallb P (seqZ (-20) 41) = true ->
  forall i, -20 <= i <= 20 -> P i = true.
Proof.
  intros H i Hi. rewrite forallb_forall in H. apply H.
  apply list_elem_of_In, elem_of_seqZ. lia.
Qed.

(** [-(i * i)] for an offset [i]: -0 for 0 and a negative number
    otherwise. *)
Lemma neg_square i :
  -20 <= i <= 20 ->
  (i = 0 /\ Prim2SF (- (Num i * Num i)) = S754_zero true)
  \/ (exists m e, Prim2SF (- (Num i * Num i)) = S754_finite true m e).
Proof.
  intros Hi.
  pose proof (forall_offsets square_ok ltac:(vm_compute; reflexivity) i Hi) as H.
  unfold square_ok in H.
  destruct (Prim2SF (- (Num i * Num i))) as [[|]|[|]| |[|] m e];
    try discriminate.
  - left. split; [apply Z.eqb_eq, H | reflexivity].
  - right. eauto.
Qed.

(** The numbers [Math.exp] returns for the offsets of the kernel. *)
Lemma kernel_values (Math_exp : float -> float) (d : float) (r : Z) :
  exp_like Math_exp -> pos_or_inf d -> 1 <= r <= 20 ->
  Forall unitf
    (map (fun i => Math_exp (- (Num i * Num i) / d)%float) (seqZ (- r) (2 * r + 1)))
  /\ In 1%float
       (map (fun i => Math_exp (- (Num i * Num i) / d)%float)
            (seqZ (- r) (2 * r + 1))).
Proof.
  intros [Hexp0 Hexp] Hd Hr. split.
  - apply Forall_forall. intros v Hv. apply list_elem_of_In in Hv.
    apply in_map_iff in Hv as (i & <- & Hi).
    apply list_elem_of_In, elem_of_seqZ in Hi.
    assert (Hneg : neg_or_zero (- (Num i * Num i) / d)).
    { apply neg_div; [|exact Hd].
      destruct (neg_square i ltac:(lia)) as [[_ E]|E]; [left | right]; exact E. }
    destruct (Hexp _ (neg_leb _ Hneg)) as [H0 H1]. apply leb_unit; assumption.
  - apply in_map_iff. exists 0. split.
    + destruct (neg_square 0 ltac:(lia)) as [[_ E]|(m & e & E)].
      * destruct (neg_div (- (Num 0 * Num 0)) d (or_introl E) Hd) as [_ Hz].
        rewrite (Hz E). exact Hexp0.
      * vm_compute in E. discriminate E.
    + apply list_elem_of_In, elem_of_seqZ. lia.
Qed.

Lemma ltb_not_leb c x : (c <? x)%float = true -> (x <=? c)%float = false.
Proof.
  intros H. destruct (x <=? c)%float eqn:E; [|reflexivity].
  rewrite (leb_ltb_false _ _ E) in H. discriminate H.
Qed.

Lemma fval_three : ffin 3 = true /\ fval 3 = 3%R.
Proof.
  split; [reflexivity|]. unfold fval.
  change (Prim2SF 3) with (S754_finite false 6755399441055744 (-51)).
  cbn [SFval].
  replace (pow2 (-51)) with (/ pow2 51)%R
    by (symmetry; apply (powerRZ_neg' 2 51)).
  rewrite pow2_IZR by lia.
  change (2 ^ 51) with 2251799813685248. field.
Qed.

Lemma pos_or_inf_not_nan x : pos_or_inf x -> is_nan x = false.
Proof.
  intros [E|[Hf _]]; [|apply ffin_not_nan, Hf].
  apply is_nan_false. rewrite E. discriminate.
Qed.

(** The kernel for [sigma > 0.1]: the weights of [2 * r + 1] numbers
    between 0 and 1, one of which is 1, for a radius [r] from 1 to 20. *)
Lemma makeGaussianKernel_spec (Math_exp : float -> float) (sigma : float) :
  exp_like Math_exp -> (0.1 <? sigma)%float = true ->
  exists (r : Z) (vs : list float),
    1 <= r <= 20
    /\ to_int (kernel_radius sigma) = Some r
    /\ length vs = Z.to_nat (2 * r + 1)
    /\ Forall unitf vs /\ In 1%float vs
    /\ makeGaussianKernel Math_exp sigma
       = (map (weigh (fsum vs 0)) vs, kernel_radius sigma).
Proof.
  intros Hexp Hs.
  assert (Hsig : pos_or_inf sigma /\ (ffin sigma = true -> (/ 10 < fval sigma)%R)).
  { destruct (ltb_pos_or_inf 0.1 sigma (proj1 fval_tenth) Hs) as [E|[Hf Hv]].
    - split; [left; exact E|]. unfold ffin. rewrite E. discriminate.
    - pose proof (proj2 fval_tenth). split; [right; split; [exact Hf | lra]|].
      intros _. lra. }
  destruct Hsig as [Hp Hv].
  assert (H3 : pos_or_inf 3).
  { right. split; [reflexivity|]. rewrite (proj2 fval_three). lra. }
  destruct (fmul_pos sigma 3 Hp H3) as [Hp3 _].
  { intros Hf _. specialize (Hv Hf). rewrite (proj2 fval_three). lra. }
  destruct (kernel_radius_int sigma (pos_or_inf_not_nan _ Hp3)) as (r & Hr & Hint).
  pose proof (divisor_pos sigma Hs) as Hd.
  destruct (kernel_values Math_exp (2 * (sigma * sigma)) r Hexp Hd Hr) as [Hu H1].
  exists r, (map (fun i => Math_exp (- (Num i * Num i) / (2 * (sigma * sigma)))%float)
                 (seqZ (- r) (2 * r + 1))).
  split; [exact Hr|]. split; [exact Hint|].
  split; [rewrite length_map, length_seqZ; reflexivity|].
  split; [exact Hu|]. split; [exact H1|].
  unfold makeGaussianKernel. rewrite (ltb_not_leb _ _ Hs). cbv zeta.
  unfold offsets. rewrite Hint. reflexivity.
Qed.

Lemma fabs_val x :
  ffin x = true -> ffin (abs x) = true /\ fval (abs x) = Rabs (fval x).
Proof.
  unfold ffin, fval. rewrite abs_spec.
  destruct (Prim2SF x) as [s| | |s m e]; try discriminate; intros _;
    cbn [SFabs SFfin SFval]; (split; [reflexivity|]).
  - rewrite Rabs_R0. reflexivity.
  - assert (Hp : (0 < IZR (Z.pos m) * pow2 e)%R).
    { apply Rmult_lt_0_compat; [apply IZR_lt; lia | apply pow2_pos]. }
    destruct s.
    + rewrite Rabs_left by lra. lra.
    + rewrite Rabs_right by lra. lra.
Qed.

Lemma fval_tolerance : ffin 1e-5 = true /\ (9 / 1000000 <= fval 1e-5)%R.
Proof.
  split; [reflexivity|]. unfold fval.
  change (Prim2SF 1e-5) with (S754_finite false 5902958103587057 (-69)).
  cbn [SFval].
  replace (pow2 (-69)) with (/ pow2 69)%R
    by (symmetry; apply (powerRZ_neg' 2 69)).
  rewrite pow2_IZR by lia.
  change (2 ^ 69) with 590295810358705651712.
  apply Rmult_le_reg_r with 590295810358705651712%R; [lra|].
  rewrite Rmult_1_l, Rmult_assoc, Rinv_l by lra. lra.
Qed.

Lemma u64_small : (0 < u64 <= / 1000000000000000)%R.
Proof.
  split; [apply u64_pos|]. eapply Rle_trans; [apply u64_le|].
  apply Rinv_le_contravar; lra.
Qed.

Lemma kernel_length r (vs : list float) :
  1 <= r <= 20 -> length vs = Z.to_nat (2 * r + 1) -> (length vs <= 41)%nat.
Proof. lia. Qed.

(** The weights add up to 1 within 1e-5. *)
Lemma kernel_sum_near_one (Math_exp : float -> float) (sigma : float) :
  exp_like Math_exp -> (0.1 <? sigma)%float = true ->
  (abs (kernel_sum (makeGaussianKernel Math_exp sigma).1 - 1) <=? 1e-5)%float
  = true.
Proof.
  intros Hexp Hs.
  destruct (makeGaussianKernel_spec Math_exp sigma Hexp Hs)
    as (r & vs & Hr & _ & Hlen & Hu & H1 & ->).
  cbn [fst]. fold (fsum (map (weigh (fsum vs 0)) vs) 0).
  destruct (kernel_of_units vs Hu H1 (kernel_length r vs Hr Hlen))
    as (_ & _ & _ & _ & Hf & Hv).
  set (s := fsum (map (weigh (fsum vs 0)) vs) 0) in *.
  destruct fval_one as [Hf1 Hv1].
  apply Rabs_le_inv in Hv.
  destruct (fsub_val s 1 Hf Hf1) as [Hfd Hvd].
  { rewrite Hv1. pose proof pow2_100_ge. apply Rabs_le. lra. }
  rewrite Hv1 in Hvd.
  destruct (fabs_val _ Hfd) as [Hfa Hva].
  destruct fval_tolerance as [Hft Hvt].
  apply (fleb_val _ _ Hfa Hft). rewrite Hva.
  pose proof u64_small.
  assert (Hd : (Rabs (fval s - 1) <= 5 / 10000000)%R) by (apply Rabs_le; lra).
  assert (Hd0 : (0 <= Rabs (fval s - 1))%R) by apply Rabs_pos.
  assert (Hm : (Rabs (fval s - 1) * u64 <= 1 * / 1000000000000000)%R).
  { apply Rmult_le_compat; lra. }
  apply Rabs_le_inv in Hvd.
  apply Rabs_le. apply Rabs_le_inv in Hd. lra.
Qed.

(** *** The convolution of a constant *)

Lemma taps_val (c : float) (C : R) (kernel : list float) :
  ffin c = true -> fval c = C -> (0 <= C <= 255)%R ->
  Forall (fun w => ffin w = true /\ (Rabs (fval w) <= 2)%R) kernel ->
  Forall (fun v => ffin v = true /\ (Rabs (fval v) <= 511)%R) (taps c kernel)
  /\ (Rabs (rsum (taps c kernel) - C * rsum kernel)
      <= INR (length kernel) * / 10 ^ 10)%R.
Proof.
  intros Hc HC Hb.
  pose proof u64_small as Hu.
  pose proof t64_pos as Ht0.
  assert (Ht : (t64 <= / 1000000000000000)%R).
  { eapply Rle_trans; [apply t64_le|]. apply Rinv_le_contravar; lra. }
  assert (H10 : (/ 10 ^ 10 = / 10000000000)%R) by (f_equal; lra).
  induction 1 as [|w l [Hw Hwb] _ [IH1 IH2]]; cbn [taps map rsum length].
  - split; [constructor|]. simpl. rewrite Rmult_0_r, Rminus_diag, Rabs_R0. lra.
  - fold (taps c l).
    assert (Hp : (Rabs (fval c * fval w) <= 510)%R).
    { rewrite Rabs_mult, HC. rewrite (Rabs_right C) by lra.
      assert (0 <= Rabs (fval w))%R by apply Rabs_pos.
      replace 510%R with (255 * 2)%R by lra.
      apply Rmult_le_compat; lra. }
    destruct (fmul_val c w Hc Hw) as [Hf Hv].
    { pose proof pow2_100_ge. lra. }
    assert (Hpu : (Rabs (fval c * fval w) * u64 <= 510 * / 1000000000000000)%R).
    { apply Rmult_le_compat; try lra. apply Rabs_pos. }
    rewrite HC in Hv, Hp, Hpu.
    apply Rabs_le_inv in Hv. apply Rabs_le_inv in Hp.
    split.
    + constructor; [|exact IH1]. split; [exact Hf|]. apply Rabs_le. lra.
    + rewrite S_INR. apply Rabs_le_inv in IH2. apply Rabs_le. lra.
Qed.

(** A kernel whose weights add up to 1 within 4e-7 returns the constant
    it is applied to, once the result is stored in a byte. *)
Lemma constant_convolution (kernel : list float) (c : Z) :
  0 <= c <= 255 ->
  (length kernel <= 41)%nat ->
  Forall (fun w => ffin w = true /\ (Rabs (fval w) <= 2)%R) kernel ->
  (Rabs (rsum kernel - 1) <= 4 / 10000000)%R ->
  ToUint8Clamp (fsum (taps (Num c) kernel) 0) = c.
Proof.
  intros Hc Hlen Hk Hsum.
  destruct (Num_val c) as [Hf Hv]; [lia|].
  assert (HC : (0 <= IZR c <= 255)%R) by (split; apply IZR_le; lia).
  destruct (taps_val (Num c) (IZR c) kernel Hf Hv HC Hk) as [Ht Hr].
  pose proof u64_small as Hu.
  pose proof pow2_100_ge as H100.
  assert (HL : (0 <= INR (length (taps (Num c) kernel)) <= 41)%R).
  { unfold taps. rewrite length_map. split; [apply pos_INR|].
    replace 41%R with (INR 41) by (simpl; lra). apply le_INR, Hlen. }
  assert (HL' : (0 <= INR (length kernel) <= 41)%R).
  { unfold taps in HL. rewrite length_map in HL. exact HL. }
  assert (H10 : (/ 10 ^ 10 = / 10000000000)%R) by (f_equal; lra).
  assert (Hmu : (0 <= 65536 * u64 <= 65536 * / 1000000000000000)%R).
  { split; [apply Rmult_le_pos; lra|]. apply Rmult_le_compat_l; lra. }
  destruct (fsum_val 511 65536 (taps (Num c) kernel)
              ltac:(lra) ltac:(lra) Ht 0%float 0%R 0%R
              (proj1 ffin_zero)) as [Hfs Hvs].
  { rewrite (proj2 ffin_zero), Rminus_diag, Rabs_R0. lra. }
  { rewrite Rabs_R0.
    assert (INR (length (taps (Num c) kernel)) * (511 + 65536 * u64)
            <= 41 * 512)%R by (apply Rmult_le_compat; lra).
    lra. }
  apply ToUint8Clamp_near; [exact Hfs | exact Hc |].
  assert (E1 : (INR (length (taps (Num c) kernel)) * (65536 * u64)
                <= 41 * (65536 * / 1000000000000000))%R)
    by (apply Rmult_le_compat; lra).
  assert (E2 : (INR (length kernel) * / 10 ^ 10 <= 41 * / 10000000000)%R).
  { rewrite H10. apply Rmult_le_compat_r; lra. }
  assert (E3 : (- (255 * (4 / 10000000)) <= IZR c * (rsum kernel - 1)
                <= 255 * (4 / 10000000))%R).
  { apply Rabs_le_inv. rewrite Rabs_mult, (Rabs_right (IZR c)) by lra.
    apply Rmult_le_compat; try lra. apply Rabs_pos. }
  apply Rabs_le_inv in Hvs, Hr.
  apply Rabs_def1; lra.
Qed.

(** *** The blur of a single colour *)

Lemma uniform_length n r g b a : length (uniform n r g b a) = (4 * n)%nat.
Proof. induction n as [|n IH]; cbn [uniform length]; lia. Qed.

Lemma uniform_app n m r g b a :
  uniform (n + m) r g b a = uniform n r g b a ++ uniform m r g b a.
Proof.
  induction n as [|n IH]; [reflexivity|].
  cbn [uniform Nat.add app]. rewrite IH. reflexivity.
Qed.

Lemma rd_uniform n r g b a (p c : Z) :
  0 <= p < Z.of_nat n -> 0 <= c <= 3 ->
  rd (uniform n r g b a) (p * 4 + c) = Num (channel r g b a c).
Proof.
  intros Hp Hc. unfold rd.
  destruct (p * 4 + c <? 0) eqn:E; [apply Z.ltb_lt in E; lia|].
  replace (Z.to_nat (p * 4 + c)) with (4 * Z.to_nat p + Z.to_nat c)%nat by lia.
  assert (Hn : (Z.to_nat p < n)%nat) by lia.
  revert Hn. generalize (Z.to_nat p). clear Hp E. intros q. revert n.
  induction q as [|q IH]; intros [|n] Hq; try lia.
  - cbn [uniform]. unfold channel.
    assert (Hcs : c = 0 \/ c = 1 \/ c = 2 \/ c = 3) by lia.
    destruct Hcs as [-> | [-> | [-> | ->]]]; reflexivity.
  - cbn [uniform].
    replace (4 * S q + Z.to_nat c)%nat
      with (S (S (S (S (4 * q + Z.to_nat c))))) by lia.
    cbn [lookup list_lookup]. apply IH. lia.
Qed.

Lemma fsum_map {A} (f : A -> float) (l : list A) (acc : float) :
  fold_left (fun s k => (s + f k)%float) l acc = fsum (map f l) acc.
Proof.
  revert acc. induction l as [|k l IH]; intros acc; [reflexivity|].
  cbn [fold_left map fsum]. apply IH.
Qed.

(** A kernel of [2 * r + 1] weights, read at the offsets [-r .. r]. *)
Lemma kv_offsets (kernel : list float) (r : Z) :
  0 <= r -> length kernel = Z.to_nat (2 * r + 1) ->
  map (kv kernel r) (seqZ (- r) (2 * r + 1)) = kernel.
Proof.
  intros Hr Hlen. apply list_eq. intros i.
  change (map (kv kernel r)) with (fmap (M := list) (kv kernel r)).
  rewrite list_lookup_fmap.
  destruct (decide (Z.of_nat i < 2 * r + 1)) as [Hi|Hi].
  - rewrite lookup_seqZ_lt by exact Hi. cbn [fmap option_fmap option_map].
    unfold kv.
    destruct (- r + Z.of_nat i + r <? 0) eqn:E; [apply Z.ltb_lt in E; lia|].
    replace (Z.to_nat (- r + Z.of_nat i + r)) with i by lia.
    destruct (kernel !! i) eqn:Ek; [reflexivity|].
    apply lookup_ge_None in Ek. lia.
  - rewrite lookup_seqZ_ge by lia. cbn [fmap option_fmap option_map].
    symmetry. apply lookup_ge_None. lia.
Qed.

Lemma channel_byte r g b a c :
  byte r -> byte g -> byte b -> byte a -> byte (channel r g b a c).
Proof.
  intros Hr Hg Hb Ha. unfold channel.
  destruct (c =? 0); [exact Hr|]. destruct (c =? 1); [exact Hg|].
  destruct (c =? 2); [exact Hb | exact Ha].
Qed.

Lemma convolve_uniform (kernel : list float) (radius : Z) (n : nat)
  (r g b a : Z) (at_k : Z -> Z) (p : Z -> Z) (c : Z) :
  0 <= radius -> length kernel = Z.to_nat (2 * radius + 1) ->
  keeps_constants kernel ->
  byte r -> byte g -> byte b -> byte a ->
  (forall k, at_k k = p k * 4 /\ 0 <= p k < Z.of_nat n) ->
  0 <= c <= 3 ->
  convolve kernel radius (seqZ (- radius) (2 * radius + 1))
    (uniform n r g b a) at_k c
  = channel r g b a c.
Proof.
  intros Hr Hlen Hk Hbr Hbg Hbb Hba Hat Hc. unfold convolve.
  rewrite (fsum_map (fun k => (rd (uniform n r g b a) (at_k k + c)
                               * kv kernel radius k)%float)).
  erewrite map_ext; cycle 1.
  { intros k. destruct (Hat k) as [-> Hp]. rewrite rd_uniform by assumption.
    reflexivity. }
  rewrite <- (map_map (kv kernel radius)
                (fun w => (Num (channel r g b a c) * w)%float)).
  rewrite kv_offsets by assumption.
  apply Hk. apply channel_byte; assumption.
Qed.

Lemma conv_pixel_uniform (kernel : list float) (radius : Z) (n : nat)
  (r g b a : Z) (at_k : Z -> Z) (p : Z -> Z) :
  0 <= radius -> length kernel = Z.to_nat (2 * radius + 1) ->
  keeps_constants kernel ->
  byte r -> byte g -> byte b -> byte a ->
  (forall k, at_k k = p k * 4 /\ 0 <= p k < Z.of_nat n) ->
  conv_pixel kernel radius (seqZ (- radius) (2 * radius + 1))
    (uniform n r g b a) at_k
  = [r; g; b; a].
Proof.
  intros Hr Hlen Hk Hbr Hbg Hbb Hba Hat. unfold conv_pixel.
  rewrite !(convolve_uniform kernel radius n r g b a at_k p) by (assumption || lia).
  reflexivity.
Qed.

Lemma flat_map_pixels {A} (f : A -> list Z) (l : list A) (m : nat) r g b a :
  (forall x, In x l -> f x = uniform m r g b a) ->
  flat_map f l = uniform (length l * m) r g b a.
Proof.
  induction l as [|x l IH]; intros H; [reflexivity|].
  cbn [flat_map length Nat.mul]. rewrite uniform_app, (H x), IH.
  - reflexivity.
  - intros y Hy. apply H. right. exact Hy.
  - left. reflexivity.
Qed.

Lemma in_seqZ x n : In x (seqZ 0 n) -> 0 <= x < n.
Proof. intros H. apply list_elem_of_In, elem_of_seqZ in H. lia. Qed.

Lemma uniform_all_bytes n r g b a :
  Forall byte (uniform (S n) r g b a) ->
  byte r /\ byte g /\ byte b /\ byte a.
Proof.
  cbn [uniform]. intros H.
  inversion_clear H as [|? ? Hr H1]. inversion_clear H1 as [|? ? Hg H2].
  inversion_clear H2 as [|? ? Hb H3]. inversion_clear H3 as [|? ? Ha _]. auto.
Qed.

Lemma pixel_in_range (w h x y : Z) :
  0 <= x < w -> 0 <= y < h -> 0 <= y * w + x < w * h.
Proof. nia. Qed.

Lemma passes_uniform (kernel : list float) (radius : Z) (w h : Z)
  (r g b a : Z) :
  0 <= radius -> length kernel = Z.to_nat (2 * radius + 1) ->
  keeps_constants kernel ->
  0 <= w -> 0 <= h ->
  (0 < w * h -> byte r /\ byte g /\ byte b /\ byte a) ->
  let buf := uniform (Z.to_nat h * Z.to_nat w) r g b a in
  let ks := seqZ (- radius) (2 * radius + 1) in
  horizontal_pass kernel radius ks w h buf = buf
  /\ vertical_pass kernel radius ks w h buf = buf.
Proof.
  intros Hr Hlen Hk Hw Hh Hb buf ks.
  assert (Hrow : forall f : Z -> Z -> list Z,
             (forall y x, 0 <= y < h -> 0 <= x < w -> f y x = [r; g; b; a]) ->
             flat_map (fun y => flat_map (f y) (seqZ 0 w)) (seqZ 0 h) = buf).
  { intros f Hf. unfold buf.
    rewrite (flat_map_pixels _ (seqZ 0 h) (Z.to_nat w) r g b a).
    - rewrite length_seqZ. reflexivity.
    - intros y Hy. apply in_seqZ in Hy.
      rewrite (flat_map_pixels _ (seqZ 0 w) 1 r g b a).
      + rewrite length_seqZ, Nat.mul_1_r. reflexivity.
      + intros x Hx. apply in_seqZ in Hx. apply Hf; assumption. }
  assert (Hn : Z.of_nat (Z.to_nat h * Z.to_nat w) = w * h) by nia.
  split.
  - unfold horizontal_pass. apply Hrow. intros y x Hy Hx.
    destruct Hb as (Hbr & Hbg & Hbb & Hba); [nia|].
    apply (conv_pixel_uniform kernel radius _ r g b a _
             (fun k => y * w + Z.min (w - 1) (Z.max 0 (x + k)))); try assumption.
    intros k. split; [reflexivity|]. rewrite Hn.
    apply pixel_in_range; lia.
  - unfold vertical_pass. apply Hrow. intros y x Hy Hx.
    destruct Hb as (Hbr & Hbg & Hbb & Hba); [nia|].
    apply (conv_pixel_uniform kernel radius _ r g b a _
             (fun k => Z.min (h - 1) (Z.max 0 (y + k)) * w + x)); try assumption.
    intros k. split; [reflexivity|]. rewrite Hn.
    apply pixel_in_range; lia.
Qed.

Lemma kernel_keeps_constants (Math_exp : float -> float) (sigma : float) :
  exp_like Math_exp -> (0.1 <? sigma)%float = true ->
  exists r kernel,
    1 <= r <= 20 /\ to_int (kernel_radius sigma) = Some r
    /\ length kernel = Z.to_nat (2 * r + 1)
    /\ keeps_constants kernel
    /\ makeGaussianKernel Math_exp sigma = (kernel, kernel_radius sigma).
Proof.
  intros Hexp Hs.
  destruct (makeGaussianKernel_spec Math_exp sigma Hexp Hs)
    as (r & vs & Hr & Hint & Hlen & Hu & H1 & E).
  exists r, (map (weigh (fsum vs 0)) vs).
  split; [exact Hr|]. split; [exact Hint|].
  split; [rewrite length_map; exact Hlen|]. split; [|exact E].
  destruct (kernel_of_units vs Hu H1 (kernel_length r vs Hr Hlen))
    as (_ & _ & Hw & Hsum & _).
  intros c Hc. apply constant_convolution; try assumption.
  rewrite length_map. apply (kernel_length r vs Hr Hlen).
Qed.

Lemma exp_step_like : exp_like exp_step.
Proof.
  split; [reflexivity|]. intros x _. unfold exp_step.
  destruct (x <? 0)%float; split; reflexivity.
Qed.

(** C7: for every sigmaPx above 0.1 the weights of the kernel add up to 1
    within 1e-5, and the blur returns an image of a single colour as it is. *)
Theorem blur_kernel_is_normalised (Math_exp : float -> float) (sigmaPx : float) :
  exp_like Math_exp ->
  (0.1 <? sigmaPx)%float = true ->
  (abs (kernel_sum (makeGaussianKernel Math_exp sigmaPx).1 - 1) <=? 1e-5)%float
  = true
  /\ forall (img : ImageData) (n : nat) (r g b a : Z),
       wf_image img ->
       data img = uniform n r g b a ->
       applyGaussianBlur Math_exp img sigmaPx = img.
Proof.
  intros Hexp Hs. split; [apply kernel_sum_near_one; assumption|].
  intros img n r g b a (Hw & Hh & Hlen & Hbytes) Hdata.
  unfold applyGaussianBlur. rewrite (ltb_not_leb _ _ Hs).
  destruct (kernel_keeps_constants Math_exp sigmaPx Hexp Hs)
    as (rad & kernel & Hrad & Hint & Hklen & Hk & ->).
  cbv zeta. unfold offsets. rewrite Hint. cbn [default].
  destruct img as [buf w h]. cbn [data width height] in *. subst buf.
  rewrite uniform_length in Hlen.
  assert (Hn : n = (Z.to_nat h * Z.to_nat w)%nat) by nia.
  subst n.
  destruct (passes_uniform kernel rad w h r g b a) as [H1 H2];
    try assumption; try lia.
  { intros Hpos. apply (uniform_all_bytes (Nat.pred (Z.to_nat h * Z.to_nat w))).
    replace (S (Nat.pred (Z.to_nat h * Z.to_nat w)))
      with (Z.to_nat h * Z.to_nat w)%nat by nia.
    exact Hbytes. }
  change (Datatypes.id rad) with rad. rewrite H1, H2. reflexivity.
Qed.

Lemma blur_kernel_is_normalised_witness :
  exp_like exp_step /\ (0.1 <? 1.5)%float = true /\ wf_image green_image
  /\ data green_image = uniform 6 10 200 10 255
  /\ (abs (kernel_sum (makeGaussianKernel exp_step 1.5).1 - 1) <=? 1e-5)%float
     = true
  /\ applyGaussianBlur exp_step green_image 1.5 = green_image.
Proof.
  assert (Hwf : wf_image green_image).
  { unfold wf_image, byte; simpl. repeat split; try lia.
    repeat constructor; lia. }
  destruct (blur_kernel_is_normalised exp_step 1.5 exp_step_like eq_refl)
    as [Hsum Hblur].
  split; [exact exp_step_like|]. split; [reflexivity|]. split; [exact Hwf|].
  split; [reflexivity|]. split; [exact Hsum|].
  exact (Hblur green_image 6%nat 10 200 10 255 Hwf eq_refl).
Defined.
